(** * A shallow embedding of pulse's event bus and disposable lifecycle

    Sources: [src/src/common/event.ts] (class [EventBus]) and
    [src/src/common/lifecycle.ts] ([FunctionDisposable], [toDisposable],
    [DisposableStore]).

    The JavaScript heap objects the code mutates are modelled as explicit
    state: every [Set] of listeners held in [_events] is an object of its own
    (the handle returned by [on] closes over that object, not over the map
    entry), every [FunctionDisposable] and [DisposableStore] is an object
    with an identity, and the microtask queue holds the deferred [invoke]
    closures.  Exceptions are the [Err] outcome of a state-and-error monad. *)

From Stdlib Require Import ZArith Lia.
From stdpp Require Import base gmap sets list strings.

Local Open Scope string_scope.

(** ** Values *)

(** Event keys are the string keys of [Events extends Record<string, any[]>];
    an argument tuple [Events[E]] is a list of numbers. *)
Abbreviation key := string.
Abbreviation args := (list Z).

(** Function values stored in a listener [Set].  JavaScript compares them by
    identity: [FUser l] is the user's listener function [l]; [FWrap l u] is
    the [wrapper] closure created by the [u]-th call of [once] around [l]. *)
Inductive fnv :=
| FUser (l : nat)
| FWrap (l : nat) (u : nat).

#[global] Instance fnv_eq_dec : EqDecision fnv.
Proof. solve_decision. Defined.

(** Thrown values: an [Error] with its message, or whatever a listener or a
    clean-up function throws. *)
Inductive exn :=
| JSError (msg : string)
| UserThrow.

#[global] Instance exn_eq_dec : EqDecision exn.
Proof. solve_decision. Defined.

(** The clean-up function [_fn] of a [FunctionDisposable]:
    [CDelete r f] is [() => listeners.delete(listener)] built by [on] for the
    set object [r]; [CUser t b] is an arbitrary function passed to
    [toDisposable], observable through the trace, that throws when [b]. *)
Inductive cleanup :=
| CDelete (r : nat) (f : fnv)
| CUser (t : nat) (throws : bool).

(** [FunctionDisposable]: [_isDisposed] and [_fn]. *)
Record handle := mkH { h_disposed : bool; h_fn : cleanup }.

(** Anything an [IDisposable] store can hold in this model. *)
Inductive dref :=
| DH (h : nat)
| DS (s : nat).

#[global] Instance dref_eq_dec : EqDecision dref.
Proof. solve_decision. Defined.

(** [DisposableStore]: [_disposables] (insertion ordered) and [_disposed]. *)
Record store := mkS { s_items : list dref; s_disposed : bool }.

(** A queued microtask: the [invoke] closure of one deferred [emit], with the
    values it closed over ([event], [snapshot], [args]). *)
Record task := mkT { t_key : key; t_snap : list fnv; t_args : args }.

(** Observable events.  [TWarn] and [TErr] are [console.warn] and
    [console.error]; [TRan t] is a run of the clean-up function [t]; [TRun l a]
    is the start of a run of the user's listener [l] with [a].
    [TCall k f a] marks the point where [invoke] for key [k] calls the
    snapshot element [f] (the loop body [listener(...args)]), and the key on
    [TErr k e] names the [invoke] whose [catch] logged [e]: these two tags are
    bookkeeping that locates the events in the source, they print nothing. *)
Inductive ev :=
| TCall (k : key) (f : fnv) (a : args)
| TRun (l : nat) (a : args)
| TErr (k : key) (e : exn)
| TWarn (m : string)
| TRan (t : nat).

#[global] Instance ev_eq_dec : EqDecision ev.
Proof. solve_decision. Defined.

(** ** State *)

(** All state reachable from one bus and the disposables around it.
    [w_events] is [_events], mapping a key to the set object holding its
    listeners, [w_sets] the heap of set objects, [w_firing] is [_firing],
    [w_disposed] is [_disposed], [w_sync] is [_sync]; [w_queue] is the
    microtask queue, [w_wraps] binds each [once] wrapper to the handle in
    its [disposable] constant, [w_next] hands out object identities, and
    [w_trace] lists the observable events, newest first. *)
Record world := mkW {
  w_events : gmap string nat;
  w_sets : gmap nat (list fnv);
  w_firing : gset string;
  w_disposed : bool;
  w_sync : bool;
  w_queue : list task;
  w_handles : gmap nat handle;
  w_wraps : gmap nat nat;
  w_stores : gmap nat store;
  w_next : nat;
  w_trace : list ev }.

Definition set_events m w := mkW (m (w_events w)) (w_sets w) (w_firing w)
  (w_disposed w) (w_sync w) (w_queue w) (w_handles w) (w_wraps w)
  (w_stores w) (w_next w) (w_trace w).
Definition set_sets m w := mkW (w_events w) (m (w_sets w)) (w_firing w)
  (w_disposed w) (w_sync w) (w_queue w) (w_handles w) (w_wraps w)
  (w_stores w) (w_next w) (w_trace w).
Definition set_firing m w := mkW (w_events w) (w_sets w) (m (w_firing w))
  (w_disposed w) (w_sync w) (w_queue w) (w_handles w) (w_wraps w)
  (w_stores w) (w_next w) (w_trace w).
Definition set_disposed (b : bool) w := mkW (w_events w) (w_sets w)
  (w_firing w) b (w_sync w) (w_queue w) (w_handles w) (w_wraps w)
  (w_stores w) (w_next w) (w_trace w).
Definition set_queue m w := mkW (w_events w) (w_sets w) (w_firing w)
  (w_disposed w) (w_sync w) (m (w_queue w)) (w_handles w) (w_wraps w)
  (w_stores w) (w_next w) (w_trace w).
Definition set_handles m w := mkW (w_events w) (w_sets w) (w_firing w)
  (w_disposed w) (w_sync w) (w_queue w) (m (w_handles w)) (w_wraps w)
  (w_stores w) (w_next w) (w_trace w).
Definition set_wraps m w := mkW (w_events w) (w_sets w) (w_firing w)
  (w_disposed w) (w_sync w) (w_queue w) (w_handles w) (m (w_wraps w))
  (w_stores w) (w_next w) (w_trace w).
Definition set_stores m w := mkW (w_events w) (w_sets w) (w_firing w)
  (w_disposed w) (w_sync w) (w_queue w) (w_handles w) (w_wraps w)
  (m (w_stores w)) (w_next w) (w_trace w).
Definition bump_next w := mkW (w_events w) (w_sets w) (w_firing w)
  (w_disposed w) (w_sync w) (w_queue w) (w_handles w) (w_wraps w)
  (w_stores w) (S (w_next w)) (w_trace w).
Definition log_ev e w := mkW (w_events w) (w_sets w) (w_firing w)
  (w_disposed w) (w_sync w) (w_queue w) (w_handles w) (w_wraps w)
  (w_stores w) (w_next w) (e :: w_trace w).

Arguments set_events _ _ /.
Arguments set_sets _ _ /.
Arguments set_firing _ _ /.
Arguments set_disposed _ _ /.
Arguments set_queue _ _ /.
Arguments set_handles _ _ /.
Arguments set_wraps _ _ /.
Arguments set_stores _ _ /.
Arguments bump_next _ /.
Arguments log_ev _ _ /.

(** [new EventBus(options)]: nothing registered, nothing firing. *)
Definition new_bus (sync : bool) : world :=
  mkW ∅ ∅ ∅ false sync [] ∅ ∅ ∅ 0 [].

(** ** The state-and-error monad *)

(** [OutOfFuel] only marks that the interpreter below ran out of its
    recursion budget; it is not a JavaScript value and nothing catches it. *)
Inductive res (A : Type) :=
| Ok (a : A)
| Err (e : exn)
| OutOfFuel.
Arguments Ok {A} a.
Arguments Err {A} e.
Arguments OutOfFuel {A}.

Definition M (A : Type) : Type := world -> res A * world.

#[global] Instance M_ret : MRet M := fun A a w => (Ok a, w).
#[global] Instance M_bind : MBind M := fun A B k m w =>
  match m w with
  | (Ok a, w') => k a w'
  | (Err e, w') => (Err e, w')
  | (OutOfFuel, w') => (OutOfFuel, w')
  end.

Definition throw {A} (e : exn) : M A := fun w => (Err e, w).
Definition out_of_fuel {A} : M A := fun w => (OutOfFuel, w).
Definition get : M world := fun w => (Ok w, w).
Definition modify (m : world -> world) : M unit := fun w => (Ok tt, m w).
Definition tell (e : ev) : M unit := modify (log_ev e).
Definition fresh : M nat := fun w => (Ok (w_next w), bump_next w).

(** [try { m } catch (e) { h(e) }] *)
Definition catch (m : M unit) (h : exn -> M unit) : M unit := fun w =>
  match m w with
  | (Err e, w') => h e w'
  | r => r
  end.

(** [try { m } finally { fin }] *)
Definition try_finally {A} (m : M A) (fin : M unit) : M A := fun w =>
  match m w with
  | (OutOfFuel, w') => (OutOfFuel, w')
  | (r, w') =>
      match fin w' with
      | (Ok _, w'') => (r, w'')
      | (Err e, w'') => (Err e, w'')
      | (OutOfFuel, w'') => (OutOfFuel, w'')
      end
  end.

(** ** JavaScript [Set] operations on insertion-ordered lists *)

Definition js_set_add {A} `{EqDecision A} (x : A) (l : list A) : list A :=
  if decide (x ∈ l) then l else l ++ [x].

Definition js_set_delete {A} `{EqDecision A} (x : A) (l : list A) : list A :=
  filter (fun y => y <> x) l.

(** ** Messages *)

Definition dq : string := String (Ascii.ascii_of_nat 34) EmptyString.

Definition msg_disposed := "EventBus has been disposed".
Definition msg_recursive (k : key) : string :=
  String.append "Recursive emit detected for event "
    (String.append dq (String.append k dq)).
Definition msg_fd_twice :=
  "Trying to dispose a disposed disposable. This is probably a bug.".
Definition msg_self := "Cannot register a disposable on itself!".
Definition msg_store_add :=
  "Trying to add a disposable to a disposed store. This is probably a bug.".
Definition msg_store_twice :=
  "Trying to dispose a disposed store. This is probably a bug.".

Local Close Scope string_scope.

(** ** [lifecycle.ts] *)

(** Running [this._fn()]. *)
Definition run_cleanup (c : cleanup) : M unit :=
  match c with
  | CDelete r f => modify (set_sets (alter (js_set_delete f) r))
  | CUser t b => tell (TRan t) ;; (if b then throw UserThrow else mret tt)
  end.

(** [FunctionDisposable.dispose] on the object [h].  The [!this._fn] guard
    is not modelled: [toDisposable] is only ever given a function. *)
Definition fd_dispose (h : nat) : M unit :=
  w ← get;
  match w_handles w !! h with
  | None => mret tt
  | Some hd =>
      if h_disposed hd then tell (TWarn msg_fd_twice)
      else (run_cleanup (h_fn hd) ;;
            modify (set_handles (<[h := mkH true (h_fn hd)]>)))
  end.

(** [toDisposable(fn)] for a user clean-up function. *)
Definition toDisposable (t : nat) (throws : bool) : M nat :=
  h ← fresh;
  modify (set_handles (<[h := mkH false (CUser t throws)]>)) ;;
  mret h.

(** [new DisposableStore()] *)
Definition new_store : M nat :=
  s ← fresh;
  modify (set_stores (<[s := mkS [] false]>)) ;;
  mret s.

Fixpoint forEach {A} (l : list A) (f : A -> M unit) : M unit :=
  match l with
  | [] => mret tt
  | x :: l' => f x ;; forEach l' f
  end.

(** [DisposableStore.dispose] on the object [s], releasing each held item
    with [disp].  [forEach] runs over the items held when the loop starts:
    JavaScript's [Set.forEach] also visits items added during the loop, but
    no release performed here adds to a store. *)
Definition store_dispose_with (disp : dref -> M unit) (s : nat) : M unit :=
  w ← get;
  match w_stores w !! s with
  | None => mret tt
  | Some st =>
      if s_disposed st then tell (TWarn msg_store_twice)
      else (forEach (s_items st) disp ;;
            modify (set_stores (<[s := mkS [] true]>)))
  end.

(** [d.dispose()] for any disposable, with a budget [n] for the nesting of
    stores inside stores. *)
Fixpoint dispose_ref (n : nat) (d : dref) : M unit :=
  match n with
  | 0 => out_of_fuel
  | S n' =>
      match d with
      | DH h => fd_dispose h
      | DS s => store_dispose_with (dispose_ref n') s
      end
  end.

Definition store_dispose (n : nat) (s : nat) : M unit := dispose_ref (S n) (DS s).

(** [DisposableStore.add(d)] on the object [s]. *)
Definition store_add (n : nat) (s : nat) (d : dref) : M dref :=
  if decide (d = DS s) then throw (JSError msg_self)
  else
    w ← get;
    match w_stores w !! s with
    | None => mret d
    | Some st =>
        if s_disposed st
        then (tell (TWarn msg_store_add) ;; dispose_ref n d ;; mret d)
        else (modify (set_stores (<[s := mkS (js_set_add d (s_items st))
                                             (s_disposed st)]>)) ;;
              mret d)
    end.

(** ** [event.ts] *)

(** [_checkDisposed] *)
Definition checkDisposed : M unit :=
  w ← get;
  if w_disposed w then throw (JSError msg_disposed) else mret tt.

(** [on(event, listener)]: returns the handle object. *)
Definition on (k : key) (f : fnv) : M nat :=
  checkDisposed ;;
  w ← get;
  r ← match w_events w !! k with
      | Some r => mret r
      | None =>
          r ← fresh;
          modify (set_sets (<[r := []]>)) ;;
          modify (set_events (<[k := r]>)) ;;
          mret r
      end;
  modify (set_sets (alter (js_set_add f) r)) ;;
  h ← fresh;
  modify (set_handles (<[h := mkH false (CDelete r f)]>)) ;;
  mret h.

(** [once(event, listener)]: the [wrapper] closure [u] is created first
    (function declarations are hoisted), then registered; afterwards its
    [disposable] constant holds the handle. *)
Definition once (k : key) (l : nat) : M nat :=
  u ← fresh;
  h ← on k (FWrap l u);
  modify (set_wraps (<[u := h]>)) ;;
  mret h.

(** [scoped(event, listener, scope)] *)
Definition scoped (n : nat) (k : key) (f : fnv) (s : nat) : M unit :=
  h ← on k f;
  store_add n s (DH h) ;;
  mret tt.

(** The [for ... of snapshot] loop of [invoke]. *)
Fixpoint invoke_loop (callf : fnv -> args -> M unit) (k : key)
    (snapshot : list fnv) (a : args) : M unit :=
  match snapshot with
  | [] => mret tt
  | f :: fs =>
      tell (TCall k f a) ;;
      catch (callf f a) (fun e => tell (TErr k e)) ;;
      invoke_loop callf k fs a
  end.

(** The [invoke] closure built by [emit]. *)
Definition invoke (callf : fnv -> args -> M unit) (k : key)
    (snapshot : list fnv) (a : args) : M unit :=
  modify (set_firing (fun s => {[k]} ∪ s)) ;;
  try_finally (invoke_loop callf k snapshot a)
    (modify (set_firing (fun s => s ∖ {[k]}))).

(** [emit(event, ...args)]; [callf] calls a listener. *)
Definition emit (callf : fnv -> args -> M unit) (k : key) (a : args) : M unit :=
  checkDisposed ;;
  w ← get;
  if decide (k ∈ w_firing w) then tell (TWarn (msg_recursive k))
  else
    match w_events w !! k with
    | None => mret tt
    | Some r =>
        match default [] (w_sets w !! r) with
        | [] => mret tt
        | snapshot =>
            if w_sync w then invoke callf k snapshot a
            else modify (set_queue (fun q => q ++ [mkT k snapshot a]))
        end
    end.

(** The truthiness test [if (event)] on an optional string key: [undefined]
    and [""] are falsy. *)
Definition js_truthy_key (ok : option key) : option key :=
  match ok with
  | Some k => if decide (k = ""%string) then None else Some k
  | None => None
  end.

(** [dispose(event?)] *)
Definition dispose (ok : option key) : M unit :=
  checkDisposed ;;
  match js_truthy_key ok with
  | Some k => modify (set_events (delete k))
  | None => modify (set_events (fun _ => ∅)) ;; modify (set_disposed true)
  end.

(** ** Listeners and the top level *)

(** What a listener body does, one statement at a time: call [emit], [on],
    [once], a handle's [dispose] or the bus's [dispose] (the handle and the
    set objects are named by their identities), or throw. *)
Inductive cmd :=
| CEmit (k : key) (a : args)
| COn (k : key) (l : nat)
| COnce (k : key) (l : nat)
| CDisposeHandle (h : nat)
| CDispose (ok : option key)
| CThrow.

Definition exec_cmd (callf : fnv -> args -> M unit) (c : cmd) : M unit :=
  match c with
  | CEmit k a => emit callf k a
  | COn k l => on k (FUser l) ;; mret tt
  | COnce k l => once k l ;; mret tt
  | CDisposeHandle h => fd_dispose h
  | CDispose ok => dispose ok
  | CThrow => throw UserThrow
  end.

Fixpoint exec_cmds (callf : fnv -> args -> M unit) (cs : list cmd) : M unit :=
  match cs with
  | [] => mret tt
  | c :: cs' => exec_cmd callf c ;; exec_cmds callf cs'
  end.

Section Listeners.

(** The body of the user's listener [l] when called with [a]. *)
Variable body : nat -> args -> list cmd.

(** Calling a function value found in a snapshot, with a budget [n] for the
    nesting of listener calls.  [FWrap l u] is [wrapper]:
    [listener(...args); disposable.dispose()]. *)
Fixpoint call (n : nat) (f : fnv) (a : args) : M unit :=
  match n with
  | 0 => out_of_fuel
  | S n' =>
      match f with
      | FUser l => tell (TRun l a) ;; exec_cmds (call n') (body l a)
      | FWrap l u =>
          call n' (FUser l) a ;;
          w ← get;
          match w_wraps w !! u with
          | Some h => fd_dispose h
          | None => mret tt
          end
      end
  end.

(** The microtask checkpoint: queued [invoke] closures run in FIFO order,
    each to completion; [m] bounds the number of tasks run. *)
Fixpoint drain (m n : nat) : M unit :=
  match m with
  | 0 => out_of_fuel
  | S m' =>
      w ← get;
      match w_queue w with
      | [] => mret tt
      | t :: q =>
          modify (set_queue (fun _ => q)) ;;
          invoke (call n) (t_key t) (t_snap t) (t_args t) ;;
          drain m' n
      end
  end.

(** A synchronous top-level script, then the microtasks it queued. *)
Definition run_top (n : nat) (cs : list cmd) : M unit :=
  exec_cmds (call n) cs ;; drain n n.

End Listeners.

(** The trace in chronological order. *)
Definition trace_of (p : res unit * world) : list ev := reverse (w_trace p.2).

(** The runs of the user's listener [l]: the argument tuples it received. *)
Definition runs_of (l : nat) (t : list ev) : list args :=
  omap (fun e => match e with TRun l' a => if decide (l' = l) then Some a else None
                             | _ => None end) t.

(** A listener that does nothing observable but run. *)
Definition quiet_body : nat -> args -> list cmd := fun _ _ => [].

Example ex_sync_on_emit :
  runs_of 0 (trace_of (run_top quiet_body 10 [COn "foo"%string 0; CEmit "foo"%string [1%Z]]
                (new_bus true))) = [[1%Z]].
Proof. vm_compute. reflexivity. Qed.

Example ex_sync_once_twice :
  runs_of 0 (trace_of (run_top quiet_body 10
     [COnce "foo"%string 0; CEmit "foo"%string [1%Z]; CEmit "foo"%string [2%Z]] (new_bus true)))
  = [[1%Z]].
Proof. vm_compute. reflexivity. Qed.

(** * Invariants of every operation *)

(** [e] is not an event of a dispatch of key [k]. *)
Definition not_kev (k : key) (e : ev) : Prop :=
  match e with
  | TCall k' _ _ | TErr k' _ => k' <> k
  | _ => True
  end.

(** What every operation, listener call included, keeps: a fully disposed
    bus stays disposed, no key leaves the firing set, and the trace only
    grows. *)
Definition W (w w' : world) : Prop :=
  (w_disposed w = true -> w_disposed w' = true) /\
  w_firing w ⊆ w_firing w' /\
  exists ext, w_trace w' = ext ++ w_trace w.

(** And while [k] is firing, nothing dispatches [k]. *)
Definition Inv (k : key) (w w' : world) : Prop :=
  W w w' /\
  (k ∈ w_firing w -> forall ext, w_trace w' = ext ++ w_trace w ->
                      Forall (not_kev k) ext).

Definition pres_from {A} (R : world -> world -> Prop) (w : world) (m : M A) :=
  forall r w', m w = (r, w') -> R w w'.

Definition pres {A} (R : world -> world -> Prop) (m : M A) :=
  forall w, pres_from R w m.

Lemma W_refl w : W w w.
Proof. split; [auto|split; [set_solver|exists []; reflexivity]]. Qed.

Lemma W_trans w1 w2 w3 : W w1 w2 -> W w2 w3 -> W w1 w3.
Proof.
  intros (D1 & F1 & e1 & T1) (D2 & F2 & e2 & T2).
  split; [auto|split; [set_solver|]].
  exists (e2 ++ e1). rewrite T2, T1. apply app_assoc.
Qed.

Lemma Inv_W k w w' : Inv k w w' -> W w w'.
Proof. intros [H _]. exact H. Qed.

Lemma Inv_refl k w : Inv k w w.
Proof.
  split; [apply W_refl|]. intros _ ext H.
  assert (ext = []) as -> by (apply (app_inv_tail (w_trace w)); done).
  constructor.
Qed.

Lemma Inv_trans k w1 w2 w3 : Inv k w1 w2 -> Inv k w2 w3 -> Inv k w1 w3.
Proof.
  intros [HW1 HK1] [HW2 HK2]. split; [eapply W_trans; eauto|].
  intros Hk ext Hext.
  destruct HW1 as (_ & F1 & e1 & T1).
  destruct HW2 as (_ & _ & e2 & T2).
  rewrite T2, T1, app_assoc in Hext.
  apply app_inv_tail in Hext. subst ext.
  apply Forall_app; split.
  - apply HK2; [set_solver|]. rewrite T2, T1. reflexivity.
  - apply HK1; [done|]. done.
Qed.

(** A step that leaves the firing set, the trace and a set disposed flag
    alone. *)
Lemma Inv_frame k w w' :
  (w_disposed w = true -> w_disposed w' = true) ->
  w_firing w' = w_firing w -> w_trace w' = w_trace w -> Inv k w w'.
Proof.
  intros HD HF HT. split; [split; [done|split; [rewrite HF; set_solver|]]|].
  - exists []. rewrite HT. reflexivity.
  - intros _ ext H. rewrite HT in H.
    assert (ext = []) as -> by (apply (app_inv_tail (w_trace w)); done).
    constructor.
Qed.

Lemma Inv_log k w e : (k ∈ w_firing w -> not_kev k e) -> Inv k w (log_ev e w).
Proof.
  intros He. split; [split; [done|split; [simpl; set_solver|exists [e]; reflexivity]]|].
  intros Hk ext H. simpl in H.
  assert (ext = [e]) as -> by (apply (app_inv_tail (w_trace w)); done).
  constructor; [auto|constructor].
Qed.

#[global] Instance Inv_preorder k : PreOrder (Inv k).
Proof. split; [intros w; apply Inv_refl|intros ???; apply Inv_trans]. Qed.

#[global] Instance W_preorder : PreOrder W.
Proof. split; [intros w; apply W_refl|intros ???; apply W_trans]. Qed.

Lemma W_log w e : W w (log_ev e w).
Proof. split; [done|split; [simpl; set_solver|exists [e]; reflexivity]]. Qed.

Section Pres.

Context {R : world -> world -> Prop} `{!PreOrder R}.

Let R_refl w : R w w.
Proof. reflexivity. Qed.
Let R_trans w1 w2 w3 : R w1 w2 -> R w2 w3 -> R w1 w3.
Proof. intros; etransitivity; eauto. Qed.

Lemma pres_ret {A} (a : A) : pres R (mret a).
Proof. intros w r w' H. inversion H; subst. apply R_refl. Qed.

Lemma pres_throw {A} e : pres R (@throw A e).
Proof. intros w r w' H. inversion H; subst. apply R_refl. Qed.

Lemma pres_fuel {A} : pres R (@out_of_fuel A).
Proof. intros w r w' H. inversion H; subst. apply R_refl. Qed.

Lemma pres_from_bind {A B} w (m : M A) (f : A -> M B) :
  pres_from R w m ->
  (forall a w1, m w = (Ok a, w1) -> pres_from R w1 (f a)) ->
  pres_from R w (m ≫= f).
Proof.
  intros Hm Hf r w' H. unfold mbind, M_bind in H.
  destruct (m w) as [[a|e|] w1] eqn:E.
  - eapply R_trans; [eapply Hm; exact E|]. eapply Hf; eauto.
  - inversion H; subst. eapply Hm; exact E.
  - inversion H; subst. eapply Hm; exact E.
Qed.

Lemma pres_bind {A B} (m : M A) (f : A -> M B) :
  pres R m -> (forall a, pres R (f a)) -> pres R (m ≫= f).
Proof. intros Hm Hf w. apply pres_from_bind; [apply Hm|intros; apply Hf]. Qed.

Lemma pres_get_bind {B} (f : world -> M B) :
  (forall w, pres_from R w (f w)) -> pres R (get ≫= f).
Proof.
  intros Hf w. apply pres_from_bind; [intros r w' H; inversion H; subst; apply R_refl|].
  intros a w1 H. inversion H; subst. apply Hf.
Qed.

Lemma pres_modify m : (forall w, R w (m w)) -> pres R (modify m).
Proof. intros Hm w r w' H. inversion H; subst. apply Hm. Qed.

Lemma pres_fresh : (forall w, R w (bump_next w)) -> pres R fresh.
Proof. intros Hm w r w' H. inversion H; subst. apply Hm. Qed.

Lemma pres_catch m h : pres R m -> (forall e, pres R (h e)) -> pres R (catch m h).
Proof.
  intros Hm Hh w r w' H. unfold catch in H.
  destruct (m w) as [[a|e|] w1] eqn:E.
  - inversion H; subst. eapply Hm; exact E.
  - eapply R_trans; [eapply Hm; exact E|]. eapply Hh; exact H.
  - inversion H; subst. eapply Hm; exact E.
Qed.

Lemma pres_forEach {A} (l : list A) (f : A -> M unit) :
  (forall x, pres R (f x)) -> pres R (forEach l f).
Proof.
  intros Hf. induction l as [|x l IH]; simpl.
  - apply pres_ret.
  - apply pres_bind; [apply Hf|intros; apply IH].
Qed.

End Pres.

Ltac frame_inv := intros ?; apply Inv_frame; simpl; auto.

Lemma inv_tell k e : not_kev k e -> pres (Inv k) (tell e).
Proof. intros He. apply pres_modify. intros w. apply Inv_log. auto. Qed.

Lemma inv_checkDisposed k : pres (Inv k) checkDisposed.
Proof.
  unfold checkDisposed. apply pres_get_bind. intros w.
  destruct (w_disposed w); [apply pres_throw|apply pres_ret].
Qed.

Lemma inv_fresh k : pres (Inv k) fresh.
Proof. apply pres_fresh. frame_inv. Qed.

Lemma inv_run_cleanup k c : pres (Inv k) (run_cleanup c).
Proof.
  destruct c as [r f|t b]; simpl.
  - apply pres_modify. frame_inv.
  - apply pres_bind; [apply inv_tell; exact I|intros _].
    destruct b; [apply pres_throw|apply pres_ret].
Qed.

Lemma inv_fd_dispose k h : pres (Inv k) (fd_dispose h).
Proof.
  unfold fd_dispose. apply pres_get_bind. intros w.
  destruct (w_handles w !! h) as [hd|]; [|apply pres_ret].
  destruct (h_disposed hd); [apply inv_tell; exact I|].
  apply pres_bind; [apply inv_run_cleanup|intros _].
  apply pres_modify. frame_inv.
Qed.

Lemma inv_on k k' f : pres (Inv k) (on k' f).
Proof.
  unfold on. apply pres_bind; [apply inv_checkDisposed|intros _].
  apply pres_get_bind. intros w.
  apply pres_from_bind.
  - destruct (w_events w !! k') as [r|]; [apply pres_ret|].
    apply pres_bind; [apply inv_fresh|intros r].
    apply pres_bind; [apply pres_modify; frame_inv|intros _].
    apply pres_bind; [apply pres_modify; frame_inv|intros _].
    apply pres_ret.
  - intros r w1 _.
    apply pres_bind; [apply pres_modify; frame_inv|intros _].
    apply pres_bind; [apply inv_fresh|intros h].
    apply pres_bind; [apply pres_modify; frame_inv|intros _].
    apply pres_ret.
Qed.

Lemma inv_once k k' l : pres (Inv k) (once k' l).
Proof.
  unfold once. apply pres_bind; [apply inv_fresh|intros u].
  apply pres_bind; [apply inv_on|intros h].
  apply pres_bind; [apply pres_modify; frame_inv|intros _].
  apply pres_ret.
Qed.

Lemma inv_dispose k ok : pres (Inv k) (dispose ok).
Proof.
  unfold dispose. apply pres_bind; [apply inv_checkDisposed|intros _].
  destruct (js_truthy_key ok).
  - apply pres_modify. frame_inv.
  - apply pres_bind; [apply pres_modify; frame_inv|intros _].
    apply pres_modify. frame_inv.
Qed.

Lemma inv_dispose_ref k n d : pres (Inv k) (dispose_ref n d).
Proof.
  revert d. induction n as [|n IH]; intros d; simpl; [apply pres_fuel|].
  destruct d as [h|s]; [apply inv_fd_dispose|].
  unfold store_dispose_with. apply pres_get_bind. intros w.
  destruct (w_stores w !! s) as [st|]; [|apply pres_ret].
  destruct (s_disposed st); [apply inv_tell; exact I|].
  apply pres_bind; [apply pres_forEach; intros x; apply IH|intros _].
  apply pres_modify. frame_inv.
Qed.

Lemma inv_store_add k n s d : pres (Inv k) (store_add n s d).
Proof.
  unfold store_add. destruct (decide (d = DS s)); [apply pres_throw|].
  apply pres_get_bind. intros w.
  destruct (w_stores w !! s) as [st|]; [|apply pres_ret].
  destruct (s_disposed st).
  - apply pres_bind; [apply inv_tell; exact I|intros _].
    apply pres_bind; [apply inv_dispose_ref|intros _]. apply pres_ret.
  - apply pres_bind; [apply pres_modify; frame_inv|intros _]. apply pres_ret.
Qed.

Section Dispatch.

Variable callf : fnv -> args -> M unit.
Hypothesis callf_inv : forall k f a, pres (Inv k) (callf f a).

Lemma invoke_loop_W j snap a : pres W (invoke_loop callf j snap a).
Proof.
  induction snap as [|f fs IH]; simpl; [apply pres_ret|].
  apply pres_bind; [apply pres_modify; intros; apply W_log|intros _].
  apply pres_bind; [|intros _; apply IH].
  apply pres_catch.
  - intros w r w' H. eapply Inv_W. eapply (callf_inv j). exact H.
  - intros e. apply pres_modify. intros; apply W_log.
Qed.

Lemma invoke_loop_inv k j snap a : j <> k -> pres (Inv k) (invoke_loop callf j snap a).
Proof.
  intros Hjk. induction snap as [|f fs IH]; simpl; [apply pres_ret|].
  apply pres_bind; [apply inv_tell; simpl; auto|intros _].
  apply pres_bind; [|intros _; apply IH].
  apply pres_catch; [apply callf_inv|].
  intros e. apply inv_tell. simpl. auto.
Qed.

Lemma invoke_inv k j snap a w :
  j ∉ w_firing w -> pres_from (Inv k) w (invoke callf j snap a).
Proof.
  intros Hj r w' H. unfold invoke, mbind, M_bind, modify, try_finally in H.
  set (w1 := set_firing (fun s => {[j]} ∪ s) w) in H.
  destruct (invoke_loop callf j snap a w1) as [r2 w2] eqn:E.
  assert (HW : W w1 w2) by (eapply invoke_loop_W; exact E).
  assert (HK : k ∈ w_firing w -> Inv k w1 w2).
  { intros Hk. eapply invoke_loop_inv; [|exact E]. set_solver. }
  assert (Hw' : w_disposed w' = w_disposed w2 /\ w_trace w' = w_trace w2 /\
                w_firing w2 ∖ {[j]} ⊆ w_firing w').
  { destruct r2; inversion H; subst; simpl; split_and!; auto; set_solver. }
  destruct HW as (HD & HF & ext & HT). destruct Hw' as (D' & T' & F').
  split; [split; [|split]|].
  - rewrite D'. intros Hd. apply HD. exact Hd.
  - simpl in HF. intros x Hx. apply F'. apply elem_of_difference. split.
    + apply HF. set_solver.
    + intros Hx'. apply elem_of_singleton in Hx'. subst. contradiction.
  - exists ext. rewrite T', HT. reflexivity.
  - intros Hk ext' Hext'. destruct (HK Hk) as [_ HK2].
    apply HK2; [simpl; set_solver|]. rewrite <- T'. exact Hext'.
Qed.

Lemma inv_emit k j a : pres (Inv k) (emit callf j a).
Proof.
  unfold emit. apply pres_bind; [apply inv_checkDisposed|intros _].
  apply pres_get_bind. intros w.
  destruct (decide (j ∈ w_firing w)) as [Hj|Hj]; [apply inv_tell; exact I|].
  destruct (w_events w !! j) as [r|]; [|apply pres_ret].
  destruct (default [] (w_sets w !! r)) as [|f fs]; [apply pres_ret|].
  destruct (w_sync w); [apply invoke_inv; exact Hj|].
  apply pres_modify. frame_inv.
Qed.

Lemma inv_exec_cmds k cs : pres (Inv k) (exec_cmds callf cs).
Proof.
  induction cs as [|c cs IH]; simpl; [apply pres_ret|].
  apply pres_bind; [|intros _; apply IH].
  destruct c; simpl.
  - apply inv_emit.
  - apply pres_bind; [apply inv_on|intros _; apply pres_ret].
  - apply pres_bind; [apply inv_once|intros _; apply pres_ret].
  - apply inv_fd_dispose.
  - apply inv_dispose.
  - apply pres_throw.
Qed.

End Dispatch.

Lemma inv_call body n : forall k f a, pres (Inv k) (call body n f a).
Proof.
  induction n as [|n IH]; intros k f a; simpl; [apply pres_fuel|].
  destruct f as [l|l u].
  - apply pres_bind; [apply inv_tell; exact I|intros _].
    apply inv_exec_cmds. exact IH.
  - apply pres_bind; [apply IH|intros _].
    apply pres_get_bind. intros w.
    destruct (w_wraps w !! u); [apply inv_fd_dispose|apply pres_ret].
Qed.

(** * Observing one dispatch *)

Definition kev_b (k : key) (e : ev) : bool :=
  match e with
  | TCall k' _ _ | TErr k' _ => bool_decide (k' = k)
  | _ => false
  end.

(** The events of the dispatches of [k] in a chronological trace. *)
Definition kevents (k : key) (t : list ev) : list ev :=
  filter (fun e => kev_b k e = true) t.

(** The listeners called by dispatches of [k], with their arguments. *)
Definition kcalls (k : key) (t : list ev) : list (fnv * args) :=
  omap (fun e => match e with
                 | TCall k' f a => if decide (k' = k) then Some (f, a) else None
                 | _ => None end) t.

(** The listener's registered state: the snapshot [emit] takes. *)
Definition collection (w : world) (k : key) : list fnv :=
  match w_events w !! k with
  | Some r => default [] (w_sets w !! r)
  | None => []
  end.

Definition outcome (o : option exn) : res unit :=
  match o with None => Ok tt | Some e => Err e end.

(** What the dispatch of [k] logs for the listener [f] that ended with [o]. *)
Definition report (k : key) (a : args) (f : fnv) (o : option exn) : list ev :=
  TCall k f a :: match o with None => [] | Some e => [TErr k e] end.

Lemma kevents_nil k l : Forall (not_kev k) l -> kevents k l = [].
Proof.
  induction 1 as [|e l He _ IH]; [reflexivity|].
  unfold kevents in *. rewrite filter_cons.
  destruct e; simpl in *; try exact IH;
    rewrite bool_decide_false by auto; simpl; exact IH.
Qed.

Lemma kevents_call k f a : kevents k (reverse [TCall k f a]) = [TCall k f a].
Proof.
  rewrite reverse_singleton. unfold kevents. rewrite filter_cons. simpl.
  rewrite bool_decide_true by reflexivity. reflexivity.
Qed.

Lemma kevents_err k e : kevents k (reverse [TErr k e]) = [TErr k e].
Proof.
  rewrite reverse_singleton. unfold kevents. rewrite filter_cons. simpl.
  rewrite bool_decide_true by reflexivity. reflexivity.
Qed.

Lemma kevents_app k l1 l2 : kevents k (l1 ++ l2) = kevents k l1 ++ kevents k l2.
Proof. unfold kevents. apply filter_app. Qed.

Lemma kcalls_kevents k l : kcalls k (kevents k l) = kcalls k l.
Proof.
  induction l as [|e l IH]; [reflexivity|].
  unfold kevents in *. rewrite filter_cons.
  destruct e as [k' f a|l' a|k' e|m|t]; simpl; try exact IH.
  - unfold kev_b. destruct (decide (k' = k)) as [->|Hne].
    + rewrite bool_decide_true by reflexivity. simpl.
      rewrite decide_True by reflexivity. f_equal. exact IH.
    + rewrite bool_decide_false by exact Hne. exact IH.
  - destruct (bool_decide (k' = k)); simpl; exact IH.
Qed.

Lemma kcalls_report k a snap os :
  length os = length snap ->
  kcalls k (concat (zip_with (report k a) snap os)) = map (fun f => (f, a)) snap.
Proof.
  revert os. induction snap as [|f fs IH]; intros [|o os] Hl; simpl in *;
    try discriminate; [reflexivity|].
  rewrite decide_True by reflexivity. f_equal.
  destruct o; simpl; apply IH; lia.
Qed.

Section Dispatch2.

Variable callf : fnv -> args -> M unit.
Hypothesis callf_inv : forall k f a, pres (Inv k) (callf f a).

(** The loop of [invoke] for [k], run while [k] is firing, calls every
    element of the snapshot in order, logs each listener's thrown value and
    never throws itself. *)
Lemma invoke_loop_spec k snap a w1 r w2 :
  k ∈ w_firing w1 ->
  invoke_loop callf k snap a w1 = (r, w2) -> r <> OutOfFuel ->
  r = Ok tt /\ k ∈ w_firing w2 /\
  exists ext os,
    w_trace w2 = ext ++ w_trace w1 /\
    Forall2 (fun f o => exists wi wi', callf f a wi = (outcome o, wi')) snap os /\
    kevents k (reverse ext) = concat (zip_with (report k a) snap os).
Proof.
  revert w1. induction snap as [|f fs IH]; intros w1 Hk H Hr; simpl in H.
  - inversion H; subst. split; [reflexivity|split; [exact Hk|]].
    exists [], []. split; [reflexivity|split; [constructor|reflexivity]].
  - unfold mbind, M_bind, tell, modify, catch in H.
    set (w1' := log_ev (TCall k f a) w1) in H.
    destruct (callf f a w1') as [[[]|e|] wc] eqn:Ec.
    + destruct (IH wc) as (-> & Hk2 & ext & os & HT & HF & HE).
      { eapply (callf_inv k) in Ec. destruct Ec as [(_ & F & _) _]. apply F. exact Hk. }
      { exact H. }
      { exact Hr. }
      split; [reflexivity|split; [exact Hk2|]].
      pose proof (callf_inv k f a w1' _ _ Ec) as [(_ & _ & e1 & T1) K1].
      exists (ext ++ e1 ++ [TCall k f a]), (None :: os).
      split; [rewrite HT, T1; simpl; rewrite <- !app_assoc; reflexivity|].
      split; [constructor; [exists w1', wc; exact Ec|exact HF]|].
      rewrite !reverse_app, !kevents_app, HE.
      rewrite (kevents_nil k (reverse e1)).
      * rewrite kevents_call. reflexivity.
      * apply Forall_reverse. apply K1; [exact Hk|exact T1].
    + set (we := log_ev (TErr k e) wc) in H.
      destruct (IH we) as (-> & Hk2 & ext & os & HT & HF & HE).
      { eapply (callf_inv k) in Ec. destruct Ec as [(_ & F & _) _]. apply F. exact Hk. }
      { exact H. }
      { exact Hr. }
      split; [reflexivity|split; [exact Hk2|]].
      pose proof (callf_inv k f a w1' _ _ Ec) as [(_ & _ & e1 & T1) K1].
      exists (ext ++ [TErr k e] ++ e1 ++ [TCall k f a]), (Some e :: os).
      split; [rewrite HT; simpl; rewrite T1; simpl;
              rewrite <- !app_assoc; simpl; rewrite <- !app_assoc; reflexivity|].
      split; [constructor; [exists w1', wc; exact Ec|exact HF]|].
      rewrite !reverse_app, !kevents_app, HE.
      rewrite (kevents_nil k (reverse e1)).
      * rewrite kevents_call, kevents_err. reflexivity.
      * apply Forall_reverse. apply K1; [exact Hk|exact T1].
    + inversion H; subst. contradiction.
Qed.

(** [invoke] for a key that is not firing: the loop's guarantees, and the
    [finally] takes [k] out of the firing set again. *)
Lemma invoke_spec k snap a w r w' :
  k ∉ w_firing w ->
  invoke callf k snap a w = (r, w') -> r <> OutOfFuel ->
  r = Ok tt /\ (k ∉ w_firing w') /\ (w_firing w ⊆ w_firing w') /\
  exists ext os,
    w_trace w' = ext ++ w_trace w /\
    Forall2 (fun f o => exists wi wi', callf f a wi = (outcome o, wi')) snap os /\
    kevents k (reverse ext) = concat (zip_with (report k a) snap os).
Proof.
  intros Hk H Hr. unfold invoke, mbind, M_bind, modify, try_finally in H.
  set (w1 := set_firing (fun s => {[k]} ∪ s) w) in H.
  destruct (invoke_loop callf k snap a w1) as [r2 w2] eqn:E.
  assert (Hr2 : r2 <> OutOfFuel) by (destruct r2; inversion H; subst; congruence).
  destruct (invoke_loop_spec k snap a w1 r2 w2) as (-> & Hk2 & ext & os & HT & HF & HE);
    [simpl; set_solver|exact E|exact Hr2|].
  pose proof (invoke_loop_W callf callf_inv k snap a w1 _ _ E) as (_ & HFw & _).
  inversion H; subst. simpl.
  split; [reflexivity|split; [set_solver|split]].
  - intros x Hx. apply elem_of_difference. split.
    + apply HFw. simpl. set_solver.
    + intros Hx'. apply elem_of_singleton in Hx'. subst. contradiction.
  - exists ext, os. split; [exact HT|split; [exact HF|exact HE]].
Qed.

End Dispatch2.

(** [emit] on a live bus for a key that is not firing. *)
Lemma emit_live callf k a w :
  w_disposed w = false -> k ∉ w_firing w ->
  emit callf k a w =
  (match collection w k with
   | [] => mret tt
   | snapshot =>
       if w_sync w then invoke callf k snapshot a
       else modify (set_queue (fun q => q ++ [mkT k snapshot a]))
   end) w.
Proof.
  intros Hd Hk. unfold emit, checkDisposed, collection, mbind, M_bind, get. simpl.
  rewrite Hd. simpl. rewrite decide_False by exact Hk.
  destruct (w_events w !! k); reflexivity.
Qed.

(** [emit] while its key is firing. *)
Lemma emit_firing callf k a w :
  w_disposed w = false -> k ∈ w_firing w ->
  emit callf k a w = (Ok tt, log_ev (TWarn (msg_recursive k)) w).
Proof.
  intros Hd Hk. unfold emit, checkDisposed, mbind, M_bind, mret, M_ret, get.
  rewrite Hd. cbv beta iota. rewrite decide_True by exact Hk. reflexivity.
Qed.

(** [emit] on a fully disposed bus. *)
Lemma emit_disposed callf k a w :
  w_disposed w = true -> emit callf k a w = (Err (JSError msg_disposed), w).
Proof.
  intros Hd. unfold emit, checkDisposed, mbind, M_bind, get. simpl.
  rewrite Hd. reflexivity.
Qed.

Lemma call_inv_all body n : forall k f a, pres (Inv k) (call body n f a).
Proof. apply inv_call. Qed.

(** * C4: snapshot consistency *)

(** ** C4
    Every emission that reaches dispatch calls exactly the listeners of the
    snapshot taken from the key's collection, in insertion order, with the
    emitted arguments, whatever those listeners register or remove while it
    runs.  In synchronous mode the snapshot is the collection at the [emit]
    call and the dispatch runs inside it; in deferred mode [emit] queues the
    snapshot, and the queued unit, run whenever the key is not firing,
    calls exactly the queued snapshot. *)
Theorem emit_snapshot_consistency body n k a :
  (forall w r w',
     w_disposed w = false -> k ∉ w_firing w -> w_sync w = true ->
     emit (call body n) k a w = (r, w') -> r <> OutOfFuel ->
     exists ext, w_trace w' = ext ++ w_trace w /\
       kcalls k (reverse ext) = map (fun f => (f, a)) (collection w k)) /\
  (forall w,
     w_disposed w = false -> k ∉ w_firing w -> w_sync w = false ->
     collection w k <> [] ->
     emit (call body n) k a w =
       (Ok tt, set_queue (fun q => q ++ [mkT k (collection w k) a]) w)) /\
  (forall t w0 r w',
     t_key t ∉ w_firing w0 ->
     invoke (call body n) (t_key t) (t_snap t) (t_args t) w0 = (r, w') ->
     r <> OutOfFuel ->
     exists ext, w_trace w' = ext ++ w_trace w0 /\
       kcalls (t_key t) (reverse ext) = map (fun f => (f, t_args t)) (t_snap t)).
Proof.
  split; [|split].
  - intros w r w' Hd Hk Hs H Hr. rewrite emit_live in H by assumption.
    destruct (collection w k) as [|f fs] eqn:Ec.
    + inversion H; subst. exists []. split; reflexivity.
    + rewrite Hs in H.
      destruct (invoke_spec (call body n) (call_inv_all body n) k (f :: fs) a w r w')
        as (_ & _ & _ & ext & os & HT & HF & HE); [exact Hk|exact H|exact Hr|].
      exists ext. split; [exact HT|].
      rewrite <- kcalls_kevents, HE. apply kcalls_report.
      symmetry. eapply Forall2_length. exact HF.
  - intros w Hd Hk Hs Hne. rewrite emit_live by assumption.
    destruct (collection w k) as [|f fs]; [contradiction|]. rewrite Hs. reflexivity.
  - intros t w0 r w' Hk H Hr.
    destruct (invoke_spec (call body n) (call_inv_all body n) (t_key t) (t_snap t)
                (t_args t) w0 r w') as (_ & _ & _ & ext & os & HT & HF & HE);
      [exact Hk|exact H|exact Hr|].
    exists ext. split; [exact HT|].
    rewrite <- kcalls_kevents, HE. apply kcalls_report.
    symmetry. eapply Forall2_length. exact HF.
Qed.

(** * C5: failure isolation *)

(** What the [catch] of the loop leaves after a call that ended with [o]. *)
Definition caught (k : key) (o : option exn) (w : world) : world :=
  match o with None => w | Some e => log_ev (TErr k e) w end.

(** The run of the loop of [invoke] for [k] over [snapshot] from [w] to
    [w']: each element [f] in turn is called with [a] in the world where its
    [TCall] has just been logged, [o] is how that very call ended (normally,
    or throwing [e]), the [catch] logs a thrown value, and the next element
    is called after that. *)
Inductive dispatch_run (callf : fnv -> args -> M unit) (k : key) (a : args) :
    list fnv -> world -> list (option exn) -> world -> Prop :=
| dr_nil w : dispatch_run callf k a [] w [] w
| dr_cons f fs w o wc os w' :
    callf f a (log_ev (TCall k f a) w) = (outcome o, wc) ->
    dispatch_run callf k a fs (caught k o wc) os w' ->
    dispatch_run callf k a (f :: fs) w (o :: os) w'.

Lemma dispatch_run_length callf k a snap w os w' :
  dispatch_run callf k a snap w os w' -> length os = length snap.
Proof. induction 1; simpl; auto. Qed.

(** The loop, whatever [callf] does, is such a run and returns normally. *)
Lemma invoke_loop_run callf k snap a w1 r w2 :
  invoke_loop callf k snap a w1 = (r, w2) -> r <> OutOfFuel ->
  r = Ok tt /\ exists os, dispatch_run callf k a snap w1 os w2.
Proof.
  revert w1. induction snap as [|f fs IH]; intros w1 H Hr; simpl in H.
  - inversion H; subst. split; [reflexivity|]. exists []. constructor.
  - unfold mbind, M_bind, tell, modify, catch in H.
    destruct (callf f a (log_ev (TCall k f a) w1)) as [[[]|e|] wc] eqn:Ec.
    + destruct (IH wc H Hr) as (-> & os & Hos). split; [reflexivity|].
      exists (None :: os). econstructor; [exact Ec|exact Hos].
    + destruct (IH (log_ev (TErr k e) wc) H Hr) as (-> & os & Hos). split; [reflexivity|].
      exists (Some e :: os). econstructor; [exact Ec|exact Hos].
    + inversion H; subst. contradiction.
Qed.

Lemma invoke_run callf k snap a w r w' :
  invoke callf k snap a w = (r, w') -> r <> OutOfFuel ->
  r = Ok tt /\ exists os wl,
    dispatch_run callf k a snap (set_firing (fun s => {[k]} ∪ s) w) os wl /\
    w' = set_firing (fun s => s ∖ {[k]}) wl.
Proof.
  intros H Hr. unfold invoke, mbind, M_bind, modify, try_finally in H.
  destruct (invoke_loop callf k snap a (set_firing (fun s => {[k]} ∪ s) w)) as [r2 w2] eqn:E.
  assert (Hr2 : r2 <> OutOfFuel) by (destruct r2; inversion H; subst; congruence).
  destruct (invoke_loop_run callf k snap a _ r2 w2 E Hr2) as (-> & os & Hos).
  inversion H; subst. split; [reflexivity|]. exists os, w2. split; [exact Hos|reflexivity].
Qed.

Lemma firing_unmark_mark k w :
  k ∉ w_firing w ->
  set_firing (fun s => s ∖ {[k]}) (set_firing (fun s => {[k]} ∪ s) w) = w.
Proof.
  destruct w; simpl. intros Hk. f_equal. apply leibniz_equiv. set_solver.
Qed.

Section Dispatch3.

Variable callf : fnv -> args -> M unit.
Hypothesis callf_inv : forall k f a, pres (Inv k) (callf f a).

(** While [k] is firing, the events of dispatches of [k] that such a run
    logs are exactly each element's call, followed by its thrown value if
    it threw. *)
Lemma dispatch_run_kevents k snap a w1 os w2 :
  k ∈ w_firing w1 -> dispatch_run callf k a snap w1 os w2 ->
  k ∈ w_firing w2 /\ exists ext, w_trace w2 = ext ++ w_trace w1 /\
    kevents k (reverse ext) = concat (zip_with (report k a) snap os).
Proof.
  intros Hk Hr. induction Hr as [w|f fs w o wc os w' Ec Hr IH].
  - split; [exact Hk|]. exists []. split; reflexivity.
  - pose proof (callf_inv k f a _ _ _ Ec) as [(_ & F1 & e1 & T1) K1].
    assert (Hkc : k ∈ w_firing (caught k o wc))
      by (destruct o; simpl; apply F1; simpl; exact Hk).
    destruct (IH Hkc) as (Hk2 & ext & HT & HE).
    split; [exact Hk2|].
    assert (Hn : Forall (not_kev k) (reverse e1))
      by (apply Forall_reverse; apply K1; [exact Hk|exact T1]).
    destruct o as [e|]; simpl in HT.
    + exists (ext ++ [TErr k e] ++ e1 ++ [TCall k f a]).
      split; [rewrite HT, T1; simpl; rewrite <- !app_assoc; simpl;
              rewrite <- !app_assoc; reflexivity|].
      rewrite !reverse_app, !kevents_app, HE, (kevents_nil k (reverse e1) Hn).
      rewrite kevents_call, kevents_err. reflexivity.
    + exists (ext ++ e1 ++ [TCall k f a]).
      split; [rewrite HT, T1; simpl; rewrite <- !app_assoc; reflexivity|].
      rewrite !reverse_app, !kevents_app, HE, (kevents_nil k (reverse e1) Hn).
      rewrite kevents_call. reflexivity.
Qed.

End Dispatch3.

(** A dispatch of [k] over [snapshot] with [a] that went from [w] to [w']
    with result [r]: it returned normally and [k] is no longer firing; the
    listeners were called one after the other, each in the world the
    previous one left, [os] recording how each of these calls ended; a call
    that ended throwing [e], wherever in its body the throw happened, was
    followed by [console.error(e)] before the next listener was called; and
    in the trace the dispatch shows exactly each call followed by its logged
    error. *)
Definition isolated (callf : fnv -> args -> M unit) (k : key)
    (snapshot : list fnv) (a : args) (w w' : world) (r : res unit) : Prop :=
  r = Ok tt /\ (k ∉ w_firing w') /\
  exists os wl,
    dispatch_run callf k a snapshot (set_firing (fun s => {[k]} ∪ s) w) os wl /\
    w' = set_firing (fun s => s ∖ {[k]}) wl /\
    length os = length snapshot /\
    exists ext, w_trace w' = ext ++ w_trace w /\
      kevents k (reverse ext) = concat (zip_with (report k a) snapshot os).

Lemma invoke_isolated body n k snap a w r w' :
  k ∉ w_firing w -> invoke (call body n) k snap a w = (r, w') -> r <> OutOfFuel ->
  isolated (call body n) k snap a w w' r.
Proof.
  intros Hk H Hr.
  destruct (invoke_run (call body n) k snap a w r w' H Hr) as (-> & os & wl & Hos & ->).
  split; [reflexivity|split; [simpl; set_solver|]].
  exists os, wl. split; [exact Hos|split; [reflexivity|split; [eapply dispatch_run_length; exact Hos|]]].
  destruct (dispatch_run_kevents (call body n) (call_inv_all body n) k snap a
              (set_firing (fun s => {[k]} ∪ s) w) os wl)
    as (_ & ext & HT & HE); [simpl; set_solver|exact Hos|].
  exists ext. split; [simpl; exact HT|exact HE].
Qed.

(** ** C5
    In every emission, a listener that throws, at whatever point of its
    body, does not stop the later listeners of the snapshot, which still run
    in order with the same arguments, each from the world the previous one
    left; the thrown value is caught and logged with [console.error] right
    after that listener's call;
    the dispatch returns normally, so [emit] does not throw; and the key
    leaves the firing set.  Synchronously this all happens inside [emit];
    in deferred mode [emit] returns normally having logged nothing, and the
    queued unit does the same. *)
Theorem emit_failure_isolation body n k a :
  (forall w r w',
     w_disposed w = false -> k ∉ w_firing w -> w_sync w = true ->
     emit (call body n) k a w = (r, w') -> r <> OutOfFuel ->
     isolated (call body n) k (collection w k) a w w' r) /\
  (forall w,
     w_disposed w = false -> k ∉ w_firing w -> w_sync w = false ->
     fst (emit (call body n) k a w) = Ok tt /\
     w_trace (snd (emit (call body n) k a w)) = w_trace w) /\
  (forall t w0 r w',
     t_key t ∉ w_firing w0 ->
     invoke (call body n) (t_key t) (t_snap t) (t_args t) w0 = (r, w') ->
     r <> OutOfFuel ->
     isolated (call body n) (t_key t) (t_snap t) (t_args t) w0 w' r).
Proof.
  split; [|split].
  - intros w r w' Hd Hk Hs H Hr. rewrite emit_live in H by assumption.
    destruct (collection w k) as [|f fs] eqn:Ec.
    + inversion H; subst. split; [reflexivity|split; [exact Hk|]].
      exists [], (set_firing (fun s => {[k]} ∪ s) w').
      split; [constructor|split; [symmetry; apply firing_unmark_mark; exact Hk|split; [reflexivity|]]].
      exists []. split; reflexivity.
    + rewrite Hs in H. eapply invoke_isolated; eauto.
  - intros w Hd Hk Hs. rewrite emit_live by assumption.
    destruct (collection w k); [split; reflexivity|]. rewrite Hs. split; reflexivity.
  - intros t w0 r w' Hk H Hr. eapply invoke_isolated; eauto.
Qed.

(** * Disposal of the bus *)

Definition Dmono (w w' : world) : Prop := w_disposed w = true -> w_disposed w' = true.

#[global] Instance Dmono_preorder : PreOrder Dmono.
Proof. split; [intros w H; exact H|intros ??? H1 H2 H; auto]. Qed.

Lemma Dmono_of_Inv {A} k (m : M A) : pres (Inv k) m -> pres Dmono m.
Proof. intros Hm w r w' H. destruct (Hm w r w' H) as [(HD & _) _]. exact HD. Qed.

(** Unlike [Inv], this holds for [invoke] whatever the firing set. *)
Lemma invoke_Dmono callf j snap a :
  (forall k f a, pres (Inv k) (callf f a)) -> pres Dmono (invoke callf j snap a).
Proof.
  intros Hc w r w' H. unfold invoke, mbind, M_bind, modify, try_finally in H.
  set (w1 := set_firing (fun s => {[j]} ∪ s) w) in H.
  destruct (invoke_loop callf j snap a w1) as [r2 w2] eqn:E.
  pose proof (invoke_loop_W callf Hc j snap a w1 _ _ E) as (HD & _).
  intros Hd. destruct r2; inversion H; subst; simpl; apply HD; exact Hd.
Qed.

Lemma drain_Dmono body m n : pres Dmono (drain body m n).
Proof.
  induction m as [|m IH]; simpl; [apply pres_fuel|].
  apply pres_get_bind. intros w.
  destruct (w_queue w) as [|t q]; [apply pres_ret|].
  apply pres_bind; [apply pres_modify; intros w0 H; exact H|intros _].
  apply pres_bind; [apply invoke_Dmono; apply call_inv_all|intros _].
  apply IH.
Qed.

(** ** C6
    [dispose()] without a key clears every key's listeners and marks the bus
    fully disposed; on a fully disposed bus [on], [once], [emit] and
    [dispose] all throw [Error('EventBus has been disposed')], and no
    operation (a listener call, a script of calls, the microtask queue, the
    releases of stores and handles) ever makes the bus live again. *)
Theorem dispose_all_terminal :
  (forall w, w_disposed w = false ->
     dispose None w = (Ok tt, set_disposed true (set_events (fun _ => ∅) w))) /\
  (forall w, w_disposed w = true ->
     (forall k f, on k f w = (Err (JSError msg_disposed), w)) /\
     (forall k l, fst (once k l w) = Err (JSError msg_disposed)) /\
     (forall callf k a, emit callf k a w = (Err (JSError msg_disposed), w)) /\
     (forall ok, dispose ok w = (Err (JSError msg_disposed), w))) /\
  (forall body n cs w r w', w_disposed w = true ->
     exec_cmds (call body n) cs w = (r, w') -> w_disposed w' = true) /\
  (forall body m n w r w', w_disposed w = true ->
     drain body m n w = (r, w') -> w_disposed w' = true) /\
  (forall n d w r w', w_disposed w = true ->
     dispose_ref n d w = (r, w') -> w_disposed w' = true) /\
  (forall n s d w r w', w_disposed w = true ->
     store_add n s d w = (r, w') -> w_disposed w' = true).
Proof.
  split; [|split; [|split; [|split; [|split]]]].
  - intros w Hd. unfold dispose, checkDisposed, mbind, M_bind, get. simpl.
    rewrite Hd. reflexivity.
  - intros w Hd. split; [|split; [|split]].
    + intros k f. unfold on, checkDisposed, mbind, M_bind, get. simpl.
      rewrite Hd. reflexivity.
    + intros k l. unfold once, on, checkDisposed, mbind, M_bind, get, fresh. simpl.
      rewrite Hd. reflexivity.
    + intros callf k a. apply emit_disposed. exact Hd.
    + intros ok. unfold dispose, checkDisposed, mbind, M_bind, get. simpl.
      rewrite Hd. reflexivity.
  - intros body n cs w r w' Hd H.
    eapply (Dmono_of_Inv ""%string); [apply inv_exec_cmds, call_inv_all|exact H|exact Hd].
  - intros body m n w r w' Hd H. eapply drain_Dmono; [exact H|exact Hd].
  - intros n d w r w' Hd H.
    eapply (Dmono_of_Inv ""%string); [apply inv_dispose_ref|exact H|exact Hd].
  - intros n s d w r w' Hd H.
    eapply (Dmono_of_Inv ""%string); [apply inv_store_add|exact H|exact Hd].
Qed.

(** * Reentrant emission *)

(** ** C7 (as the code has it)
    On a bus that is not fully disposed, an [emit(k)] made while [k] is
    firing invokes no listener: it only logs the warning
    [Recursive emit detected for event "k"] and returns normally, the rest
    of the state unchanged, so the bus stays live; on a fully disposed bus
    that [emit] throws [Error('EventBus has been disposed')] instead, changing
    nothing; and in every case, while [k] is firing no listener call, however
    nested, dispatches [k], and [k] stays firing. *)
Theorem emit_reentrant_guard :
  (forall callf k a w, w_disposed w = false -> k ∈ w_firing w ->
     emit callf k a w = (Ok tt, log_ev (TWarn (msg_recursive k)) w) /\
     w_disposed (log_ev (TWarn (msg_recursive k)) w) = false) /\
  (forall callf k a w, w_disposed w = true -> k ∈ w_firing w ->
     emit callf k a w = (Err (JSError msg_disposed), w)) /\
  (forall body n f a k w r w' ext, k ∈ w_firing w ->
     call body n f a w = (r, w') -> w_trace w' = ext ++ w_trace w ->
     kevents k (reverse ext) = [] /\ k ∈ w_firing w').
Proof.
  split; [|split].
  - intros callf k a w Hd Hk. split; [apply emit_firing; assumption|exact Hd].
  - intros callf k a w Hd _. apply emit_disposed. exact Hd.
  - intros body n f a k w r w' ext Hk H HT.
    destruct (call_inv_all body n k f a w r w' H) as [(_ & HF & _) HK].
    split; [|apply HF; exact Hk].
    apply kevents_nil. apply Forall_reverse. apply HK; assumption.
Qed.

(** A listener on ["foo"] that disposes the whole bus and then emits
    ["foo"] again, from inside the dispatch of ["foo"]. *)
Definition dispose_then_emit_body : nat -> args -> list cmd :=
  fun _ _ => [CDispose None; CEmit "foo"%string []].

Definition reentrant_after_dispose : res unit * world :=
  run_top dispose_then_emit_body 10 [COn "foo"%string 0; CEmit "foo"%string []]
    (new_bus true).

(** The state of that inner [emit] call: ["foo"] is firing and the bus is
    fully disposed. *)
Definition reentrant_disposed_world : world :=
  set_disposed true (set_firing (fun _ => {["foo"%string]}) (new_bus true)).

(** ** C7 fails: an [emit(k)] made while [k] is firing throws the disposed
    error instead of warning when the bus was fully disposed in between, and
    the bus is then not usable; the scenario above reaches that call. *)
Lemma emit_reentrant_guard_counterexample :
  "foo"%string ∈ w_firing reentrant_disposed_world /\
  emit (call dispose_then_emit_body 10) "foo"%string [] reentrant_disposed_world
    = (Err (JSError msg_disposed), reentrant_disposed_world) /\
  (TWarn (msg_recursive "foo"%string) ∉ trace_of reentrant_after_dispose) /\
  TErr "foo"%string (JSError msg_disposed) ∈ trace_of reentrant_after_dispose /\
  w_disposed reentrant_after_dispose.2 = true.
Proof.
  split; [set_solver|split; [reflexivity|split; [|split]]].
  - apply (bool_decide_unpack _). vm_compute. reflexivity.
  - apply (bool_decide_unpack _). vm_compute. reflexivity.
  - vm_compute. reflexivity.
Qed.

(** * Deferred dispatch *)

(** ** C2 (as the code has it)
    On a deferred bus, [emit] invokes no listener and logs nothing: the
    disposed check, the reentrancy check, the empty check and the snapshot
    of the collection all happen during the [emit] call itself, and only the
    queued unit [invoke] (mark the key firing, call the snapshot, unmark)
    runs later, when the microtask queue reaches it. *)
Theorem emit_deferred_queues :
  (forall callf k a w,
     w_disposed w = false -> k ∉ w_firing w -> w_sync w = false ->
     emit callf k a w =
       (Ok tt, match collection w k with
               | [] => w
               | snapshot => set_queue (fun q => q ++ [mkT k snapshot a]) w
               end)) /\
  (forall body m n w t q, w_queue w = t :: q ->
     drain body (S m) n w =
       (invoke (call body n) (t_key t) (t_snap t) (t_args t) ;; drain body m n)
         (set_queue (fun _ => q) w)).
Proof.
  split.
  - intros callf k a w Hd Hk Hs. rewrite emit_live by assumption.
    destruct (collection w k); [reflexivity|]. rewrite Hs. reflexivity.
  - intros body m n w t q Hq. simpl. unfold mbind at 1, M_bind at 1, get.
    rewrite Hq. reflexivity.
Qed.

(** Listener 0 registered, ["foo"] emitted, listener 1 registered, all before
    the microtask checkpoint. *)
Definition deferred_before_checkpoint : world :=
  snd (exec_cmds (call quiet_body 10)
         [COn "foo"%string 0; CEmit "foo"%string [1%Z]; COn "foo"%string 1]
         (new_bus false)).

(** ** C2 fails: the snapshot is not taken by the deferred unit.  When the
    queued unit runs, ["foo"]'s collection holds listeners 0 and 1, yet it
    calls listener 0 only, the snapshot taken at the [emit] call. *)
Lemma emit_deferred_queues_counterexample :
  collection deferred_before_checkpoint "foo"%string = [FUser 0; FUser 1] /\
  kcalls "foo"%string (trace_of (drain quiet_body 10 10 deferred_before_checkpoint))
    = [(FUser 0, [1%Z])].
Proof. split; vm_compute; reflexivity. Qed.

(** * Runs of a listener *)


(** * Disposable stores *)

(** The store [s] is retired and holds nothing, as [dispose] leaves it. *)
Definition retired (s : nat) (w w' : world) : Prop :=
  w_stores w !! s = Some (mkS [] true) -> w_stores w' !! s = Some (mkS [] true).

#[global] Instance retired_preorder s : PreOrder (retired s).
Proof. split; [intros w H; exact H|intros ??? H1 H2 H; auto]. Qed.

Lemma retired_frame s w w' : w_stores w' = w_stores w -> retired s w w'.
Proof. intros E H. rewrite E. exact H. Qed.

Lemma retired_fd_dispose s h : pres (retired s) (fd_dispose h).
Proof.
  unfold fd_dispose. apply pres_get_bind. intros w.
  destruct (w_handles w !! h) as [hd|]; [|apply pres_ret].
  destruct (h_disposed hd); [apply pres_modify; intros; apply retired_frame; reflexivity|].
  apply pres_bind; [|intros _; apply pres_modify; intros; apply retired_frame; reflexivity].
  destruct (h_fn hd) as [r f|t b]; simpl.
  - apply pres_modify. intros; apply retired_frame; reflexivity.
  - apply pres_bind; [apply pres_modify; intros; apply retired_frame; reflexivity|intros _].
    destruct b; [apply pres_throw|apply pres_ret].
Qed.

(** Releasing anything leaves a retired store retired and empty. *)
Lemma retired_dispose_ref s n d : pres (retired s) (dispose_ref n d).
Proof.
  revert d. induction n as [|n IH]; intros d; simpl; [apply pres_fuel|].
  destruct d as [h|s']; [apply retired_fd_dispose|].
  unfold store_dispose_with. apply pres_get_bind. intros w.
  destruct (w_stores w !! s') as [st|]; [|apply pres_ret].
  destruct (s_disposed st); [apply pres_modify; intros; apply retired_frame; reflexivity|].
  apply pres_bind; [apply pres_forEach; intros x; apply IH|intros _].
  apply pres_modify. intros w0 H. simpl.
  destruct (decide (s' = s)) as [->|Hne].
  - apply lookup_insert_eq.
  - rewrite lookup_insert_ne by congruence. exact H.
Qed.

(** Adding to any store leaves a retired store retired and empty. *)
Lemma retired_store_add s n s' d : pres (retired s) (store_add n s' d).
Proof.
  unfold store_add. destruct (decide (d = DS s')); [apply pres_throw|].
  apply pres_get_bind. intros w.
  destruct (w_stores w !! s') as [st|] eqn:Est; [|apply pres_ret].
  destruct (s_disposed st) eqn:Ed.
  - apply pres_from_bind; [intros r w' H; inversion H; subst; apply retired_frame; reflexivity|].
    intros _ w1 _. apply pres_from_bind; [apply retired_dispose_ref|]. intros; apply pres_ret.
  - intros r w' H. unfold mbind, M_bind, modify, mret, M_ret in H. inversion H; subst.
    intros Hs. simpl.
    destruct (decide (s' = s)) as [->|Hne].
    + rewrite Hs in Est. inversion Est; subst. discriminate.
    + rewrite lookup_insert_ne by congruence. exact Hs.
Qed.

(** [add] returns its argument once the argument's own release, if any,
    has returned. *)
Definition returning {A B} (b : B) (p : res A * world) : res B * world :=
  match p with
  | (Ok _, w) => (Ok b, w)
  | (Err e, w) => (Err e, w)
  | (OutOfFuel, w) => (OutOfFuel, w)
  end.

(** ** C9 (as the code has it)
    A store whose [dispose] has returned normally is retired and empty, and
    stays so: no later [add] to any store and no later release changes it.
    Adding to a retired store any disposable [d] other than the store
    itself logs the warning, releases [d] at once, keeps nothing, and returns
    [d] when [d]'s release returns normally (the error of [d]'s release, if
    it throws, propagates from [add]).  Adding a store to itself throws
    [Error('Cannot register a disposable on itself!')] and changes nothing:
    nothing is released and no warning is logged. *)
Theorem store_add_retired :
  (forall n s items w r w', w_stores w !! s = Some (mkS items false) ->
     store_dispose n s w = (r, w') -> r = Ok tt ->
     w_stores w' !! s = Some (mkS [] true)) /\
  (forall n s d w, w_stores w !! s = Some (mkS [] true) -> d <> DS s ->
     store_add n s d w = returning d (dispose_ref n d (log_ev (TWarn msg_store_add) w)) /\
     w_stores (snd (store_add n s d w)) !! s = Some (mkS [] true)) /\
  (forall n s w, store_add n s (DS s) w = (Err (JSError msg_self), w)) /\
  (forall n s s' d w r w', w_stores w !! s = Some (mkS [] true) ->
     store_add n s' d w = (r, w') -> w_stores w' !! s = Some (mkS [] true)) /\
  (forall n s d w r w', w_stores w !! s = Some (mkS [] true) ->
     dispose_ref n d w = (r, w') -> w_stores w' !! s = Some (mkS [] true)).
Proof.
  split; [|split; [|split; [|split]]]; cycle 2.
  - intros n s w. unfold store_add. rewrite decide_True by reflexivity. reflexivity.
  - intros n s s' d w r w' Hs H. eapply retired_store_add; [exact H|exact Hs].
  - intros n s d w r w' Hs H. eapply retired_dispose_ref; [exact H|exact Hs].
  - intros n s items w r w' Hst H Hr. unfold store_dispose in H. simpl in H.
    unfold store_dispose_with, mbind, M_bind, get in H. rewrite Hst in H. simpl in H.
    unfold modify in H.
    destruct (forEach items (dispose_ref n) w) as [[[]|e|] w1] eqn:E;
      inversion H; subst; simpl; [apply lookup_insert_eq|discriminate|discriminate].
  - intros n s d w Hs Hne.
    assert (E : store_add n s d w =
                returning d (dispose_ref n d (log_ev (TWarn msg_store_add) w))).
    { unfold store_add. rewrite decide_False by exact Hne.
      unfold mbind, M_bind, get, tell, modify, mret, M_ret. rewrite Hs. simpl.
      destruct (dispose_ref n d (log_ev (TWarn msg_store_add) w)) as [[[]|e|] w1]; reflexivity. }
    split; [exact E|]. rewrite E.
    destruct (dispose_ref n d (log_ev (TWarn msg_store_add) w)) as [r w'] eqn:Ed.
    assert (H' : retired s (log_ev (TWarn msg_store_add) w) w')
      by (eapply retired_dispose_ref; exact Ed).
    destruct r; simpl; apply H'; exact Hs.
Qed.

(** A store, released, and then added to itself. *)
Definition retired_store_world : world :=
  snd ((s ← new_store; store_dispose 3 s) (new_bus true)).

(** A store holding a handle whose clean-up function throws, released once:
    its [dispose] throws. *)
Definition throwing_release : res unit * world :=
  (s ← new_store; h ← toDisposable 7 true; store_add 3 s (DH h) ;; store_dispose 3 s)
    (new_bus true).

(** A new handle is then added to that store. *)
Definition add_after_throwing_release : res dref * world :=
  (h ← toDisposable 8 false; store_add 3 0 (DH h)) (snd throwing_release).

(** A handle whose clean-up function throws is added to the retired store. *)
Definition add_throwing_to_retired : res dref * world :=
  (h ← toDisposable 9 true; store_add 3 0 (DH h)) retired_store_world.

(** ** C9 fails in three ways.  Adding a retired store to itself throws the
    self-registration error: nothing is released, no warning is logged and
    [d] is not returned.  A store whose release threw is not retired: a
    later [add] keeps the new handle, with no warning.  And adding to a
    retired store a handle whose release throws does not return it:
    [add] throws that error. *)
Lemma store_add_retired_counterexample :
  (w_stores retired_store_world !! 0 = Some (mkS [] true) /\
   store_add 3 0 (DS 0) retired_store_world
     = (Err (JSError msg_self), retired_store_world)) /\
  (fst throwing_release = Err UserThrow /\
   fst add_after_throwing_release = Ok (DH 2) /\
   w_stores (snd add_after_throwing_release) !! 0 = Some (mkS [DH 1; DH 2] false) /\
   TWarn msg_store_add ∉ w_trace (snd add_after_throwing_release)) /\
  (fst add_throwing_to_retired = Err UserThrow /\
   reverse (w_trace (snd add_throwing_to_retired)) = [TWarn msg_store_add; TRan 9]).
Proof.
  split; [split; vm_compute; reflexivity|split; [split_and!|split]].
  - vm_compute. reflexivity.
  - vm_compute. reflexivity.
  - vm_compute. reflexivity.
  - apply (bool_decide_unpack _). vm_compute. reflexivity.
  - vm_compute. reflexivity.
  - vm_compute. reflexivity.
Qed.

(** * One-shot listeners on a deferred bus *)

(** ** C1 fails on a deferred bus: [once] then two [emit]s in the same tick
    queue two snapshots, each holding the wrapper, so the listener runs
    with both argument lists.  (On a synchronous bus it runs once, see
    [ex_sync_once_twice].) *)
Lemma once_deferred_fires_twice :
  runs_of 0 (trace_of (run_top quiet_body 10
     [COnce "foo"%string 0; CEmit "foo"%string [1%Z]; CEmit "foo"%string [2%Z]] (new_bus false)))
  = [[1%Z]; [2%Z]].
Proof. vm_compute. reflexivity. Qed.

(** * Disposing one key *)

(** A non-empty key is removed alone and the bus stays live. *)
Lemma dispose_key_frame k w :
  w_disposed w = false -> k <> ""%string ->
  dispose (Some k) w = (Ok tt, set_events (delete k) w).
Proof.
  intros Hd Hk. unfold dispose, js_truthy_key, checkDisposed.
  unfold mbind, M_bind, get, mret, M_ret, modify. rewrite Hd. simpl.
  rewrite decide_False by exact Hk. reflexivity.
Qed.

Definition two_keys_world : world :=
  snd (exec_cmds (call quiet_body 10) [COn "foo"%string 0; COn "bar"%string 1] (new_bus true)).

(** ** C3 fails for the empty key: [dispose("")] fails the truthiness test
    [if (event)] and disposes the whole bus, clearing the other key's
    listeners; [on] and [emit] then throw the disposed error. *)
Lemma dispose_empty_key_disposes_bus :
  collection two_keys_world "foo"%string = [FUser 0] /\
  dispose (Some ""%string) two_keys_world
    = (Ok tt, set_disposed true (set_events (fun _ => ∅) two_keys_world)) /\
  (let w1 := snd (dispose (Some ""%string) two_keys_world) in
   collection w1 "foo"%string = [] /\
   fst (on "bar"%string (FUser 2) w1) = Err (JSError msg_disposed) /\
   fst (emit (call quiet_body 10) "foo"%string [] w1) = Err (JSError msg_disposed)).
Proof. cbv zeta. repeat split; vm_compute; reflexivity. Qed.

(** * Releasing twice *)

(** A handle returned by [on] removes its listener once; the second
    [dispose] only warns. *)
Lemma fd_dispose_delete_twice h r f w :
  w_handles w !! h = Some (mkH false (CDelete r f)) ->
  let w1 := snd (fd_dispose h w) in
  fd_dispose h w = (Ok tt, w1) /\
  fd_dispose h w1 = (Ok tt, log_ev (TWarn msg_fd_twice) w1).
Proof.
  intros Hh. unfold fd_dispose at 1 2, mbind, M_bind, get, mret, M_ret, modify, tell.
  rewrite Hh. simpl. split; [reflexivity|].
  unfold fd_dispose, mbind, M_bind, get, tell, modify. simpl.
  rewrite lookup_insert_eq. reflexivity.
Qed.

(** A store holding a handle whose clean-up function throws. *)
Definition throwing_store_world : world :=
  snd ((h ← toDisposable 7 true; s ← new_store; store_add 3 s (DH h)) (new_bus true)).

Definition store_released_once : res unit * world := store_dispose 3 1 throwing_store_world.

Definition store_released_twice : res unit * world :=
  store_dispose 3 1 (snd store_released_once).

(** ** C8 fails: a clean-up function that throws leaves both the handle and
    the store unmarked, since [_isDisposed] and [_disposed] are set after the
    release; the second [dispose] runs the clean-up function again and throws
    again. *)
Lemma store_dispose_rethrows :
  w_stores throwing_store_world !! 1 = Some (mkS [DH 0] false) /\
  fst store_released_once = Err UserThrow /\
  fst store_released_twice = Err UserThrow /\
  trace_of store_released_twice = [TRan 7; TRan 7].
Proof. split; [|split; [|split]]; vm_compute; reflexivity. Qed.

(** * Concrete instances of the general theorems *)

(** Listener 0 registers listener 1 on ["foo"] and then throws; listener 2
    does nothing. *)
Definition wit_body : nat -> args -> list cmd :=
  fun l _ => if decide (l = 0) then [COn "foo"%string 1; CThrow] else [].

Definition wit_sync : world :=
  snd (exec_cmds (call quiet_body 10) [COn "foo"%string 0; COn "foo"%string 2] (new_bus true)).

Definition wit_deferred : world :=
  snd (exec_cmds (call quiet_body 10) [COn "foo"%string 0; COn "foo"%string 2] (new_bus false)).

Definition wit_emit_sync : res unit * world := emit (call wit_body 10) "foo"%string [1%Z] wit_sync.

Definition wit_task : task := mkT "foo"%string (collection wit_deferred "foo"%string) [1%Z].

Definition wit_invoke : res unit * world :=
  invoke (call wit_body 10) "foo"%string (collection wit_deferred "foo"%string) [1%Z] wit_deferred.

Definition wit_queued : world := snd (emit (call wit_body 10) "foo"%string [1%Z] wit_deferred).

Definition wit_disposed : world := snd (dispose None wit_sync).

Definition wit_disposed_queued : world := snd (dispose None wit_queued).

Definition wit_firing : world := set_firing (fun _ => {["foo"%string]}) wit_sync.

Definition wit_firing_disposed : world := set_disposed true wit_firing.

Definition wit_reemit_body : nat -> args -> list cmd := fun _ _ => [CEmit "foo"%string []].

Definition wit_store_full : world :=
  snd ((s ← new_store; h ← toDisposable 7 false; store_add 3 s (DH h)) (new_bus true)).

Definition wit_store_retired : world :=
  snd ((h ← toDisposable 8 false; store_dispose 3 0 ;; mret h) wit_store_full).

Ltac wit :=
  first [ vm_compute; reflexivity
        | apply (bool_decide_unpack _); vm_compute; reflexivity
        | vm_compute; discriminate ].

Lemma wit_sync_shape :
  collection wit_sync "foo"%string = [FUser 0; FUser 2] /\
  trace_of wit_emit_sync =
    [TCall "foo"%string (FUser 0) [1%Z]; TRun 0 [1%Z]; TErr "foo"%string UserThrow;
     TCall "foo"%string (FUser 2) [1%Z]; TRun 2 [1%Z]].
Proof. split; vm_compute; reflexivity. Qed.

(** Witness of C4 on the bus above. *)
Lemma emit_snapshot_consistency_witness :
  (exists ext, w_trace wit_emit_sync.2 = ext ++ w_trace wit_sync /\
     kcalls "foo"%string (reverse ext) = map (fun f => (f, [1%Z])) (collection wit_sync "foo"%string)) /\
  emit (call wit_body 10) "foo"%string [1%Z] wit_deferred =
    (Ok tt, set_queue (fun q => q ++ [mkT "foo"%string (collection wit_deferred "foo"%string) [1%Z]])
              wit_deferred) /\
  (exists ext, w_trace wit_invoke.2 = ext ++ w_trace wit_deferred /\
     kcalls "foo"%string (reverse ext) = map (fun f => (f, [1%Z])) (t_snap wit_task)).
Proof.
  destruct (emit_snapshot_consistency wit_body 10 "foo"%string [1%Z]) as (H1 & H2 & H3).
  split; [|split].
  - apply (H1 wit_sync wit_emit_sync.1 wit_emit_sync.2); wit.
  - apply H2; wit.
  - apply (H3 wit_task wit_deferred wit_invoke.1 wit_invoke.2); wit.
Defined.

(** Witness of C5: listener 0 throws and listener 2 still runs. *)
Lemma emit_failure_isolation_witness :
  isolated (call wit_body 10) "foo"%string (collection wit_sync "foo"%string) [1%Z]
    wit_sync wit_emit_sync.2 wit_emit_sync.1 /\
  (fst (emit (call wit_body 10) "foo"%string [1%Z] wit_deferred) = Ok tt /\
   w_trace (snd (emit (call wit_body 10) "foo"%string [1%Z] wit_deferred)) = w_trace wit_deferred) /\
  isolated (call wit_body 10) "foo"%string (t_snap wit_task) [1%Z] wit_deferred wit_invoke.2 wit_invoke.1.
Proof.
  destruct (emit_failure_isolation wit_body 10 "foo"%string [1%Z]) as (H1 & H2 & H3).
  split; [|split].
  - apply (H1 wit_sync wit_emit_sync.1 wit_emit_sync.2); wit.
  - apply H2; wit.
  - apply (H3 wit_task wit_deferred wit_invoke.1 wit_invoke.2); wit.
Defined.

(** Witness of C6: the bus above, fully disposed. *)
Lemma dispose_all_terminal_witness :
  dispose None wit_sync = (Ok tt, set_disposed true (set_events (fun _ => ∅) wit_sync)) /\
  on "foo"%string (FUser 3) wit_disposed = (Err (JSError msg_disposed), wit_disposed) /\
  fst (once "foo"%string 3 wit_disposed) = Err (JSError msg_disposed) /\
  emit (call wit_body 10) "foo"%string [] wit_disposed = (Err (JSError msg_disposed), wit_disposed) /\
  dispose (Some "foo"%string) wit_disposed = (Err (JSError msg_disposed), wit_disposed) /\
  w_disposed (snd (exec_cmds (call wit_body 10) [COn "foo"%string 3; CEmit "foo"%string []]
                     wit_disposed)) = true /\
  w_disposed (snd (drain wit_body 3 10 wit_disposed_queued)) = true /\
  w_disposed (snd (dispose_ref 3 (DH 1) wit_disposed)) = true /\
  w_disposed (snd (store_add 3 0 (DH 1) wit_disposed)) = true.
Proof.
  destruct dispose_all_terminal as (H1 & H2 & H3 & H4 & H5 & H6).
  assert (Hd : w_disposed wit_disposed = true) by wit.
  destruct (H2 wit_disposed Hd) as (Hon & Honce & Hemit & Hdisp).
  split; [apply H1; wit|].
  split; [apply Hon|]. split; [apply Honce|]. split; [apply Hemit|]. split; [apply Hdisp|].
  split; [apply (H3 wit_body 10 [COn "foo"%string 3; CEmit "foo"%string []] wit_disposed
                   (fst (exec_cmds (call wit_body 10) [COn "foo"%string 3; CEmit "foo"%string []]
                           wit_disposed))); [exact Hd|wit]|].
  split; [apply (H4 wit_body 3 10 wit_disposed_queued
                   (fst (drain wit_body 3 10 wit_disposed_queued))); wit|].
  split; [apply (H5 3 (DH 1) wit_disposed (fst (dispose_ref 3 (DH 1) wit_disposed)));
          [exact Hd|wit]|].
  apply (H6 3 0 (DH 1) wit_disposed (fst (store_add 3 0 (DH 1) wit_disposed))); [exact Hd|wit].
Defined.

(** Witness of C7: ["foo"] is firing on a live bus, and listener 0 emits
    ["foo"] from inside that dispatch. *)
Lemma emit_reentrant_guard_witness :
  (emit (call wit_body 10) "foo"%string [1%Z] wit_firing
    = (Ok tt, log_ev (TWarn (msg_recursive "foo"%string)) wit_firing) /\
   w_disposed (log_ev (TWarn (msg_recursive "foo"%string)) wit_firing) = false) /\
  emit (call wit_body 10) "foo"%string [1%Z] wit_firing_disposed
    = (Err (JSError msg_disposed), wit_firing_disposed) /\
  kevents "foo"%string (reverse [TWarn (msg_recursive "foo"%string); TRun 0 []]) = [] /\
  "foo"%string ∈ w_firing (snd (call wit_reemit_body 10 (FUser 0) [] wit_firing)).
Proof.
  destruct emit_reentrant_guard as (H1 & H2 & H3).
  split; [apply H1; wit|].
  split; [apply H2; wit|].
  apply (H3 wit_reemit_body 10 (FUser 0) [] "foo"%string wit_firing
            (fst (call wit_reemit_body 10 (FUser 0) [] wit_firing))
            (snd (call wit_reemit_body 10 (FUser 0) [] wit_firing))); wit.
Defined.

(** Witness of C2: a deferred emission is queued with its snapshot, and the
    checkpoint then runs that unit. *)
Lemma emit_deferred_queues_witness :
  emit (call quiet_body 10) "foo"%string [1%Z] wit_deferred =
    (Ok tt, match collection wit_deferred "foo"%string with
            | [] => wit_deferred
            | snapshot => set_queue (fun q => q ++ [mkT "foo"%string snapshot [1%Z]]) wit_deferred
            end) /\
  drain wit_body 3 10 wit_queued =
    (invoke (call wit_body 10) (t_key wit_task) (t_snap wit_task) (t_args wit_task) ;;
     drain wit_body 2 10) (set_queue (fun _ => []) wit_queued).
Proof.
  destruct emit_deferred_queues as (H1 & H2).
  split; [apply H1; wit|].
  apply (H2 wit_body 2 10 wit_queued wit_task []); wit.
Defined.

(** Witness of C9: a store holding a handle is released, then a new handle
    is added to it. *)
Lemma store_add_retired_witness :
  w_stores (snd (store_dispose 3 0 wit_store_full)) !! 0 = Some (mkS [] true) /\
  (store_add 3 0 (DH 2) wit_store_retired
    = returning (DH 2) (dispose_ref 3 (DH 2) (log_ev (TWarn msg_store_add) wit_store_retired)) /\
   w_stores (snd (store_add 3 0 (DH 2) wit_store_retired)) !! 0 = Some (mkS [] true)) /\
  w_stores (snd (store_add 3 1 (DH 2) wit_store_retired)) !! 0 = Some (mkS [] true) /\
  w_stores (snd (dispose_ref 3 (DH 2) wit_store_retired)) !! 0 = Some (mkS [] true).
Proof.
  destruct store_add_retired as (H1 & H2 & _ & H4 & H5).
  split; [apply (H1 3 0 [DH 1] wit_store_full (fst (store_dispose 3 0 wit_store_full))
                    (snd (store_dispose 3 0 wit_store_full))); wit|].
  split; [apply H2; wit|].
  split; [apply (H4 3 0 1 (DH 2) wit_store_retired (fst (store_add 3 1 (DH 2) wit_store_retired))
                    (snd (store_add 3 1 (DH 2) wit_store_retired))); wit|].
  apply (H5 3 0 (DH 2) wit_store_retired (fst (dispose_ref 3 (DH 2) wit_store_retired))
            (snd (dispose_ref 3 (DH 2) wit_store_retired))); wit.
Defined.

(** * Further properties of [event.ts] and [lifecycle.ts] *)

(** ** Well-formed worlds

    What the code keeps true of the objects it creates: every key of
    [_events] names a set object of its own, every object identity in use
    was handed out before [w_next], and so were the [wrapper] closures held
    in the sets and the set objects the handles of [on] close over. *)
Definition wf (w : world) : Prop :=
  (forall k r, w_events w !! k = Some r -> r < w_next w /\ is_Some (w_sets w !! r)) /\
  (forall k1 k2 r, w_events w !! k1 = Some r -> w_events w !! k2 = Some r -> k1 = k2) /\
  (forall h hd r f, w_handles w !! h = Some hd -> h_fn hd = CDelete r f -> r < w_next w) /\
  (forall h hd, w_handles w !! h = Some hd -> h < w_next w) /\
  (forall r fs l u, w_sets w !! r = Some fs -> FWrap l u ∈ fs -> u < w_next w).

Definition WF (w w' : world) : Prop := wf w -> wf w'.

#[global] Instance WF_preorder : PreOrder WF.
Proof. split; [intros w H; exact H|intros ??? H1 H2 H; auto]. Qed.

Lemma WF_frame w w' :
  w_events w' = w_events w -> w_sets w' = w_sets w -> w_handles w' = w_handles w ->
  w_next w <= w_next w' -> WF w w'.
Proof.
  intros E S H N (W1 & W2 & W3 & W4 & W5). unfold wf. rewrite E, S, H.
  split_and!.
  - intros k r Hk. destruct (W1 k r Hk). split; [lia|assumption].
  - exact W2.
  - intros h hd r f Hh Hf. pose proof (W3 h hd r f Hh Hf). lia.
  - intros h hd Hh. pose proof (W4 h hd Hh). lia.
  - intros r fs l u Hs Hu. pose proof (W5 r fs l u Hs Hu). lia.
Qed.

Ltac frame_wf := intros ?; apply WF_frame; simpl; auto.

Section Pres2.

Context {R : world -> world -> Prop} `{!PreOrder R}.

Lemma pres_try_finally {A} (m : M A) fin :
  pres R m -> pres R fin -> pres R (try_finally m fin).
Proof.
  intros Hm Hf w r w' H. unfold try_finally in H.
  destruct (m w) as [r1 w1] eqn:E.
  assert (R w w1) by (eapply Hm; exact E).
  destruct r1;
    try (inversion H; subst; assumption);
    (destruct (fin w1) as [r2 w2] eqn:F; destruct r2; inversion H; subst;
     (etransitivity; [eassumption|eapply Hf; exact F])).
Qed.

End Pres2.

Lemma wf_tell e : pres WF (tell e).
Proof. apply pres_modify. frame_wf. Qed.

Lemma wf_checkDisposed : pres WF checkDisposed.
Proof.
  unfold checkDisposed. apply pres_get_bind. intros w.
  destruct (w_disposed w); [apply pres_throw|apply pres_ret].
Qed.

Lemma wf_fresh : pres WF fresh.
Proof. apply pres_fresh. frame_wf. Qed.

Lemma wf_run_cleanup c : pres WF (run_cleanup c).
Proof.
  destruct c as [r f|t b]; simpl.
  - apply pres_modify. intros w (W1 & W2 & W3 & W4 & W5). unfold wf; simpl. split_and!; auto.
    + intros k r' Hk. destruct (W1 k r' Hk) as [Hl [fs Hs]]. split; [exact Hl|].
      rewrite lookup_alter_is_Some. eexists; exact Hs.
    + intros r' fs l u Hs Hu. apply lookup_alter_Some in Hs as [(<- & fs0 & Hs0 & ->)|(_ & Hs0)].
      * unfold js_set_delete in Hu. apply list_elem_of_filter in Hu as [_ Hu]. eauto.
      * eauto.
  - apply pres_bind; [apply wf_tell|intros _].
    destruct b; [apply pres_throw|apply pres_ret].
Qed.

Lemma wf_fd_dispose h : pres WF (fd_dispose h).
Proof.
  unfold fd_dispose. apply pres_get_bind. intros w.
  destruct (w_handles w !! h) as [hd|] eqn:Eh; [|apply pres_ret].
  destruct (h_disposed hd); [apply wf_tell|].
  apply pres_from_bind; [apply wf_run_cleanup|intros a w1 E1].
  assert (Hh1 : w_handles w1 = w_handles w /\ w_next w1 = w_next w).
  { destruct (h_fn hd); unfold run_cleanup, tell, modify, mbind, M_bind in E1; simpl in E1;
      [inversion E1; subst; auto|].
    destruct throws; inversion E1; subst; auto. }
  intros r w' H (W1 & W2 & W3 & W4 & W5). inversion H; subst; clear H. unfold wf; simpl.
  destruct Hh1 as [HH HN]. rewrite HH in W3, W4. rewrite HN in *.
  split_and!; auto.
  - intros h' hd' r f Hl Hf. apply lookup_insert_Some in Hl as [(<- & <-)|(_ & Hl)]; [simpl in Hf; eapply W3; eauto|rewrite HH in Hl; eauto].
  - intros h' hd' Hl. apply lookup_insert_Some in Hl as [(<- & <-)|(_ & Hl)]; [eauto|rewrite HH in Hl; eauto].
Qed.

(** [on] on a live bus, computed. *)
Lemma on_step k f w :
  w_disposed w = false ->
  on k f w =
  match w_events w !! k with
  | Some rs =>
      (Ok (w_next w),
       set_handles (<[w_next w := mkH false (CDelete rs f)]>)
         (bump_next (set_sets (alter (js_set_add f) rs) w)))
  | None =>
      (Ok (S (w_next w)),
       set_handles (<[S (w_next w) := mkH false (CDelete (w_next w) f)]>)
         (bump_next (set_sets (alter (js_set_add f) (w_next w))
           (set_events (<[k := w_next w]>) (set_sets (<[w_next w := []]>) (bump_next w))))))
  end.
Proof.
  intros Hd. unfold on, checkDisposed, mbind, M_bind, mret, M_ret, get, fresh, modify.
  rewrite Hd. simpl. destruct (w_events w !! k); reflexivity.
Qed.

Lemma on_disposed k f w :
  w_disposed w = true -> on k f w = (Err (JSError msg_disposed), w).
Proof.
  intros Hd. unfold on, checkDisposed, mbind, M_bind, get. rewrite Hd. reflexivity.
Qed.

Lemma js_set_add_elem {A} `{EqDecision A} (x y : A) l : y ∈ js_set_add x l -> y = x \/ y ∈ l.
Proof.
  unfold js_set_add. destruct (decide (x ∈ l)); [auto|].
  rewrite elem_of_app, list_elem_of_singleton. tauto.
Qed.

Lemma wf_on_from k f w :
  (forall l u, f = FWrap l u -> u < w_next w) -> pres_from WF w (on k f).
Proof.
  intros Hf r w' H. destruct (w_disposed w) eqn:Hd.
  { rewrite on_disposed in H by exact Hd. inversion H; subst. intros Hw; exact Hw. }
  rewrite on_step in H by exact Hd.
  intros (W1 & W2 & W3 & W4 & W5).
  destruct (w_events w !! k) as [rs|] eqn:Ek; inversion H; subst; clear H;
    unfold wf; simpl; split_and!.
  - intros k' r' Hk'. destruct (W1 k' r' Hk') as [Hl Hs]. split; [lia|].
    rewrite lookup_alter_is_Some. exact Hs.
  - exact W2.
  - intros h hd r f' Hl Hfn. apply lookup_insert_Some in Hl as [(<- & <-)|(_ & Hl)].
    + simpl in Hfn. inversion Hfn; subst. destruct (W1 k r Ek). lia.
    + pose proof (W3 h hd r f' Hl Hfn). lia.
  - intros h hd Hl. apply lookup_insert_Some in Hl as [(<- & <-)|(_ & Hl)]; [lia|].
    pose proof (W4 h hd Hl). lia.
  - intros r fs l u Hl Hu. apply lookup_alter_Some in Hl as [(<- & fs0 & Hs0 & ->)|(_ & Hl)].
    + apply js_set_add_elem in Hu as [Heq|Hu]; [pose proof (Hf l u (eq_sym Heq)); lia|].
      pose proof (W5 _ fs0 l u Hs0 Hu). lia.
    + pose proof (W5 r fs l u Hl Hu). lia.
  - intros k' r' Hk'. apply lookup_insert_Some in Hk' as [(<- & <-)|(_ & Hk')].
    + split; [lia|]. rewrite lookup_alter_is_Some, lookup_insert_eq. eexists; reflexivity.
    + destruct (W1 k' r' Hk') as [Hl [fs Hs]]. split; [lia|].
      rewrite lookup_alter_is_Some, lookup_insert_ne by lia. eexists; exact Hs.
  - intros k1 k2 r Hk1 Hk2.
    apply lookup_insert_Some in Hk1 as [(<- & <-)|(Hn1 & Hk1)];
    apply lookup_insert_Some in Hk2 as [(<- & Heq)|(Hn2 & Hk2)]; auto.
    + destruct (W1 k2 _ Hk2). lia.
    + subst r. destruct (W1 k1 _ Hk1). lia.
    + eapply W2; eassumption.
  - intros h hd r f' Hl Hfn. apply lookup_insert_Some in Hl as [(<- & <-)|(_ & Hl)].
    + simpl in Hfn. inversion Hfn; subst. lia.
    + pose proof (W3 h hd r f' Hl Hfn). lia.
  - intros h hd Hl. apply lookup_insert_Some in Hl as [(<- & <-)|(_ & Hl)]; [lia|].
    pose proof (W4 h hd Hl). lia.
  - intros r fs l u Hl Hu. apply lookup_alter_Some in Hl as [(<- & fs0 & Hs0 & ->)|(Hne & Hl)].
    + rewrite lookup_insert_eq in Hs0. inversion Hs0; subst.
      apply js_set_add_elem in Hu as [Heq|Hu]; [pose proof (Hf l u (eq_sym Heq)); lia|].
      apply elem_of_nil in Hu. contradiction.
    + rewrite lookup_insert_ne in Hl by congruence.
      pose proof (W5 r fs l u Hl Hu). lia.
Qed.

Lemma wf_once k l : pres WF (once k l).
Proof.
  unfold once. intros w. apply pres_from_bind; [apply wf_fresh|].
  intros u w1 E. inversion E; subst; clear E.
  apply pres_from_bind; [apply wf_on_from; intros l' u' Heq; inversion Heq; simpl; lia|].
  intros h w2 _. apply pres_bind; [apply pres_modify; frame_wf|intros _; apply pres_ret].
Qed.

Lemma wf_dispose ok : pres WF (dispose ok).
Proof.
  unfold dispose. apply pres_bind; [apply wf_checkDisposed|intros _].
  destruct (js_truthy_key ok) as [k|].
  - apply pres_modify. intros w (W1 & W2 & W3 & W4 & W5). unfold wf; simpl. split_and!; auto.
    + intros k' r Hk. apply lookup_delete_Some in Hk as [_ Hk]. eauto.
    + intros k1 k2 r Hk1 Hk2. apply lookup_delete_Some in Hk1 as [_ Hk1].
      apply lookup_delete_Some in Hk2 as [_ Hk2]. eauto.
  - apply pres_bind; [|intros _; apply pres_modify; frame_wf].
    apply pres_modify. intros w (W1 & W2 & W3 & W4 & W5). unfold wf; simpl. split_and!; auto.
    + intros k' r Hk. rewrite lookup_empty in Hk. discriminate.
    + intros k1 k2 r Hk1. rewrite lookup_empty in Hk1. discriminate.
Qed.

Lemma wf_dispose_ref n d : pres WF (dispose_ref n d).
Proof.
  revert d. induction n as [|n IH]; intros d; simpl; [apply pres_fuel|].
  destruct d as [h|s]; [apply wf_fd_dispose|].
  unfold store_dispose_with. apply pres_get_bind. intros w.
  destruct (w_stores w !! s) as [st|]; [|apply pres_ret].
  destruct (s_disposed st); [apply wf_tell|].
  apply pres_bind; [apply pres_forEach; intros x; apply IH|intros _].
  apply pres_modify. frame_wf.
Qed.

Lemma wf_store_add n s d : pres WF (store_add n s d).
Proof.
  unfold store_add. destruct (decide (d = DS s)); [apply pres_throw|].
  apply pres_get_bind. intros w.
  destruct (w_stores w !! s) as [st|]; [|apply pres_ret].
  destruct (s_disposed st).
  - apply pres_bind; [apply wf_tell|intros _].
    apply pres_bind; [apply wf_dispose_ref|intros _]. apply pres_ret.
  - apply pres_bind; [apply pres_modify; frame_wf|intros _]. apply pres_ret.
Qed.

Lemma wf_toDisposable t b : pres WF (toDisposable t b).
Proof.
  intros w r w' H. unfold toDisposable, mbind, M_bind, fresh, modify, mret, M_ret in H.
  inversion H; subst; clear H.
  intros (W1 & W2 & W3 & W4 & W5). unfold wf; simpl. split_and!.
  - intros k r Hk. destruct (W1 k r Hk). split; [lia|assumption].
  - exact W2.
  - intros h' hd r f Hl Hf. apply lookup_insert_Some in Hl as [(<- & <-)|(_ & Hl)];
      [discriminate|]. pose proof (W3 h' hd r f Hl Hf). lia.
  - intros h' hd Hl. apply lookup_insert_Some in Hl as [(<- & <-)|(_ & Hl)]; [lia|].
    pose proof (W4 h' hd Hl). lia.
  - intros r fs l u Hs Hu. pose proof (W5 r fs l u Hs Hu). lia.
Qed.

Lemma wf_new_store : pres WF new_store.
Proof.
  unfold new_store. apply pres_bind; [apply wf_fresh|intros s].
  apply pres_bind; [apply pres_modify; frame_wf|intros _; apply pres_ret].
Qed.

Section WfDispatch.

Variable callf : fnv -> args -> M unit.
Hypothesis callf_wf : forall f a, pres WF (callf f a).

Lemma wf_invoke k snap a : pres WF (invoke callf k snap a).
Proof.
  unfold invoke. apply pres_bind; [apply pres_modify; frame_wf|intros _].
  apply pres_try_finally; [|apply pres_modify; frame_wf].
  induction snap as [|f fs IH]; simpl; [apply pres_ret|].
  apply pres_bind; [apply wf_tell|intros _].
  apply pres_bind; [|intros _; exact IH].
  apply pres_catch; [apply callf_wf|intros e; apply wf_tell].
Qed.

Lemma wf_emit k a : pres WF (emit callf k a).
Proof.
  unfold emit. apply pres_bind; [apply wf_checkDisposed|intros _].
  apply pres_get_bind. intros w.
  destruct (decide (k ∈ w_firing w)); [apply wf_tell|].
  destruct (w_events w !! k) as [r|]; [|apply pres_ret].
  destruct (default [] (w_sets w !! r)) as [|f fs]; [apply pres_ret|].
  destruct (w_sync w); [apply wf_invoke|apply pres_modify; frame_wf].
Qed.

Lemma wf_exec_cmds cs : pres WF (exec_cmds callf cs).
Proof.
  induction cs as [|c cs IH]; simpl; [apply pres_ret|].
  apply pres_bind; [|intros _; apply IH].
  destruct c; simpl.
  - apply wf_emit.
  - intros w. apply pres_from_bind; [apply wf_on_from; discriminate|].
    intros; apply pres_ret.
  - apply pres_bind; [apply wf_once|intros _; apply pres_ret].
  - apply wf_fd_dispose.
  - apply wf_dispose.
  - apply pres_throw.
Qed.

End WfDispatch.

Lemma wf_call body n : forall f a, pres WF (call body n f a).
Proof.
  induction n as [|n IH]; intros f a; simpl; [apply pres_fuel|].
  destruct f as [l|l u].
  - apply pres_bind; [apply wf_tell|intros _]. apply wf_exec_cmds. exact IH.
  - apply pres_bind; [apply IH|intros _].
    apply pres_get_bind. intros w.
    destruct (w_wraps w !! u); [apply wf_fd_dispose|apply pres_ret].
Qed.

Lemma wf_drain body m n : pres WF (drain body m n).
Proof.
  induction m as [|m IH]; simpl; [apply pres_fuel|].
  apply pres_get_bind. intros w.
  destruct (w_queue w) as [|t q]; [apply pres_ret|].
  apply pres_bind; [apply pres_modify; frame_wf|intros _].
  apply pres_bind; [apply wf_invoke; apply wf_call|intros _]. apply IH.
Qed.

Lemma wf_scoped n k l s : pres WF (scoped n k (FUser l) s).
Proof.
  unfold scoped. intros w. apply pres_from_bind; [apply wf_on_from; discriminate|].
  intros h w1 _. apply pres_bind; [apply wf_store_add|intros _; apply pres_ret].
Qed.

(** ** X1
    A new bus is well formed, and every operation keeps it so, whatever it
    returns: listener calls and scripts of calls, the microtask checkpoint,
    [on], [once], [scoped], [dispose], and the creation, filling and release
    of handles and stores. *)
Theorem wf_invariant :
  (forall sync, wf (new_bus sync)) /\
  (forall body n cs, pres WF (exec_cmds (call body n) cs)) /\
  (forall body m n, pres WF (drain body m n)) /\
  (forall body n cs, pres WF (run_top body n cs)) /\
  (forall k l, pres WF (on k (FUser l))) /\
  (forall k l, pres WF (once k l)) /\
  (forall n k l s, pres WF (scoped n k (FUser l) s)) /\
  (forall ok, pres WF (dispose ok)) /\
  (forall h, pres WF (fd_dispose h)) /\
  (forall t b, pres WF (toDisposable t b)) /\
  pres WF new_store /\
  (forall n s d, pres WF (store_add n s d)) /\
  (forall n d, pres WF (dispose_ref n d)).
Proof.
  split_and!.
  - intros sync. unfold wf, new_bus; simpl. split_and!.
    + intros k r H. rewrite lookup_empty in H. discriminate.
    + intros k1 k2 r H. rewrite lookup_empty in H. discriminate.
    + intros h hd r f H. rewrite lookup_empty in H. discriminate.
    + intros h hd H. rewrite lookup_empty in H. discriminate.
    + intros r fs l u H. rewrite lookup_empty in H. discriminate.
  - intros body n cs. apply wf_exec_cmds, wf_call.
  - apply wf_drain.
  - intros body n cs. unfold run_top.
    apply pres_bind; [apply wf_exec_cmds, wf_call|intros _; apply wf_drain].
  - intros k l w. apply wf_on_from. discriminate.
  - apply wf_once.
  - apply wf_scoped.
  - apply wf_dispose.
  - apply wf_fd_dispose.
  - apply wf_toDisposable.
  - apply wf_new_store.
  - apply wf_store_add.
  - apply wf_dispose_ref.
Qed.

(** ** Registration and removal *)

Lemma collection_frame w w' k :
  w_events w' !! k = w_events w !! k ->
  (forall r, w_events w !! k = Some r -> w_sets w' !! r = w_sets w !! r) ->
  collection w' k = collection w k.
Proof.
  intros E S. unfold collection. rewrite E.
  destruct (w_events w !! k) as [r|] eqn:Ek; [rewrite (S r eq_refl)|]; reflexivity.
Qed.

Lemma js_set_delete_add {A} `{EqDecision A} (x : A) l :
  js_set_delete x (js_set_add x l) = js_set_delete x l.
Proof.
  unfold js_set_add, js_set_delete. destruct (decide (x ∈ l)); [reflexivity|].
  rewrite filter_app, filter_cons_False by (intros H; apply H; reflexivity). simpl.
  apply app_nil_r.
Qed.

Lemma js_set_delete_notin {A} `{EqDecision A} (x : A) l :
  x ∉ l -> js_set_delete x l = l.
Proof.
  unfold js_set_delete. induction l as [|y l IH]; intros Hx; [reflexivity|].
  rewrite filter_cons_True by (intros ->; apply Hx; left).
  rewrite IH; [reflexivity|]. intros H; apply Hx; right; exact H.
Qed.

(** What [on] does to a well-formed live bus. *)
Lemma on_spec k f w r w' :
  wf w -> w_disposed w = false -> on k f w = (r, w') ->
  exists rs h, r = Ok h /\
    (w_events w !! k = Some rs \/ (w_events w !! k = None /\ rs = w_next w)) /\
    w_events w' !! k = Some rs /\
    w_sets w' !! rs = Some (js_set_add f (collection w k)) /\
    w_next w <= h /\
    w_handles w' !! h = Some (mkH false (CDelete rs f)) /\
    (forall h0, h0 <> h -> w_handles w' !! h0 = w_handles w !! h0) /\
    (forall k', k' <> k -> w_events w' !! k' = w_events w !! k') /\
    (forall r0, r0 <> rs -> w_sets w' !! r0 = w_sets w !! r0) /\
    (forall k' r0, k' <> k -> w_events w !! k' = Some r0 -> r0 <> rs) /\
    w_disposed w' = false /\ w_next w <= w_next w'.
Proof.
  intros (W1 & W2 & W3 & W4 & W5) Hd H. rewrite on_step in H by exact Hd.
  unfold collection.
  destruct (w_events w !! k) as [rs|] eqn:Ek; inversion H; subst; clear H; simpl.
  - destruct (W1 k rs Ek) as [Hl [fs Hs]].
    exists rs, (w_next w). split_and!; auto.
    + rewrite lookup_alter_eq, Hs. reflexivity.
    + rewrite lookup_insert_eq. reflexivity.
    + intros h0 Hne. rewrite lookup_insert_ne by congruence. reflexivity.
    + intros r0 Hne. rewrite lookup_alter_ne by congruence. reflexivity.
    + intros k' r0 Hne Hk' ->. apply Hne. eapply W2; eassumption.
  - exists (w_next w), (S (w_next w)). split_and!; auto.
    + rewrite lookup_insert_eq. reflexivity.
    + rewrite lookup_alter_eq, lookup_insert_eq. reflexivity.
    + rewrite lookup_insert_eq. reflexivity.
    + intros h0 Hne. rewrite lookup_insert_ne by congruence. reflexivity.
    + intros k' Hne. rewrite lookup_insert_ne by congruence. reflexivity.
    + intros r0 Hne. rewrite lookup_alter_ne, lookup_insert_ne by congruence. reflexivity.
    + intros k' r0 Hne Hk' ->. destruct (W1 k' _ Hk'). lia.
Qed.

(** The release of a live handle of [on]. *)
Lemma fd_dispose_live h r f w :
  w_handles w !! h = Some (mkH false (CDelete r f)) ->
  fd_dispose h w =
    (Ok tt, set_handles (<[h := mkH true (CDelete r f)]>)
              (set_sets (alter (js_set_delete f) r) w)).
Proof.
  intros Hh. unfold fd_dispose, mbind, M_bind, get, modify. rewrite Hh. reflexivity.
Qed.

Lemma fd_dispose_done h c w :
  w_handles w !! h = Some (mkH true c) ->
  fd_dispose h w = (Ok tt, log_ev (TWarn msg_fd_twice) w).
Proof. intros Hh. unfold fd_dispose, mbind, M_bind, get, tell, modify. rewrite Hh. reflexivity. Qed.

(** Registration followed by the release of the returned handle. *)
Lemma on_then_release k f w h w1 r w2 :
  wf w -> w_disposed w = false ->
  on k f w = (Ok h, w1) -> fd_dispose h w1 = (r, w2) ->
  r = Ok tt /\
  collection w2 k = js_set_delete f (collection w k) /\
  (forall k', k' <> k -> collection w2 k' = collection w k') /\
  w_handles w2 !! h = Some (mkH true (CDelete (default 0 (w_events w1 !! k)) f)) /\
  w_next w2 = w_next w1 /\ w_disposed w2 = false.
Proof.
  intros Hw Hd Hon Hfd.
  destruct (on_spec k f w _ _ Hw Hd Hon)
    as (rs & h' & Eh & _ & Ek & Es & _ & Hh & _ & Ek' & Es' & Hr & Hd1 & _).
  inversion Eh; subst h'; clear Eh.
  rewrite fd_dispose_live with (r := rs) (f := f) in Hfd by exact Hh.
  inversion Hfd; subst; clear Hfd.
  split_and!; auto.
  - unfold collection; simpl. rewrite Ek, lookup_alter_eq, Es. simpl.
    apply js_set_delete_add.
  - intros k' Hne. unfold collection; simpl. rewrite Ek' by exact Hne.
    destruct (w_events w !! k') as [r0|] eqn:E0; [|reflexivity].
    rewrite lookup_alter_ne by (apply not_eq_sym; eapply Hr; eassumption).
    rewrite Es' by (eapply Hr; eassumption). reflexivity.
  - simpl. rewrite lookup_insert_eq, Ek. reflexivity.
Qed.

Lemma fd_dispose_set_wraps h g w :
  fd_dispose h (set_wraps g w) = (fst (fd_dispose h w), set_wraps g (snd (fd_dispose h w))).
Proof.
  unfold fd_dispose, mbind, M_bind, get, tell, modify, mret, M_ret, throw. simpl.
  destruct (w_handles w !! h) as [[[] [r f|t []]]|]; reflexivity.
Qed.

Lemma collection_set_wraps g w k : collection (set_wraps g w) k = collection w k.
Proof. reflexivity. Qed.

(** [once] computed: the wrapper gets the next identity, then [on]. *)
Lemma once_eq k l w :
  once k l w =
  match on k (FWrap l (w_next w)) (bump_next w) with
  | (Ok h, w') => (Ok h, set_wraps (<[w_next w := h]>) w')
  | (Err e, w') => (Err e, w')
  | (OutOfFuel, w') => (OutOfFuel, w')
  end.
Proof.
  unfold once, mbind, M_bind, fresh, modify, mret, M_ret.
  destruct (on k (FWrap l (w_next w)) (bump_next w)) as [[]]; reflexivity.
Qed.

Lemma wf_bump w : wf w -> wf (bump_next w).
Proof. apply WF_frame; simpl; auto. Qed.

Lemma wf_collection_wrap w k l u : wf w -> FWrap l u ∈ collection w k -> u < w_next w.
Proof.
  intros (_ & _ & _ & _ & W5). unfold collection.
  destruct (w_events w !! k) as [r|]; [|intros H; apply elem_of_nil in H; contradiction].
  destruct (w_sets w !! r) as [fs|] eqn:E; simpl; [|intros H; apply elem_of_nil in H; contradiction].
  intros H. eapply W5; eassumption.
Qed.

(** ** X2
    [on(event, listener)] on a live, well-formed bus returns a new handle,
    adds the listener at the end of the key's collection unless it is
    already there (a [Set] keeps one copy), and leaves every other key's
    collection as it was. *)
Theorem on_registers k f w r w' :
  wf w -> w_disposed w = false -> on k f w = (r, w') ->
  exists h, r = Ok h /\ w_handles w !! h = None /\
    (exists rs, w_handles w' !! h = Some (mkH false (CDelete rs f))) /\
    collection w' k = js_set_add f (collection w k) /\
    (forall k', k' <> k -> collection w' k' = collection w k').
Proof.
  intros Hw Hd H.
  destruct (on_spec k f w _ _ Hw Hd H)
    as (rs & h & -> & _ & Ek & Es & Hn & Hh & _ & Ek' & Es' & Hr & _ & _).
  exists h. split_and!; [reflexivity| | exists rs; exact Hh | |].
  - destruct (w_handles w !! h) as [hd|] eqn:E; [|reflexivity].
    destruct Hw as (_ & _ & _ & W4 & _). pose proof (W4 h hd E). lia.
  - unfold collection at 1. rewrite Ek, Es. reflexivity.
  - intros k' Hne. apply collection_frame; [apply Ek'; exact Hne|].
    intros r0 E0. apply Es'. eapply Hr; eassumption.
Qed.

(** ** X3
    Releasing the handle that [on(event, listener)] returned removes the
    listener from that key's collection, leaves the other keys alone, and
    restores the collection when the listener was not registered before; a
    second release only warns.  (When the same function was registered
    twice, the [Set] holds it once and either handle removes it.) *)
Theorem on_release_roundtrip k f w h w1 r w2 :
  wf w -> w_disposed w = false ->
  on k f w = (Ok h, w1) -> fd_dispose h w1 = (r, w2) ->
  r = Ok tt /\
  collection w2 k = js_set_delete f (collection w k) /\
  (f ∉ collection w k -> collection w2 k = collection w k) /\
  (forall k', k' <> k -> collection w2 k' = collection w k') /\
  fd_dispose h w2 = (Ok tt, log_ev (TWarn msg_fd_twice) w2).
Proof.
  intros Hw Hd Hon Hfd.
  destruct (on_then_release k f w h w1 r w2 Hw Hd Hon Hfd) as (Hr & Hc & Ho & Hh & _ & _).
  split_and!; auto.
  - intros Hf. rewrite Hc. apply js_set_delete_notin. exact Hf.
  - eapply fd_dispose_done. exact Hh.
Qed.

(** ** X4
    Releasing the handle returned by [once(event, listener)] before any
    emission cancels it: every key's collection is back to what it was
    before the [once] call. *)
Theorem once_release_cancels k l w h w1 r w2 :
  wf w -> w_disposed w = false ->
  once k l w = (Ok h, w1) -> fd_dispose h w1 = (r, w2) ->
  r = Ok tt /\ forall k', collection w2 k' = collection w k'.
Proof.
  intros Hw Hd Ho Hfd. rewrite once_eq in Ho.
  destruct (on k (FWrap l (w_next w)) (bump_next w)) as [[h0|e|] w0] eqn:Eon;
    inversion Ho; subst; clear Ho.
  change (fd_dispose h (set_wraps (<[w_next w := h]>) w0) = (r, w2)) in Hfd.
  rewrite fd_dispose_set_wraps in Hfd.
  destruct (fd_dispose h w0) as [r' w2'] eqn:Efd. inversion Hfd; subst; clear Hfd.
  destruct (on_then_release k _ (bump_next w) h w0 r w2' (wf_bump w Hw) Hd Eon Efd)
    as (Hr & Hc & Hot & _ & _ & _).
  split; [exact Hr|]. intros k'. change (collection w2' k' = collection w k').
  destruct (decide (k' = k)) as [->|Hne]; [|apply Hot; exact Hne].
  rewrite Hc. apply js_set_delete_notin. intros Hin.
  apply (wf_collection_wrap w k l (w_next w) Hw) in Hin. lia.
Qed.

(** ** X5
    [dispose(event)] for a non-empty key empties that key's collection,
    leaves the other keys and the bus live; a later [on] for the key starts
    a new set, and a handle returned by an [on] before the [dispose] no
    longer removes anything: it closes over the old set, even when the same
    function is registered again. *)
Theorem dispose_key_stale_handle k lf lg w h w1 r2 w2 r3 w3 r4 w4 :
  wf w -> w_disposed w = false -> k <> ""%string ->
  on k (FUser lf) w = (Ok h, w1) -> dispose (Some k) w1 = (r2, w2) ->
  on k (FUser lg) w2 = (r3, w3) -> fd_dispose h w3 = (r4, w4) ->
  r2 = Ok tt /\ collection w2 k = [] /\
  (forall k', k' <> k -> collection w2 k' = collection w1 k') /\
  w_disposed w2 = false /\
  (exists h', r3 = Ok h') /\ collection w3 k = [FUser lg] /\
  r4 = Ok tt /\ collection w4 k = [FUser lg].
Proof.
  intros Hw Hd Hk Hon1 Hdisp Hon2 Hfd.
  destruct (on_spec k _ w _ _ Hw Hd Hon1)
    as (rs & h0 & E0 & _ & _ & _ & _ & Hh1 & _ & _ & _ & _ & Hd1 & _).
  inversion E0; subst h0; clear E0.
  assert (Hw1 : wf w1) by (eapply (wf_on_from k (FUser lf) w); [discriminate|exact Hon1|exact Hw]).
  rewrite dispose_key_frame in Hdisp by assumption.
  inversion Hdisp; subst; clear Hdisp.
  set (w2 := set_events (delete k) w1) in *.
  assert (Hw2 : wf w2) by (eapply wf_dispose; [|exact Hw1]; apply dispose_key_frame; assumption).
  assert (Ek2 : w_events w2 !! k = None) by (simpl; apply lookup_delete_eq).
  assert (Hd2 : w_disposed w2 = false) by exact Hd1.
  destruct (on_spec k _ w2 _ _ Hw2 Hd2 Hon2)
    as (rs2 & h' & -> & Hcase & Ek3 & Es3 & Hn3 & _ & Hh3 & _ & Es3' & _ & _ & _).
  assert (Hrs2 : rs2 = w_next w2) by (destruct Hcase as [E|[_ E]]; [congruence|exact E]).
  assert (Hc2 : collection w2 k = []) by (unfold collection; rewrite Ek2; reflexivity).
  destruct Hw1 as (W1 & W2 & W3 & W4 & W5).
  assert (Hne : h <> h') by (pose proof (W4 h _ Hh1); simpl in Hn3; lia).
  assert (Hrs : rs <> rs2) by (pose proof (W3 h _ rs _ Hh1 eq_refl); subst rs2; simpl; lia).
  assert (Hh3' : w_handles w3 !! h = Some (mkH false (CDelete rs (FUser lf))))
    by (rewrite Hh3 by exact Hne; exact Hh1).
  rewrite fd_dispose_live with (r := rs) (f := FUser lf) in Hfd by exact Hh3'.
  inversion Hfd; subst; clear Hfd.
  split_and!; auto.
  - intros k' Hk'. unfold collection; simpl. rewrite lookup_delete_ne by congruence. reflexivity.
  - eexists; reflexivity.
  - unfold collection. rewrite Ek3, Es3, Hc2. reflexivity.
  - unfold collection; simpl. rewrite Ek3, lookup_alter_ne by exact Hrs.
    rewrite Es3, Hc2. reflexivity.
Qed.

(** ** The firing set *)

(** A property of every run that does not exhaust the interpreter's budget. *)
Definition pres_nf_from {A} (R : world -> world -> Prop) (w : world) (m : M A) :=
  forall r w', m w = (r, w') -> r <> OutOfFuel -> R w w'.

Definition pres_nf {A} (R : world -> world -> Prop) (m : M A) :=
  forall w, pres_nf_from R w m.

Section PresNf.

Context {R : world -> world -> Prop} `{!PreOrder R}.

Lemma pres_nf_of {A} (m : M A) : pres R m -> pres_nf R m.
Proof. intros Hm w r w' H _. eapply Hm; exact H. Qed.

Lemma pres_nf_from_bind {A B} w (m : M A) (f : A -> M B) :
  pres_nf_from R w m ->
  (forall a w1, m w = (Ok a, w1) -> pres_nf_from R w1 (f a)) ->
  pres_nf_from R w (m ≫= f).
Proof.
  intros Hm Hf r w' H Hr. unfold mbind, M_bind in H.
  destruct (m w) as [[a|e|] w1] eqn:E.
  - etransitivity; [eapply Hm; [exact E|discriminate]|]. eapply Hf; eauto.
  - inversion H; subst. eapply Hm; [exact E|discriminate].
  - inversion H; subst. contradiction.
Qed.

Lemma pres_nf_bind {A B} (m : M A) (f : A -> M B) :
  pres_nf R m -> (forall a, pres_nf R (f a)) -> pres_nf R (m ≫= f).
Proof. intros Hm Hf w. apply pres_nf_from_bind; [apply Hm|intros; apply Hf]. Qed.

Lemma pres_nf_get_bind {B} (f : world -> M B) :
  (forall w, pres_nf_from R w (f w)) -> pres_nf R (get ≫= f).
Proof.
  intros Hf w. apply pres_nf_from_bind; [intros r w' H _; inversion H; subst; reflexivity|].
  intros a w1 H. inversion H; subst. apply Hf.
Qed.

Lemma pres_nf_catch m h : pres_nf R m -> (forall e, pres_nf R (h e)) -> pres_nf R (catch m h).
Proof.
  intros Hm Hh w r w' H Hr. unfold catch in H.
  destruct (m w) as [[a|e|] w1] eqn:E.
  - inversion H; subst. eapply Hm; [exact E|discriminate].
  - etransitivity; [eapply Hm; [exact E|discriminate]|]. eapply Hh; eauto.
  - inversion H; subst. contradiction.
Qed.

End PresNf.

Definition Fq (w w' : world) : Prop := w_firing w' = w_firing w.

#[global] Instance Fq_preorder : PreOrder Fq.
Proof. split; [intros w; reflexivity|intros ??? H1 H2; unfold Fq in *; congruence]. Qed.

Ltac frame_fq := intros ?; reflexivity.

Lemma fq_fd_dispose h : pres Fq (fd_dispose h).
Proof.
  unfold fd_dispose. apply pres_get_bind. intros w.
  destruct (w_handles w !! h) as [hd|]; [|apply pres_ret].
  destruct (h_disposed hd); [apply pres_modify; frame_fq|].
  apply pres_bind; [|intros _; apply pres_modify; frame_fq].
  destruct (h_fn hd) as [r f|t b]; simpl; [apply pres_modify; frame_fq|].
  apply pres_bind; [apply pres_modify; frame_fq|intros _].
  destruct b; [apply pres_throw|apply pres_ret].
Qed.

Lemma fq_checkDisposed : pres Fq checkDisposed.
Proof.
  unfold checkDisposed. apply pres_get_bind. intros w.
  destruct (w_disposed w); [apply pres_throw|apply pres_ret].
Qed.

Lemma fq_on k f : pres Fq (on k f).
Proof.
  intros w r w' H. destruct (w_disposed w) eqn:Hd.
  - rewrite on_disposed in H by exact Hd. inversion H; subst. reflexivity.
  - rewrite on_step in H by exact Hd. destruct (w_events w !! k); inversion H; subst; reflexivity.
Qed.

Lemma fq_once k l : pres Fq (once k l).
Proof.
  unfold once. apply pres_bind; [apply pres_fresh; frame_fq|intros u].
  apply pres_bind; [apply fq_on|intros h].
  apply pres_bind; [apply pres_modify; frame_fq|intros _; apply pres_ret].
Qed.

Lemma fq_dispose ok : pres Fq (dispose ok).
Proof.
  unfold dispose. apply pres_bind; [apply fq_checkDisposed|intros _].
  destruct (js_truthy_key ok); [apply pres_modify; frame_fq|].
  apply pres_bind; [apply pres_modify; frame_fq|intros _; apply pres_modify; frame_fq].
Qed.

Section FiringDispatch.

Variable callf : fnv -> args -> M unit.
Hypothesis callf_fq : forall f a, pres_nf Fq (callf f a).

Lemma fq_invoke_loop k snap a : pres_nf Fq (invoke_loop callf k snap a).
Proof.
  induction snap as [|f fs IH]; simpl; [apply pres_nf_of, pres_ret|].
  apply pres_nf_bind; [apply pres_nf_of, pres_modify; frame_fq|intros _].
  apply pres_nf_bind; [|intros _; exact IH].
  apply pres_nf_catch; [apply callf_fq|intros e; apply pres_nf_of, pres_modify; frame_fq].
Qed.

(** The [finally] of [invoke] undoes its [_firing.add]. *)
Lemma fq_invoke k snap a w :
  k ∉ w_firing w -> pres_nf_from Fq w (invoke callf k snap a).
Proof.
  intros Hk r w' H Hr. unfold invoke, mbind, M_bind, modify, try_finally in H.
  set (w1 := set_firing (fun s => {[k]} ∪ s) w) in H.
  destruct (invoke_loop callf k snap a w1) as [r2 w2] eqn:E.
  assert (Hr2 : r2 <> OutOfFuel) by (destruct r2; inversion H; subst; congruence).
  pose proof (fq_invoke_loop k snap a w1 r2 w2 E Hr2) as F2. unfold Fq in F2.
  destruct r2; inversion H; subst; unfold Fq; simpl; rewrite F2; simpl;
    (apply leibniz_equiv; set_solver) || contradiction.
Qed.

Lemma fq_emit k a : pres_nf Fq (emit callf k a).
Proof.
  unfold emit. apply pres_nf_bind; [apply pres_nf_of, fq_checkDisposed|intros _].
  apply pres_nf_get_bind. intros w.
  destruct (decide (k ∈ w_firing w)) as [Hk|Hk];
    [apply pres_nf_of; apply pres_modify; frame_fq|].
  destruct (w_events w !! k) as [r|]; [|apply pres_nf_of, pres_ret].
  destruct (default [] (w_sets w !! r)) as [|f fs]; [apply pres_nf_of, pres_ret|].
  destruct (w_sync w); [apply fq_invoke; exact Hk|apply pres_nf_of, pres_modify; frame_fq].
Qed.

Lemma fq_exec_cmds cs : pres_nf Fq (exec_cmds callf cs).
Proof.
  induction cs as [|c cs IH]; simpl; [apply pres_nf_of, pres_ret|].
  apply pres_nf_bind; [|intros _; apply IH].
  destruct c; simpl.
  - apply fq_emit.
  - apply pres_nf_of, pres_bind; [apply fq_on|intros _; apply pres_ret].
  - apply pres_nf_of, pres_bind; [apply fq_once|intros _; apply pres_ret].
  - apply pres_nf_of, fq_fd_dispose.
  - apply pres_nf_of, fq_dispose.
  - apply pres_nf_of, pres_throw.
Qed.

End FiringDispatch.

Lemma fq_call body n : forall f a, pres_nf Fq (call body n f a).
Proof.
  induction n as [|n IH]; intros f a; simpl; [apply pres_nf_of, pres_fuel|].
  destruct f as [l|l u].
  - apply pres_nf_bind; [apply pres_nf_of, pres_modify; frame_fq|intros _].
    apply fq_exec_cmds. exact IH.
  - apply pres_nf_bind; [apply IH|intros _].
    apply pres_nf_get_bind. intros w. apply pres_nf_of.
    destruct (w_wraps w !! u); [apply fq_fd_dispose|apply pres_ret].
Qed.

Definition Fe (w w' : world) : Prop := w_firing w = ∅ -> w_firing w' = ∅.

#[global] Instance Fe_preorder : PreOrder Fe.
Proof. split; [intros w H; exact H|intros ??? H1 H2 H; auto]. Qed.

Lemma fe_drain body m n : pres_nf Fe (drain body m n).
Proof.
  induction m as [|m IH]; simpl; [apply pres_nf_of, pres_fuel|].
  apply pres_nf_get_bind. intros w.
  destruct (w_queue w) as [|t q]; [apply pres_nf_of, pres_ret|].
  apply pres_nf_from_bind; [apply pres_nf_of; apply pres_modify; intros w0 H; exact H|].
  intros _ w0 _. apply pres_nf_from_bind; [|intros; apply IH].
  intros r w' H Hr Hempty.
  assert (Hk : t_key t ∉ w_firing w0) by (rewrite Hempty; set_solver).
  pose proof (fq_invoke (call body n) (fq_call body n) _ _ _ w0 Hk r w' H Hr) as F.
  unfold Fq in F. rewrite F. exact Hempty.
Qed.

(** ** X6
    Every [invoke]'s [finally] takes its key out of [_firing] again: a
    listener call or a script of calls that completes, normally or by
    throwing, leaves the firing set as it found it, and the microtask
    checkpoint, and so a whole top-level script with its checkpoint, leaves
    an empty firing set empty.  So no key is left marked as firing and
    spuriously refused as recursive afterwards. *)
Theorem firing_restored :
  (forall body n f a w r w', call body n f a w = (r, w') -> r <> OutOfFuel ->
     w_firing w' = w_firing w) /\
  (forall body n cs w r w', exec_cmds (call body n) cs w = (r, w') -> r <> OutOfFuel ->
     w_firing w' = w_firing w) /\
  (forall body m n w r w', w_firing w = ∅ -> drain body m n w = (r, w') -> r <> OutOfFuel ->
     w_firing w' = ∅) /\
  (forall body n cs w r w', w_firing w = ∅ -> run_top body n cs w = (r, w') -> r <> OutOfFuel ->
     w_firing w' = ∅).
Proof.
  split_and!.
  - intros body n f a w r w' H Hr. exact (fq_call body n f a w r w' H Hr).
  - intros body n cs w r w' H Hr. exact (fq_exec_cmds _ (fq_call body n) cs w r w' H Hr).
  - intros body m n w r w' He H Hr. exact (fe_drain body m n w r w' H Hr He).
  - intros body n cs w r w' He H Hr. unfold run_top in H.
    assert (Hx : pres_nf Fe (exec_cmds (call body n) cs ;; drain body n n)).
    { apply pres_nf_bind; [|intros _; apply fe_drain].
      intros w0 r0 w0' H0 Hr0 He0. rewrite (fq_exec_cmds _ (fq_call body n) cs w0 r0 w0' H0 Hr0).
      exact He0. }
    exact (Hx w r w' H Hr He).
Qed.

(** ** The microtask checkpoint of a deferred bus *)

(** Every listener call in a trace, with its key and arguments. *)
Definition allcalls (t : list ev) : list (key * fnv * args) :=
  omap (fun e => match e with TCall k f a => Some (k, f, a) | _ => None end) t.


(** An operation keeps the mode, only appends to the microtask queue, only
    extends the trace, and on a deferred bus calls no listener. *)
Definition Dq (w w' : world) : Prop :=
  w_sync w' = w_sync w /\ (exists q', w_queue w' = w_queue w ++ q') /\
  exists ext, w_trace w' = ext ++ w_trace w /\ (w_sync w = false -> allcalls ext = []).

Lemma Dq_refl w : Dq w w.
Proof.
  split; [reflexivity|split; [exists []; rewrite app_nil_r; reflexivity|]].
  exists []. split; reflexivity.
Qed.

Lemma Dq_trans w1 w2 w3 : Dq w1 w2 -> Dq w2 w3 -> Dq w1 w3.
Proof.
  intros (S1 & [q1 Q1] & e1 & T1 & C1) (S2 & [q2 Q2] & e2 & T2 & C2).
  split; [congruence|split].
  - exists (q1 ++ q2). rewrite Q2, Q1, app_assoc. reflexivity.
  - exists (e2 ++ e1). split; [rewrite T2, T1, app_assoc; reflexivity|].
    intros Hs. unfold allcalls in *. rewrite omap_app.
    rewrite C1 by exact Hs. rewrite C2 by congruence. reflexivity.
Qed.

#[global] Instance Dq_preorder : PreOrder Dq.
Proof. split; [intros w; apply Dq_refl|intros ???; apply Dq_trans]. Qed.











(** [Dq] from a synchronous world: listener calls are allowed there. *)
Definition Dq_s (w w' : world) : Prop := w_sync w = true -> Dq w w'.

#[global] Instance Dq_s_preorder : PreOrder Dq_s.
Proof.
  split; [intros w _; apply Dq_refl|].
  intros w1 w2 w3 H1 H2 Hs. pose proof (H1 Hs) as D1.
  apply (Dq_trans _ w2); [exact D1|apply H2]. destruct D1 as [S1 _]. congruence.
Qed.



Section DeferredDispatch.

Variable callf : fnv -> args -> M unit.
Hypothesis callf_dq : forall f a, pres Dq (callf f a).






End DeferredDispatch.



(** ** Listeners scoped to a store *)

Lemma on_frame k f w r w' :
  on k f w = (r, w') ->
  w_stores w' = w_stores w /\ w_trace w' = w_trace w /\ w_wraps w' = w_wraps w.
Proof.
  intros H. destruct (w_disposed w) eqn:Hd.
  - rewrite on_disposed in H by exact Hd. inversion H; subst. auto.
  - rewrite on_step in H by exact Hd. destruct (w_events w !! k); inversion H; subst; auto.
Qed.

(** The release of the handle of an [on], in any state that agrees with the
    one [on] left on the listeners and the handles. *)
Lemma on_release_in k f w h w1 w1' :
  wf w -> w_disposed w = false -> on k f w = (Ok h, w1) ->
  w_events w1' = w_events w1 -> w_sets w1' = w_sets w1 -> w_handles w1' = w_handles w1 ->
  exists rs, fd_dispose h w1' =
    (Ok tt, set_handles (<[h := mkH true (CDelete rs f)]>)
              (set_sets (alter (js_set_delete f) rs) w1')) /\
    collection (set_sets (alter (js_set_delete f) rs) w1') k = js_set_delete f (collection w k) /\
    (forall k', k' <> k ->
       collection (set_sets (alter (js_set_delete f) rs) w1') k' = collection w k').
Proof.
  intros Hw Hd Hon HE HS HH.
  destruct (on_spec k f w _ _ Hw Hd Hon)
    as (rs & h' & Eh & _ & Ek & Es & _ & Hh & _ & Ek' & Es' & Hr & _ & _).
  inversion Eh; subst h'; clear Eh.
  exists rs. split_and!.
  - apply fd_dispose_live. rewrite HH. exact Hh.
  - unfold collection; simpl. rewrite HE, HS, Ek, lookup_alter_eq, Es. simpl.
    apply js_set_delete_add.
  - intros k' Hne. unfold collection; simpl. rewrite HE, HS, Ek' by exact Hne.
    destruct (w_events w !! k') as [r0|] eqn:E0; [|reflexivity].
    rewrite lookup_alter_ne by (apply not_eq_sym; eapply Hr; eassumption).
    rewrite Es' by (eapply Hr; eassumption). reflexivity.
Qed.

Lemma store_add_live n s d items w :
  d <> DS s -> w_stores w !! s = Some (mkS items false) ->
  store_add n s d w = (Ok d, set_stores (<[s := mkS (js_set_add d items) false]>) w).
Proof.
  intros Hd Hs. unfold store_add. rewrite decide_False by exact Hd.
  unfold mbind, M_bind, get, modify, mret, M_ret. rewrite Hs. reflexivity.
Qed.

Lemma store_add_handle_retired n s h items w w' :
  w_stores w !! s = Some (mkS items true) ->
  fd_dispose h (log_ev (TWarn msg_store_add) w) = (Ok tt, w') ->
  store_add (S n) s (DH h) w = (Ok (DH h), w').
Proof.
  intros Hs Hfd. unfold store_add. rewrite decide_False by discriminate.
  unfold mbind at 1, M_bind at 1, get. rewrite Hs. simpl.
  unfold mbind, M_bind, tell, modify, mret, M_ret. rewrite Hfd. reflexivity.
Qed.

Lemma store_dispose_live n s items w :
  w_stores w !! s = Some (mkS items false) ->
  store_dispose n s w =
    (forEach items (dispose_ref n) ;; modify (set_stores (<[s := mkS [] true]>))) w.
Proof.
  intros Hs. unfold store_dispose. simpl.
  unfold store_dispose_with, mbind at 1, M_bind at 1, get. rewrite Hs. reflexivity.
Qed.

(** ** X8
    [scoped(event, listener, store)] on a live, well-formed bus registers the
    listener and hands its handle to the store.  With a new, empty store,
    disposing the store later removes the listener from the key's
    collection, leaves the other keys alone and retires the store; with a
    store that is already disposed, [add] warns and releases the handle at
    once, so the call leaves every collection without the listener and the
    store as it was. *)
Theorem scoped_store_lifetime n n' k f s w :
  wf w -> w_disposed w = false ->
  (forall r1 w1 r2 w2,
     w_stores w !! s = Some (mkS [] false) ->
     scoped n k f s w = (r1, w1) -> store_dispose (S n') s w1 = (r2, w2) ->
     r1 = Ok tt /\ collection w1 k = js_set_add f (collection w k) /\
     r2 = Ok tt /\ collection w2 k = js_set_delete f (collection w k) /\
     (forall k', k' <> k -> collection w2 k' = collection w k') /\
     w_stores w2 !! s = Some (mkS [] true)) /\
  (forall items r1 w1,
     w_stores w !! s = Some (mkS items true) ->
     scoped (S n) k f s w = (r1, w1) ->
     r1 = Ok tt /\ collection w1 k = js_set_delete f (collection w k) /\
     (forall k', k' <> k -> collection w1 k' = collection w k') /\
     w_stores w1 = w_stores w /\ w_trace w1 = TWarn msg_store_add :: w_trace w).
Proof.
  intros Hw Hd. unfold scoped.
  destruct (on k f w) as [r0 w0] eqn:Hon.
  destruct (on_spec k f w _ _ Hw Hd Hon)
    as (rs & h & -> & _ & Ek & Es & _ & Hh & _ & _ & _ & _ & _ & _).
  destruct (on_frame k f w _ _ Hon) as (HS0 & HT0 & _).
  split.
  - intros r1 w1 r2 w2 Hs Hsc Hsd.
    unfold mbind at 1, M_bind at 1 in Hsc. rewrite Hon in Hsc.
    unfold mbind, M_bind in Hsc.
    rewrite (store_add_live n s (DH h) []) in Hsc by (try discriminate; rewrite HS0; exact Hs).
    inversion Hsc; subst; clear Hsc.
    change (store_dispose (S n') s (set_stores (<[s := mkS [DH h] false]>) w0) = (r2, w2)) in Hsd.
    set (w1 := set_stores (<[s := mkS [DH h] false]>) w0) in Hsd.
    destruct (on_release_in k f w h w0 w1 Hw Hd Hon eq_refl eq_refl eq_refl)
      as (rs' & Hfd & Hc & Hc').
    rewrite store_dispose_live with (items := [DH h]) in Hsd by (unfold w1; simpl; apply lookup_insert_eq).
    change (forEach [DH h] (dispose_ref (S n'))) with (fd_dispose h ;; mret tt) in Hsd. unfold mbind, M_bind in Hsd. rewrite Hfd in Hsd.
    unfold mret, M_ret, modify in Hsd. inversion Hsd; subst; clear Hsd.
    split_and!; [reflexivity| |reflexivity|exact Hc|exact Hc'|].
    + unfold collection; simpl. rewrite Ek, Es. reflexivity.
    + simpl. apply lookup_insert_eq.
  - intros items r1 w1 Hs Hsc.
    unfold mbind at 1, M_bind at 1 in Hsc. rewrite Hon in Hsc.
    unfold mbind, M_bind in Hsc.
    destruct (on_release_in k f w h w0 (log_ev (TWarn msg_store_add) w0) Hw Hd Hon
                eq_refl eq_refl eq_refl) as (rs' & Hfd & Hc & Hc').
    rewrite (store_add_handle_retired n s h items _ _) in Hsc by (try rewrite HS0; eassumption).
    simpl in Hsc. inversion Hsc; subst; clear Hsc.
    split_and!; [reflexivity|exact Hc|exact Hc'|exact HS0|simpl; rewrite HT0; reflexivity].
Qed.

(** ** Clean-up functions *)

(** The release of a live handle of [toDisposable]. *)
Lemma fd_dispose_user h t b w :
  w_handles w !! h = Some (mkH false (CUser t b)) ->
  fd_dispose h w =
    if b then (Err UserThrow, log_ev (TRan t) w)
    else (Ok tt, set_handles (<[h := mkH true (CUser t false)]>) (log_ev (TRan t) w)).
Proof.
  intros Hh. unfold fd_dispose, mbind, M_bind, get, tell, modify, mret, M_ret, throw.
  rewrite Hh. simpl. destruct b; reflexivity.
Qed.

Lemma toDisposable_eq t b w :
  toDisposable t b w =
    (Ok (w_next w), set_handles (<[w_next w := mkH false (CUser t b)]>) (bump_next w)).
Proof. reflexivity. Qed.

(** ** X9
    [toDisposable(fn)] on a well-formed state returns a new disposable and
    runs nothing yet.  When [fn] returns normally, the first [dispose()]
    runs it once and marks the disposable, and a second [dispose()] only
    warns.  When [fn] throws, [_isDisposed] is never set: every [dispose()]
    runs [fn] again and rethrows, leaving the disposable as it was. *)
Theorem toDisposable_dispose t b w h w1 :
  wf w -> toDisposable t b w = (Ok h, w1) ->
  w_handles w !! h = None /\ w_trace w1 = w_trace w /\
  (b = false -> forall r w2, fd_dispose h w1 = (r, w2) ->
     r = Ok tt /\ w_trace w2 = TRan t :: w_trace w1 /\
     fd_dispose h w2 = (Ok tt, log_ev (TWarn msg_fd_twice) w2)) /\
  (b = true -> forall w', w_handles w' !! h = w_handles w1 !! h ->
     fd_dispose h w' = (Err UserThrow, log_ev (TRan t) w') /\
     w_handles (log_ev (TRan t) w') !! h = w_handles w1 !! h).
Proof.
  intros Hw H. rewrite toDisposable_eq in H. inversion H; subst; clear H.
  assert (Hh : w_handles (set_handles (<[w_next w := mkH false (CUser t b)]>) (bump_next w))
                 !! w_next w = Some (mkH false (CUser t b))) by (simpl; apply lookup_insert_eq).
  split_and!.
  - destruct (w_handles w !! w_next w) as [hd|] eqn:E; [|reflexivity].
    destruct Hw as (_ & _ & _ & W4 & _). pose proof (W4 _ hd E). lia.
  - reflexivity.
  - intros -> r w2 Hfd. rewrite fd_dispose_user with (t := t) (b := false) in Hfd by exact Hh.
    inversion Hfd; subst; clear Hfd. split_and!; [reflexivity|reflexivity|].
    apply (fd_dispose_done _ (CUser t false)). simpl. apply lookup_insert_eq.
  - intros -> w' Hw'. simpl in Hw'. rewrite lookup_insert_eq in Hw'.
    split; [|simpl; rewrite Hw', lookup_insert_eq; reflexivity].
    rewrite fd_dispose_user with (t := t) (b := true) by exact Hw'. reflexivity.
Qed.

(** ** Releasing a store *)

Lemma Forall2_impl_in {A B} (P Q : A -> B -> Prop) l1 l2 :
  Forall2 P l1 l2 -> (forall x y, x ∈ l1 -> P x y -> Q x y) -> Forall2 Q l1 l2.
Proof.
  induction 1 as [|x y l1 l2 Hxy _ IH]; intros HQ; constructor.
  - apply HQ; [left|exact Hxy].
  - apply IH. intros x' y' Hin. apply HQ. right. exact Hin.
Qed.

(** The loop of [DisposableStore.dispose] over live, non-throwing handles of
    [toDisposable]. *)
Lemma forEach_user_handles n hs ts w :
  NoDup hs ->
  Forall2 (fun h t => w_handles w !! h = Some (mkH false (CUser t false))) hs ts ->
  exists w', forEach (map DH hs) (dispose_ref (S n)) w = (Ok tt, w') /\
    w_trace w' = reverse (map TRan ts) ++ w_trace w /\
    Forall2 (fun h t => w_handles w' !! h = Some (mkH true (CUser t false))) hs ts /\
    (forall h, h ∉ hs -> w_handles w' !! h = w_handles w !! h) /\
    w_stores w' = w_stores w.
Proof.
  revert ts w. induction hs as [|h hs IH]; intros ts w Hnd Hf.
  - inversion Hf; subst. exists w. split_and!; auto.
  - inversion Hf as [|? t ? ts' Hh Hf']; subst. inversion Hnd as [|? ? Hnin Hnd']; subst.
    set (w1 := set_handles (<[h := mkH true (CUser t false)]>) (log_ev (TRan t) w)).
    assert (E1 : dispose_ref (S n) (DH h) w = (Ok tt, w1))
      by (simpl; rewrite fd_dispose_user with (t := t) (b := false) by exact Hh; reflexivity).
    assert (Hf1 : Forall2 (fun h t => w_handles w1 !! h = Some (mkH false (CUser t false))) hs ts').
    { apply (Forall2_impl_in _ _ _ _ Hf'). intros h' t' Hin Hx.
      simpl. rewrite lookup_insert_ne by (intros ->; contradiction). exact Hx. }
    destruct (IH ts' w1 Hnd' Hf1) as (w' & E' & T' & M' & F' & S').
    exists w'. split_and!.
    + change ((dispose_ref (S n) (DH h) ≫= (fun _ => forEach (map DH hs) (dispose_ref (S n)))) w
              = (Ok tt, w')).
      unfold mbind at 1, M_bind at 1. rewrite E1. exact E'.
    + rewrite T'. simpl. rewrite reverse_cons, <- app_assoc. reflexivity.
    + constructor; [|exact M'].
      rewrite F' by exact Hnin. simpl. apply lookup_insert_eq.
    + intros h0 Hh0. rewrite F' by (intros Hin; apply Hh0; right; exact Hin).
      simpl. rewrite lookup_insert_ne by (intros ->; apply Hh0; left). reflexivity.
    + rewrite S'. reflexivity.
Qed.

(** ** X10
    [DisposableStore.dispose()] on a live store holding distinct disposables
    of [toDisposable] whose functions return normally runs each function
    once, in the order the items were added, marks every item disposed,
    empties and retires the store; a second [dispose()] only warns. *)
Theorem store_dispose_in_order n s hs ts w r w' :
  w_stores w !! s = Some (mkS (map DH hs) false) -> NoDup hs ->
  Forall2 (fun h t => w_handles w !! h = Some (mkH false (CUser t false))) hs ts ->
  store_dispose (S n) s w = (r, w') ->
  r = Ok tt /\ w_trace w' = reverse (map TRan ts) ++ w_trace w /\
  Forall2 (fun h t => w_handles w' !! h = Some (mkH true (CUser t false))) hs ts /\
  w_stores w' !! s = Some (mkS [] true) /\
  store_dispose (S n) s w' = (Ok tt, log_ev (TWarn msg_store_twice) w').
Proof.
  intros Hs Hnd Hf H.
  rewrite store_dispose_live with (items := map DH hs) in H by exact Hs.
  destruct (forEach_user_handles n hs ts w Hnd Hf) as (w1 & E1 & T1 & M1 & _ & S1).
  unfold mbind, M_bind in H. rewrite E1 in H. unfold modify in H.
  inversion H; subst; clear H. simpl.
  split_and!; [reflexivity|exact T1|exact M1|apply lookup_insert_eq|].
  unfold store_dispose. simpl. unfold store_dispose_with, mbind, M_bind, get, tell, modify.
  simpl. rewrite lookup_insert_eq. reflexivity.
Qed.

(** ** A one-shot listener that returns *)



(** * [src/src/browser/dom.ts]: [DomListener] and [addDisposableListener] *)

Module Dom.

(** The part of a DOM [EventTarget] that [addEventListener] and
    [removeEventListener] act on, as the DOM standard defines them: its
    event listener list, in insertion order, of entries (type, callback,
    capture).  Of an options argument only [capture] is modelled: no caller
    in this repository passes an options object. *)
Record entry := mkE { e_type : string; e_callback : nat; e_capture : bool }.

#[global] Instance entry_eq_dec : EqDecision entry.
Proof. solve_decision. Defined.

(** [boolean | AddEventListenerOptions], or [undefined]. *)
Inductive options :=
| OBool (b : bool)
| OObj (capture : option bool).

(** "Flatten options": the [capture] it gives. *)
Definition flatten (o : options) : bool :=
  match o with
  | OBool b => b
  | OObj c => default false c
  end.

(** Add an event listener: append unless an entry with the same type,
    callback and capture is already there. *)
Definition add_listener (t : string) (cb : nat) (o : options) (l : list entry) : list entry :=
  let e := mkE t cb (flatten o) in
  if decide (e ∈ l) then l else l ++ [e].

(** Remove an event listener: the entry with the same type, callback and
    capture, if there is one. *)
Fixpoint remove_first (e : entry) (l : list entry) : list entry :=
  match l with
  | [] => []
  | e' :: l' => if decide (e' = e) then l' else e' :: remove_first e l'
  end.

Definition remove_listener (t : string) (cb : nat) (o : options) (l : list entry) : list entry :=
  remove_first (mkE t cb (flatten o)) l.

(** A [DomListener]: [_node] and [_handler], nulled by [dispose], and the
    read-only [_type] and [_options]. *)
Record domlistener := mkDL {
  dl_node : option nat; dl_type : string; dl_handler : option nat; dl_options : options }.

(** The targets' listener lists, the [DomListener] objects, and the next
    object identity. *)
Record dworld := mkDW {
  d_targets : gmap nat (list entry);
  d_listeners : gmap nat domlistener;
  d_next : nat }.

Definition target_list (w : dworld) (n : nat) : list entry := default [] (d_targets w !! n).

(** [addDisposableListener(node, type, handler, useCaptureOrOptions)]:
    [new DomListener(...)], whose [_options] parameter defaults to [false]
    when [useCaptureOrOptions] is [undefined], and whose constructor calls
    [addEventListener].  Returns the new object. *)
Definition addDisposableListener (node : nat) (t : string) (handler : nat)
    (o : option options) (w : dworld) : nat * dworld :=
  let opts := default (OBool false) o in
  let id := d_next w in
  (id, mkDW (<[node := add_listener t handler opts (target_list w node)]> (d_targets w))
            (<[id := mkDL (Some node) t (Some handler) opts]> (d_listeners w))
            (S id)).

(** [DomListener.dispose()] on the object [id]; [None] is the [TypeError]
    of calling a method on the nulled [_node]. *)
Definition dispose (id : nat) (w : dworld) : option dworld :=
  match d_listeners w !! id with
  | None => Some w
  | Some dl =>
      match dl_handler dl with
      | None => Some w
      | Some hnd =>
          match dl_node dl with
          | None => None
          | Some node =>
              Some (mkDW (<[node := remove_listener (dl_type dl) hnd (dl_options dl)
                                      (target_list w node)]> (d_targets w))
                         (<[id := mkDL None (dl_type dl) None (dl_options dl)]> (d_listeners w))
                         (d_next w))
          end
      end
  end.

(** Identities handed out so far. *)
Definition dwf (w : dworld) : Prop := forall id dl, d_listeners w !! id = Some dl -> id < d_next w.

Lemma remove_first_notin e l : e ∉ l -> remove_first e l = l.
Proof.
  induction l as [|e' l IH]; intros He; [reflexivity|]. simpl.
  rewrite decide_False by (intros ->; apply He; left).
  rewrite IH; [reflexivity|]. intros Hin; apply He; right; exact Hin.
Qed.

Lemma remove_first_app_notin e l : e ∉ l -> remove_first e (l ++ [e]) = l.
Proof.
  induction l as [|e' l IH]; intros He; simpl; [rewrite decide_True by reflexivity; reflexivity|].
  rewrite decide_False by (intros ->; apply He; left).
  rewrite IH; [reflexivity|]. intros Hin; apply He; right; exact Hin.
Qed.

Lemma target_list_insert_eq m ls k n l : target_list (mkDW (<[n := l]> m) ls k) n = l.
Proof. unfold target_list. simpl. rewrite lookup_insert_eq. reflexivity. Qed.

Lemma target_list_insert_ne m ls k n n' l :
  n' <> n -> target_list (mkDW (<[n := l]> m) ls k) n' = default [] (m !! n').
Proof. intros Hne. unfold target_list. simpl. rewrite lookup_insert_ne by congruence. reflexivity. Qed.

(** ** X12
    [addDisposableListener] on a node followed by [dispose()] of the
    returned object leaves the node's listener list as [removeEventListener]
    leaves the list it found: when the handler was not yet registered for
    that type and capture, the list is back to what it was; when it was
    (the add was then a no-op), the earlier registration is removed.  Omitted
    options mean capture [false].  A second [dispose()] changes nothing and
    does not throw, and other nodes are never touched. *)
Theorem dom_listener_roundtrip node t handler o w id w1 :
  dwf w ->
  addDisposableListener node t handler o w = (id, w1) ->
  let e := mkE t handler (flatten (default (OBool false) o)) in
  d_listeners w !! id = None /\
  target_list w1 node = add_listener t handler (default (OBool false) o) (target_list w node) /\
  exists w2, dispose id w1 = Some w2 /\
    target_list w2 node = remove_first e (add_listener t handler (default (OBool false) o)
                                           (target_list w node)) /\
    (e ∉ target_list w node -> target_list w2 node = target_list w node) /\
    (e ∈ target_list w node -> target_list w2 node = remove_first e (target_list w node)) /\
    (forall n, n <> node -> target_list w2 n = target_list w n) /\
    dispose id w2 = Some w2.
Proof.
  intros Hw H. unfold addDisposableListener in H. inversion H; subst; clear H. cbv zeta.
  set (opts := default (OBool false) o).
  set (e := mkE t handler (flatten opts)).
  assert (Hadd : add_listener t handler opts (target_list w node) =
                 if decide (e ∈ target_list w node) then target_list w node
                 else target_list w node ++ [e]) by reflexivity.
  split_and!.
  - destruct (d_listeners w !! d_next w) as [dl|] eqn:E; [|reflexivity].
    pose proof (Hw _ dl E). lia.
  - apply target_list_insert_eq.
  - eexists. split; [unfold dispose; simpl; rewrite lookup_insert_eq; reflexivity|].
    rewrite !target_list_insert_eq. unfold remove_listener. fold e.
    split_and!.
    + reflexivity.
    + intros Hn. rewrite Hadd, decide_False by exact Hn.
      apply remove_first_app_notin. exact Hn.
    + intros Hi. rewrite Hadd, decide_True by exact Hi. reflexivity.
    + intros n Hne. rewrite target_list_insert_ne by exact Hne. rewrite lookup_insert_ne by congruence. reflexivity.
    + unfold dispose. simpl. rewrite lookup_insert_eq. reflexivity.
Qed.

Definition dom_wit_world : dworld := mkDW {[3 := [mkE "click" 5 false]]} ∅ 0.

Lemma dom_listener_roundtrip_witness :
  let p := addDisposableListener 3 "click" 5 None dom_wit_world in
  let e := mkE "click" 5 false in
  d_listeners dom_wit_world !! p.1 = None /\
  target_list p.2 3 = add_listener "click" 5 (OBool false) (target_list dom_wit_world 3) /\
  exists w2, dispose p.1 p.2 = Some w2 /\
    target_list w2 3 = remove_first e (add_listener "click" 5 (OBool false)
                                         (target_list dom_wit_world 3)) /\
    (e ∉ target_list dom_wit_world 3 -> target_list w2 3 = target_list dom_wit_world 3) /\
    (e ∈ target_list dom_wit_world 3 -> target_list w2 3 = remove_first e (target_list dom_wit_world 3)) /\
    (forall n, n <> 3 -> target_list w2 n = target_list dom_wit_world n) /\
    dispose p.1 w2 = Some w2.
Proof.
  cbv zeta.
  apply (dom_listener_roundtrip 3 "click" 5 None dom_wit_world
           (addDisposableListener 3 "click" 5 None dom_wit_world).1
           (addDisposableListener 3 "click" 5 None dom_wit_world).2).
  - unfold dwf. vm_compute. intros; discriminate.
  - reflexivity.
Defined.

End Dom.

(** * Concrete instances of the further properties *)

Ltac xwit :=
  first [ vm_compute; reflexivity
        | apply (bool_decide_unpack _); vm_compute; reflexivity
        | vm_compute; discriminate
        | vm_compute; split_and!; intros; discriminate
        | vm_compute; repeat constructor ].

Definition xw_on : res nat * world := on "foo" (FUser 0) (new_bus true).

Lemma on_registers_witness :
  exists h, xw_on.1 = Ok h /\ w_handles (new_bus true) !! h = None /\
    (exists rs, w_handles xw_on.2 !! h = Some (mkH false (CDelete rs (FUser 0)))) /\
    collection xw_on.2 "foo" = js_set_add (FUser 0) (collection (new_bus true) "foo") /\
    (forall k', k' <> "foo" -> collection xw_on.2 k' = collection (new_bus true) k').
Proof. apply (on_registers "foo" (FUser 0) (new_bus true) xw_on.1 xw_on.2); xwit. Defined.

Definition xw_release : res unit * world := fd_dispose 1 xw_on.2.

Lemma on_release_roundtrip_witness :
  xw_release.1 = Ok tt /\
  collection xw_release.2 "foo" = js_set_delete (FUser 0) (collection (new_bus true) "foo") /\
  (FUser 0 ∉ collection (new_bus true) "foo" ->
     collection xw_release.2 "foo" = collection (new_bus true) "foo") /\
  (forall k', k' <> "foo" -> collection xw_release.2 k' = collection (new_bus true) k') /\
  fd_dispose 1 xw_release.2 = (Ok tt, log_ev (TWarn msg_fd_twice) xw_release.2).
Proof.
  apply (on_release_roundtrip "foo" (FUser 0) (new_bus true) 1 xw_on.2 xw_release.1 xw_release.2);
    xwit.
Defined.

Definition xw_once : res nat * world := once "foo" 0 (new_bus true).

Lemma once_release_cancels_witness :
  (fd_dispose 2 xw_once.2).1 = Ok tt /\
  forall k', collection (fd_dispose 2 xw_once.2).2 k' = collection (new_bus true) k'.
Proof.
  apply (once_release_cancels "foo" 0 (new_bus true) 2 xw_once.2
           (fd_dispose 2 xw_once.2).1 (fd_dispose 2 xw_once.2).2); xwit.
Defined.

Definition xw_stale2 : res unit * world := dispose (Some "foo") xw_on.2.
Definition xw_stale3 : res nat * world := on "foo" (FUser 1) xw_stale2.2.
Definition xw_stale4 : res unit * world := fd_dispose 1 xw_stale3.2.

Lemma dispose_key_stale_handle_witness :
  xw_stale2.1 = Ok tt /\ collection xw_stale2.2 "foo" = [] /\
  (forall k', k' <> "foo" -> collection xw_stale2.2 k' = collection xw_on.2 k') /\
  w_disposed xw_stale2.2 = false /\
  (exists h', xw_stale3.1 = Ok h') /\ collection xw_stale3.2 "foo" = [FUser 1] /\
  xw_stale4.1 = Ok tt /\ collection xw_stale4.2 "foo" = [FUser 1].
Proof.
  apply (dispose_key_stale_handle "foo" 0 1 (new_bus true) 1 xw_on.2 xw_stale2.1 xw_stale2.2
           xw_stale3.1 xw_stale3.2 xw_stale4.1 xw_stale4.2); xwit.
Defined.



Definition xw_store : world := snd (new_store (new_bus true)).
Definition xw_scoped : res unit * world := scoped 3 "foo" (FUser 0) 0 xw_store.
Definition xw_scope_end : res unit * world := store_dispose 3 0 xw_scoped.2.
Definition xw_retired : world := snd ((s ← new_store; store_dispose 0 s) (new_bus true)).
Definition xw_scoped_late : res unit * world := scoped 3 "foo" (FUser 0) 0 xw_retired.

Lemma scoped_store_lifetime_witness :
  (xw_scoped.1 = Ok tt /\
   collection xw_scoped.2 "foo" = js_set_add (FUser 0) (collection xw_store "foo") /\
   xw_scope_end.1 = Ok tt /\
   collection xw_scope_end.2 "foo" = js_set_delete (FUser 0) (collection xw_store "foo") /\
   (forall k', k' <> "foo" -> collection xw_scope_end.2 k' = collection xw_store k') /\
   w_stores xw_scope_end.2 !! 0 = Some (mkS [] true)) /\
  (xw_scoped_late.1 = Ok tt /\
   collection xw_scoped_late.2 "foo" = js_set_delete (FUser 0) (collection xw_retired "foo") /\
   (forall k', k' <> "foo" -> collection xw_scoped_late.2 k' = collection xw_retired k') /\
   w_stores xw_scoped_late.2 = w_stores xw_retired /\
   w_trace xw_scoped_late.2 = TWarn msg_store_add :: w_trace xw_retired).
Proof.
  split.
  - apply (proj1 (scoped_store_lifetime 3 2 "foo" (FUser 0) 0 xw_store ltac:(xwit) ltac:(xwit))
             xw_scoped.1 xw_scoped.2 xw_scope_end.1 xw_scope_end.2); xwit.
  - apply (proj2 (scoped_store_lifetime 2 2 "foo" (FUser 0) 0 xw_retired ltac:(xwit) ltac:(xwit))
             [] xw_scoped_late.1 xw_scoped_late.2); xwit.
Defined.

Definition xw_fd : res nat * world := toDisposable 7 false (new_bus true).
Definition xw_fd_throw : res nat * world := toDisposable 8 true (new_bus true).

Lemma toDisposable_dispose_witness :
  ((fd_dispose 0 xw_fd.2).1 = Ok tt /\
   w_trace (fd_dispose 0 xw_fd.2).2 = TRan 7 :: w_trace xw_fd.2 /\
   fd_dispose 0 (fd_dispose 0 xw_fd.2).2 =
     (Ok tt, log_ev (TWarn msg_fd_twice) (fd_dispose 0 xw_fd.2).2)) /\
  (fd_dispose 0 xw_fd_throw.2 = (Err UserThrow, log_ev (TRan 8) xw_fd_throw.2) /\
   w_handles (log_ev (TRan 8) xw_fd_throw.2) !! 0 = w_handles xw_fd_throw.2 !! 0).
Proof.
  split.
  - destruct (toDisposable_dispose 7 false (new_bus true) 0 xw_fd.2 ltac:(xwit) ltac:(xwit))
      as (_ & _ & H & _).
    exact (H eq_refl _ _ eq_refl).
  - destruct (toDisposable_dispose 8 true (new_bus true) 0 xw_fd_throw.2 ltac:(xwit) ltac:(xwit))
      as (_ & _ & _ & H).
    exact (H eq_refl _ eq_refl).
Defined.

Definition xw_full_store : world :=
  snd ((h1 ← toDisposable 7 false; h2 ← toDisposable 8 false; s ← new_store;
        store_add 3 s (DH h1) ;; store_add 3 s (DH h2)) (new_bus true)).
Definition xw_store_end : res unit * world := store_dispose 3 2 xw_full_store.

Lemma store_dispose_in_order_witness :
  xw_store_end.1 = Ok tt /\
  w_trace xw_store_end.2 = reverse (map TRan [7; 8]) ++ w_trace xw_full_store /\
  Forall2 (fun h t => w_handles xw_store_end.2 !! h = Some (mkH true (CUser t false))) [0; 1] [7; 8] /\
  w_stores xw_store_end.2 !! 2 = Some (mkS [] true) /\
  store_dispose 3 2 xw_store_end.2 = (Ok tt, log_ev (TWarn msg_store_twice) xw_store_end.2).
Proof.
  apply (store_dispose_in_order 2 2 [0; 1] [7; 8] xw_full_store xw_store_end.1 xw_store_end.2);
    xwit.
Defined.



(** * A throwing one-shot listener, on any bus *)

(** What a listener body may do without itself releasing the one-shot
    registration on [k] whose handle is [h]: anything but dispose [h],
    dispose [k]'s listeners or dispose the whole bus. *)
Definition keeps_reg (k : key) (h : nat) (c : cmd) : Prop :=
  match c with
  | CDisposeHandle h' => h' <> h
  | CDispose ok => exists k', js_truthy_key ok = Some k' /\ k' <> k
  | _ => True
  end.

(** [f] is not a [wrapper] of the [u]-th call of [once]. *)
Definition no_wrap (u : nat) (f : fnv) : Prop := forall l', f <> FWrap l' u.

(** The identities [once] hands out are fresh: no [wrapper] bound to a
    handle, no handle bound to a [wrapper], and no handle of [on] closing
    over a [wrapper], uses an identity not handed out yet. *)
Definition wraps_fresh (w : world) : Prop :=
  (forall u' h', w_wraps w !! u' = Some h' -> u' < w_next w /\ h' < w_next w) /\
  (forall h' hd r' l' u', w_handles w !! h' = Some hd -> h_fn hd = CDelete r' (FWrap l' u') ->
     u' < w_next w).

(** The [wrapper] [u] of [once(k, l)] is registered: it is in the set object
    of [k], its [disposable] is the handle [h], live and deleting it from
    that set; no other handle deletes it and no other [wrapper] disposes
    [h]; it is reachable from [k] only; and the bus is live. *)
Definition registered (k : key) (l u h : nat) (w : world) : Prop :=
  (exists r, w_events w !! k = Some r /\ r < w_next w /\
     (exists fs, w_sets w !! r = Some fs /\ FWrap l u ∈ fs) /\
     w_handles w !! h = Some (mkH false (CDelete r (FWrap l u)))) /\
  w_wraps w !! u = Some h /\
  (forall h' hd r' f, h' <> h -> w_handles w !! h' = Some hd -> h_fn hd = CDelete r' f ->
     no_wrap u f) /\
  (forall u', u' <> u -> w_wraps w !! u' <> Some h) /\
  (forall k' r' fs l', w_events w !! k' = Some r' -> w_sets w !! r' = Some fs ->
     FWrap l' u ∈ fs -> k' = k /\ l' = l) /\
  u < w_next w /\ h < w_next w /\ w_disposed w = false.

Lemma js_set_add_keep {A} `{EqDecision A} (x y : A) l : y ∈ l -> y ∈ js_set_add x l.
Proof.
  unfold js_set_add. destruct (decide (x ∈ l)); [auto|].
  intros H. rewrite elem_of_app. left. exact H.
Qed.

Lemma js_set_add_self {A} `{EqDecision A} (x : A) l : x ∈ js_set_add x l.
Proof.
  unfold js_set_add. destruct (decide (x ∈ l)); [auto|].
  rewrite elem_of_app, list_elem_of_singleton. right. reflexivity.
Qed.

Lemma js_set_delete_keep {A} `{EqDecision A} (x y : A) l :
  y ∈ l -> y <> x -> y ∈ js_set_delete x l.
Proof. intros H Hne. unfold js_set_delete. apply list_elem_of_filter. auto. Qed.

Lemma js_set_delete_sub {A} `{EqDecision A} (x y : A) l : y ∈ js_set_delete x l -> y ∈ l.
Proof. unfold js_set_delete. intros H. apply list_elem_of_filter in H. tauto. Qed.

Lemma registered_firing k l u h m w :
  registered k l u h (set_firing m w) <-> registered k l u h w.
Proof. reflexivity. Qed.

Lemma registered_queue k l u h m w :
  registered k l u h (set_queue m w) <-> registered k l u h w.
Proof. reflexivity. Qed.

Lemma registered_collection k l u h w : registered k l u h w -> FWrap l u ∈ collection w k.
Proof.
  intros ([r (Ek & _ & [fs [Hs Hin]] & _)] & _). unfold collection. rewrite Ek, Hs. exact Hin.
Qed.

(** A [wrapper] [u] in any key's collection is the one of [k] and [l]. *)
Lemma registered_only k l u h w k' l' :
  registered k l u h w -> FWrap l' u ∈ collection w k' -> k' = k /\ l' = l.
Proof.
  intros (_ & _ & _ & _ & Hx & _). unfold collection.
  destruct (w_events w !! k') as [r|] eqn:Ek; [|intros H; apply elem_of_nil in H; contradiction].
  destruct (w_sets w !! r) as [fs|] eqn:Es; simpl; [|intros H; apply elem_of_nil in H; contradiction].
  intros H. eapply Hx; eassumption.
Qed.

Section OnceThrow.

Variable body : nat -> args -> list cmd.
Variables (k : key) (l u h : nat).

Definition RegP (w : world) : Prop :=
  registered k l u h w /\ (w_sync w = true -> k ∈ w_firing w).

Definition RegR (w w' : world) : Prop := RegP w -> RegP w'.

#[global] Instance RegR_preorder : PreOrder RegR.
Proof. split; [intros w H; exact H|intros ??? H1 H2 H; auto]. Qed.

Lemma reg_assume {A} w (m : M A) : (RegP w -> pres_from RegR w m) -> pres_from RegR w m.
Proof. intros H r w' E HP. exact (H HP r w' E HP). Qed.

Lemma RegR_frame w w' :
  w_events w' = w_events w -> w_sets w' = w_sets w -> w_handles w' = w_handles w ->
  w_wraps w' = w_wraps w -> w_disposed w' = w_disposed w -> w_sync w' = w_sync w ->
  w_firing w ⊆ w_firing w' -> w_next w <= w_next w' -> RegR w w'.
Proof.
  intros E S H Wr D Sy F N [([r (Ek & Hr & Hs & Hh)] & Hu & Ho & Hw & Hx & Hu' & Hh' & Hd) Hf].
  unfold RegP, registered. rewrite E, S, H, Wr, D, Sy. split.
  - split_and!; auto; [exists r; split_and!; auto; lia|lia|lia].
  - intros Hsy. apply F. auto.
Qed.

Ltac reg_frame := intros ?; apply RegR_frame; simpl; auto; try set_solver; try lia.

Lemma reg_tell e : pres RegR (tell e).
Proof. apply pres_modify. reg_frame. Qed.

Lemma reg_fresh : pres RegR fresh.
Proof. apply pres_fresh. reg_frame. Qed.

Lemma reg_checkDisposed : pres RegR checkDisposed.
Proof.
  unfold checkDisposed. apply pres_get_bind. intros w.
  destruct (w_disposed w); [apply pres_throw|apply pres_ret].
Qed.

Lemma on_ok_fresh k' f w x w' :
  on k' f w = (Ok x, w') -> w_next w <= x /\ x < w_next w'.
Proof.
  destruct (w_disposed w) eqn:Hd.
  - rewrite on_disposed by exact Hd. discriminate.
  - rewrite on_step by exact Hd.
    destruct (w_events w !! k'); intros H; inversion H; subst; simpl; lia.
Qed.

Lemma reg_on k' f : no_wrap u f -> pres RegR (on k' f).
Proof.
  intros Hf w. apply reg_assume.
  intros [([r (Ek & Hrn & [fs [Hs Hin]] & Hh)] & Hu & Ho & Hw & Hx & Hu' & Hh' & Hd) Hsf].
  intros r0 w' E _. rewrite on_step in E by exact Hd.
  destruct (w_events w !! k') as [rs|] eqn:Ek'; inversion E; subst; clear E.
  - split; [|simpl; exact Hsf].
    unfold registered; simpl. split_and!.
    + exists r. split_and!; [exact Ek|lia| |].
      * destruct (decide (r = rs)) as [->|Hne].
        -- exists (js_set_add f fs). rewrite lookup_alter_eq, Hs.
           split; [reflexivity|]. apply js_set_add_keep. exact Hin.
        -- exists fs. rewrite lookup_alter_ne by congruence. auto.
      * rewrite lookup_insert_ne by lia. exact Hh.
    + exact Hu.
    + intros h' hd r' f' Hne Hh2 Hfn. destruct (decide (h' = w_next w)) as [->|Hne2].
      * rewrite lookup_insert_eq in Hh2. inversion Hh2; subst. simpl in Hfn.
        inversion Hfn; subst. exact Hf.
      * rewrite lookup_insert_ne in Hh2 by congruence. eapply Ho; eauto.
    + exact Hw.
    + intros k2 r2 fs2 l2 Hk2 Hs2 Hin2. destruct (decide (r2 = rs)) as [->|Hne].
      * rewrite lookup_alter_eq in Hs2.
        destruct (w_sets w !! rs) as [fs0|] eqn:E0; simpl in Hs2; [|discriminate].
        inversion Hs2; subst. apply js_set_add_elem in Hin2 as [Heq|Hin2].
        -- exfalso. apply (Hf l2). symmetry. exact Heq.
        -- eapply Hx; eauto.
      * rewrite lookup_alter_ne in Hs2 by congruence. eapply Hx; eauto.
    + lia.
    + lia.
    + exact Hd.
  - assert (Hkk : k' <> k) by congruence.
    assert (Hrn' : r <> w_next w) by lia.
    split; [|simpl; exact Hsf].
    unfold registered; simpl. split_and!.
    + exists r. split_and!; [rewrite lookup_insert_ne by congruence; exact Ek|lia| |].
      * exists fs. rewrite lookup_alter_ne, lookup_insert_ne by congruence. auto.
      * rewrite lookup_insert_ne by lia. exact Hh.
    + exact Hu.
    + intros h' hd r' f' Hne Hh2 Hfn. destruct (decide (h' = S (w_next w))) as [->|Hne2].
      * rewrite lookup_insert_eq in Hh2. inversion Hh2; subst. simpl in Hfn.
        inversion Hfn; subst. exact Hf.
      * rewrite lookup_insert_ne in Hh2 by congruence. eapply Ho; eauto.
    + exact Hw.
    + intros k2 r2 fs2 l2 Hk2 Hs2 Hin2. destruct (decide (r2 = w_next w)) as [->|Hne].
      * rewrite lookup_alter_eq, lookup_insert_eq in Hs2. simpl in Hs2.
        inversion Hs2; subst. apply js_set_add_elem in Hin2 as [Heq|Hin2].
        -- exfalso. apply (Hf l2). symmetry. exact Heq.
        -- apply elem_of_nil in Hin2. contradiction.
      * rewrite lookup_alter_ne, lookup_insert_ne in Hs2 by congruence.
        destruct (decide (k2 = k')) as [->|Hne3].
        -- rewrite lookup_insert_eq in Hk2. inversion Hk2. congruence.
        -- rewrite lookup_insert_ne in Hk2 by congruence. eapply Hx; eauto.
    + lia.
    + lia.
    + exact Hd.
Qed.

Lemma reg_once k' l' : pres RegR (once k' l').
Proof.
  intros w. apply reg_assume. intros HP r0 w' E _.
  unfold once, mbind, M_bind, fresh, modify, mret, M_ret in E.
  destruct (on k' (FWrap l' (w_next w)) (bump_next w)) as [[x|e|] w2] eqn:Eo.
  2, 3: inversion E; subst; eapply (reg_on k' (FWrap l' (w_next w))); [| exact Eo |];
        [intros l2 Heq; inversion Heq; subst; destruct HP as ((_ & _ & _ & _ & _ & Hu' & _) & _); lia
        |revert HP; apply RegR_frame; simpl; auto; try set_solver; lia].
  inversion E; subst; clear E.
  assert (HP2 : RegP w2).
  { eapply (reg_on k' (FWrap l' (w_next w))); [| exact Eo |].
    - intros l2 Heq. inversion Heq; subst.
      destruct HP as ((_ & _ & _ & _ & _ & Hu' & _) & _). lia.
    - revert HP. apply RegR_frame; simpl; auto; try set_solver; lia. }
  pose proof (on_ok_fresh _ _ _ _ _ Eo) as [Hx1 Hx2]. simpl in Hx1.
  destruct HP as ((_ & _ & _ & _ & _ & Hu' & Hh' & _) & _).
  destruct HP2 as [(Hr & Hu & Ho & Hw & Hx & Hu2 & Hh2 & Hd) Hsf].
  split; [|exact Hsf]. unfold registered; simpl. split_and!; auto.
  - rewrite lookup_insert_ne by lia. exact Hu.
  - intros u2 Hne. destruct (decide (u2 = w_next w)) as [->|Hne2].
    + rewrite lookup_insert_eq. intros Heq. inversion Heq. lia.
    + rewrite lookup_insert_ne by congruence. apply Hw. exact Hne.
Qed.

Lemma reg_fd_dispose h' : h' <> h -> pres RegR (fd_dispose h').
Proof.
  intros Hne w. apply reg_assume.
  intros [(Hr & Hu & Ho & Hw & Hx & Hu' & Hh' & Hd) Hsf] r0 w' E _.
  destruct Hr as [r (Ek & Hrn & [fs [Hs Hin]] & Hh)].
  unfold fd_dispose, mbind, M_bind, get, mret, M_ret in E.
  destruct (w_handles w !! h') as [hd|] eqn:Eh.
  2: { inversion E; subst. split; [|exact Hsf]. split_and!; eauto 10. }
  destruct hd as [b fn]. simpl in E. destruct b.
  - unfold tell, modify in E. inversion E; subst. split; [|exact Hsf].
    split_and!; eauto 10.
  - destruct fn as [r' f|t bt]; simpl in E.
    + unfold modify in E. inversion E; subst; clear E.
      assert (Hf : no_wrap u f) by (eapply (Ho h' _ r' f Hne Eh); reflexivity).
      split; [|exact Hsf]. unfold registered; simpl. split_and!; auto.
      * exists r. split_and!; auto.
        -- destruct (decide (r = r')) as [->|Hne2].
           ++ exists (js_set_delete f fs). rewrite lookup_alter_eq, Hs. split; [reflexivity|].
              apply js_set_delete_keep; [exact Hin|]. intros Heq. apply (Hf l). symmetry. exact Heq.
           ++ exists fs. rewrite lookup_alter_ne by congruence. auto.
        -- rewrite lookup_insert_ne by congruence. exact Hh.
      * intros h2 hd2 r2 f2 Hne2 Hh2 Hfn. destruct (decide (h2 = h')) as [->|Hne3].
        -- rewrite lookup_insert_eq in Hh2. inversion Hh2; subst. simpl in Hfn.
           inversion Hfn; subst. exact Hf.
        -- rewrite lookup_insert_ne in Hh2 by congruence. eapply Ho; eauto.
      * intros k2 r2 fs2 l2 Hk2 Hs2 Hin2. destruct (decide (r2 = r')) as [->|Hne2].
        -- rewrite lookup_alter_eq in Hs2.
           destruct (w_sets w !! r') as [fs0|] eqn:E0; simpl in Hs2; [|discriminate].
           inversion Hs2; subst. apply js_set_delete_sub in Hin2. eapply Hx; eauto.
        -- rewrite lookup_alter_ne in Hs2 by congruence. eapply Hx; eauto.
    + unfold tell, modify, throw in E. destruct bt; inversion E; subst; clear E;
        (split; [|exact Hsf]); unfold registered; simpl.
      * exact (conj (ex_intro _ r (conj Ek (conj Hrn (conj (ex_intro _ fs (conj Hs Hin)) Hh))))
          (conj Hu (conj Ho (conj Hw (conj Hx (conj Hu' (conj Hh' Hd))))))).
      * split_and!; auto; [exists r; split_and!; eauto; rewrite lookup_insert_ne by congruence; exact Hh|].
        intros h2 hd2 r2 f2 Hne2 Hh2 Hfn. destruct (decide (h2 = h')) as [->|Hne3].
        -- rewrite lookup_insert_eq in Hh2. inversion Hh2; subst. discriminate.
        -- rewrite lookup_insert_ne in Hh2 by congruence. eapply Ho; eauto.
Qed.

Lemma reg_dispose ok :
  (exists k', js_truthy_key ok = Some k' /\ k' <> k) -> pres RegR (dispose ok).
Proof.
  intros [k' [Ht Hne]] w r0 w' E [(Hr & Hu & Ho & Hw & Hx & Hu' & Hh' & Hd) Hsf].
  unfold dispose, checkDisposed, mbind, M_bind, get, mret, M_ret in E.
  rewrite Hd, Ht in E. unfold modify in E. inversion E; subst; clear E.
  split; [|exact Hsf]. destruct Hr as [r (Ek & Hrn & Hs & Hh)].
  unfold registered; simpl. split_and!; auto.
  - exists r. split_and!; auto. rewrite lookup_delete_ne by congruence. exact Ek.
  - intros k2 r2 fs2 l2 Hk2 Hs2 Hin2. apply lookup_delete_Some in Hk2 as [_ Hk2].
    eapply Hx; eauto.
Qed.

End OnceThrow.

(** The listener [l] never returns normally when called with [a]. *)
Definition throws_on (body : nat -> args -> list cmd) (l : nat) (a : args) : Prop :=
  forall n w, fst (call body n (FUser l) a w) <> Ok tt.

Lemma exec_cmds_throw callf cs w : CThrow ∈ cs -> fst (exec_cmds callf cs w) <> Ok tt.
Proof.
  revert w. induction cs as [|c cs IH]; intros w Hin; [apply elem_of_nil in Hin; contradiction|].
  simpl. unfold mbind, M_bind. apply elem_of_cons in Hin as [<-|Hin].
  - simpl. discriminate.
  - destruct (exec_cmd callf c w) as [[[]|e|] w1]; simpl; [apply IH; exact Hin|discriminate|discriminate].
Qed.

Lemma throws_on_of_throw body l a : CThrow ∈ body l a -> throws_on body l a.
Proof.
  intros Hin n w. destruct n as [|n]; simpl; [discriminate|].
  unfold mbind, M_bind, tell, modify. apply exec_cmds_throw. exact Hin.
Qed.

Section OnceThrow2.

Variable body : nat -> args -> list cmd.
Variables (k : key) (l u h : nat).
Hypothesis keep : forall l' b, Forall (keeps_reg k h) (body l' b).

(** A function value that may be called with [a0] without reaching the
    self-dispose of the [wrapper] [u]. *)
Definition callable (f : fnv) (a0 : args) : Prop :=
  forall l', f = FWrap l' u -> throws_on body l' a0.

Lemma reg_unmark k' w : k' <> k -> RegR k l u h w (set_firing (fun s => s ∖ {[k']}) w).
Proof.
  intros Hne [Hr Hs]. split; [exact Hr|]. simpl. intros Hsy.
  apply elem_of_difference. split; [auto|]. rewrite elem_of_singleton. congruence.
Qed.

Section RegDispatch.

Variable callf : fnv -> args -> M unit.
Variable P : fnv -> args -> Prop.
Hypothesis callf_reg : forall f a0, P f a0 -> pres (RegR k l u h) (callf f a0).
Hypothesis P_no_wrap : forall f a0, no_wrap u f -> P f a0.

Lemma reg_invoke_loop k' snap a : Forall (fun f => P f a) snap ->
  pres (RegR k l u h) (invoke_loop callf k' snap a).
Proof.
  induction snap as [|f fs IH]; intros Hs; simpl; [apply pres_ret|].
  apply Forall_cons in Hs as [Hf Hs].
  apply pres_bind; [apply reg_tell|intros _].
  apply pres_bind; [|intros _; apply IH; exact Hs].
  apply pres_catch; [apply callf_reg; exact Hf|intros e; apply reg_tell].
Qed.

Lemma reg_invoke k' snap a : k' <> k -> Forall (fun f => P f a) snap ->
  pres (RegR k l u h) (invoke callf k' snap a).
Proof.
  intros Hne Hs. unfold invoke. apply pres_bind; [apply pres_modify; intros w; apply RegR_frame; simpl; auto; set_solver|intros _].
  apply pres_try_finally; [apply reg_invoke_loop; exact Hs|].
  apply pres_modify. intros w. apply reg_unmark. exact Hne.
Qed.

Lemma reg_emit k' a : pres (RegR k l u h) (emit callf k' a).
Proof.
  unfold emit. apply pres_bind; [apply reg_checkDisposed|intros _].
  apply pres_get_bind. intros w. apply reg_assume. intros [Hreg Hsf].
  destruct (decide (k' ∈ w_firing w)) as [Hf|Hf]; [apply reg_tell|].
  destruct (w_events w !! k') as [r|] eqn:Ek; [|apply pres_ret].
  destruct (default [] (w_sets w !! r)) as [|f fs] eqn:Es; [apply pres_ret|].
  destruct (w_sync w) eqn:Hsy.
  - apply reg_invoke.
    + intros ->. apply Hf, Hsf. reflexivity.
    + apply Forall_forall. intros g Hg. apply P_no_wrap. intros l' ->.
      assert (Hc : FWrap l' u ∈ collection w k') by (unfold collection; rewrite Ek, Es; exact Hg).
      destruct (registered_only _ _ _ _ _ _ _ Hreg Hc) as [-> _].
      apply Hf, Hsf. reflexivity.
  - apply pres_modify. intros w'. apply RegR_frame; simpl; auto; set_solver.
Qed.

Lemma reg_exec_cmds cs : Forall (keeps_reg k h) cs -> pres (RegR k l u h) (exec_cmds callf cs).
Proof.
  induction cs as [|c cs IH]; intros Hk; simpl; [apply pres_ret|].
  apply Forall_cons in Hk as [Hc Hk].
  apply pres_bind; [|intros _; apply IH; exact Hk].
  destruct c as [k0 a0|k0 l0|k0 l0|h0|ok|]; simpl in Hc |- *.
  - apply reg_emit.
  - apply pres_bind; [apply reg_on; intros l' Heq; discriminate|intros _; apply pres_ret].
  - apply pres_bind; [apply reg_once|intros _; apply pres_ret].
  - apply reg_fd_dispose. exact Hc.
  - apply reg_dispose. exact Hc.
  - apply pres_throw.
Qed.

End RegDispatch.

Lemma callable_no_wrap f a0 : no_wrap u f -> callable f a0.
Proof. intros Hf l' Heq. exfalso. exact (Hf l' Heq). Qed.

Lemma reg_call n : forall f a0, callable f a0 -> pres (RegR k l u h) (call body n f a0).
Proof.
  induction n as [|n IH]; intros f a0 Hf; simpl; [apply pres_fuel|].
  destruct f as [l0|l0 u0].
  - apply pres_bind; [apply reg_tell|intros _].
    apply (reg_exec_cmds (call body n) callable IH callable_no_wrap). apply keep.
  - destruct (decide (u0 = u)) as [->|Hne].
    + intros w r w' E. unfold mbind, M_bind in E.
      destruct (call body n (FUser l0) a0 w) as [[[]|e|] w1] eqn:Ec.
      * exfalso. apply (Hf l0 eq_refl n w). rewrite Ec. reflexivity.
      * inversion E; subst. eapply IH; [|exact Ec]. apply callable_no_wrap. intros l' Heq; discriminate.
      * inversion E; subst. eapply IH; [|exact Ec]. apply callable_no_wrap. intros l' Heq; discriminate.
    + apply pres_bind; [apply IH, callable_no_wrap; intros l' Heq; discriminate|intros _].
      apply pres_get_bind. intros w. apply reg_assume. intros [(_ & _ & _ & Hw & _) _].
      destruct (w_wraps w !! u0) as [h0|] eqn:Eu; [|apply pres_ret].
      apply reg_fd_dispose. intros ->. exact (Hw u0 Hne Eu).
Qed.

(** A dispatch of [k0] from the top level keeps the registration, provided
    that on a synchronous bus it is the dispatch of [k] itself. *)
Lemma reg_invoke_top n k0 snap a w r w' :
  registered k l u h w -> (w_sync w = true -> k0 = k) ->
  Forall (fun f => callable f a) snap ->
  invoke (call body n) k0 snap a w = (r, w') -> registered k l u h w'.
Proof.
  intros Hreg Hsy Hs E. unfold invoke, mbind, M_bind, modify, try_finally in E.
  set (w1 := set_firing (fun s => {[k0]} ∪ s) w) in E.
  assert (HP1 : RegP k l u h w1).
  { split; [exact Hreg|]. simpl. intros Hs1. rewrite (Hsy Hs1). set_solver. }
  destruct (invoke_loop (call body n) k0 snap a w1) as [r1 wl] eqn:El.
  assert (HPl : RegP k l u h wl).
  { eapply (reg_invoke_loop (call body n) callable (reg_call n) k0 snap a Hs);
      [exact El|exact HP1]. }
  destruct r1; inversion E; subst; exact (proj1 HPl).
Qed.

End OnceThrow2.

(** [once] on a live, well-formed bus registers its [wrapper]. *)
Lemma once_registered k l w h w1 :
  wf w -> wraps_fresh w -> w_disposed w = false -> once k l w = (Ok h, w1) ->
  registered k l (w_next w) h w1 /\ w_sync w1 = w_sync w /\ w_firing w1 = w_firing w.
Proof.
  intros (W1 & W2 & W3 & W4 & W5) [F1 F2] Hd E.
  unfold once, mbind, M_bind, fresh, modify, mret, M_ret in E.
  rewrite on_step in E by exact Hd. simpl in E.
  destruct (w_events w !! k) as [rs|] eqn:Ek; inversion E; subst; clear E.
  - destruct (W1 k rs Ek) as [Hrs [fs0 Hs0]].
    split_and!; [|reflexivity|reflexivity]. unfold registered; simpl. split_and!.
    + exists rs. split_and!; [exact Ek|lia| |rewrite lookup_insert_eq; reflexivity].
      exists (js_set_add (FWrap l (w_next w)) fs0). rewrite lookup_alter_eq, Hs0.
      split; [reflexivity|apply js_set_add_self].
    + rewrite lookup_insert_eq. reflexivity.
    + intros h' hd r' f Hne Hh Hfn l' ->. rewrite lookup_insert_ne in Hh by congruence.
      pose proof (F2 h' hd r' l' (w_next w) Hh Hfn). lia.
    + intros u' Hne Hw. rewrite lookup_insert_ne in Hw by congruence.
      destruct (F1 u' _ Hw). lia.
    + intros k' r' fs l' Hk' Hs Hin. destruct (decide (r' = rs)) as [->|Hne].
      * rewrite lookup_alter_eq, Hs0 in Hs. simpl in Hs. inversion Hs; subst.
        apply js_set_add_elem in Hin as [Heq|Hin].
        -- inversion Heq; subst. split; [eapply W2; eauto|reflexivity].
        -- pose proof (W5 rs fs0 l' (w_next w) Hs0 Hin). lia.
      * rewrite lookup_alter_ne in Hs by congruence.
        pose proof (W5 r' fs l' _ Hs Hin). lia.
    + lia.
    + lia.
    + exact Hd.
  - split_and!; [|reflexivity|reflexivity]. unfold registered; simpl. split_and!.
    + exists (S (w_next w)). split_and!; [rewrite lookup_insert_eq; reflexivity|lia| |rewrite lookup_insert_eq; reflexivity].
      exists (js_set_add (FWrap l (w_next w)) []). rewrite lookup_alter_eq, lookup_insert_eq.
      split; [reflexivity|apply js_set_add_self].
    + rewrite lookup_insert_eq. reflexivity.
    + intros h' hd r' f Hne Hh Hfn l' ->. rewrite lookup_insert_ne in Hh by congruence.
      pose proof (F2 h' hd r' l' (w_next w) Hh Hfn). lia.
    + intros u' Hne Hw. rewrite lookup_insert_ne in Hw by congruence.
      destruct (F1 u' _ Hw). lia.
    + intros k' r' fs l' Hk' Hs Hin. destruct (decide (r' = S (w_next w))) as [->|Hne].
      * rewrite lookup_alter_eq, lookup_insert_eq in Hs. simpl in Hs. inversion Hs; subst.
        apply js_set_add_elem in Hin as [Heq|Hin]; [|apply elem_of_nil in Hin; contradiction].
        inversion Heq; subst. split; [|reflexivity].
        destruct (decide (k' = k)) as [->|Hne]; [reflexivity|].
        rewrite lookup_insert_ne in Hk' by congruence. destruct (W1 k' _ Hk'). lia.
      * rewrite lookup_alter_ne, lookup_insert_ne in Hs by congruence.
        pose proof (W5 r' fs l' _ Hs Hin). lia.
    + lia.
    + lia.
    + exact Hd.
Qed.

Lemma call_ext body n f a w r w' :
  call body n f a w = (r, w') -> exists ext, w_trace w' = ext ++ w_trace w.
Proof.
  intros E. destruct (call_inv_all body n EmptyString f a w r w' E) as [(_ & _ & X) _]. exact X.
Qed.

Lemma exec_ext body n cs w r w' :
  exec_cmds (call body n) cs w = (r, w') -> exists ext, w_trace w' = ext ++ w_trace w.
Proof.
  intros E.
  destruct (inv_exec_cmds (call body n) (call_inv_all body n) EmptyString cs w r w' E)
    as [(_ & _ & X) _]. exact X.
Qed.

(** A call of [l] that does not run out of budget logs its run. *)
Lemma call_user_runs body n l0 a0 w r w' :
  call body n (FUser l0) a0 w = (r, w') -> r <> OutOfFuel ->
  exists ext, w_trace w' = ext ++ w_trace w /\ TRun l0 a0 ∈ ext.
Proof.
  destruct n as [|n]; simpl; intros E Hr; [inversion E; subst; contradiction|].
  unfold mbind, M_bind, tell, modify in E.
  destruct (exec_ext body n _ _ _ _ E) as [ext He]. simpl in He.
  exists (ext ++ [TRun l0 a0]). rewrite He, <- app_assoc. split; [reflexivity|].
  rewrite elem_of_app, list_elem_of_singleton. right. reflexivity.
Qed.

Lemma call_wrap_runs body n l0 u0 a0 w r w' :
  call body n (FWrap l0 u0) a0 w = (r, w') -> r <> OutOfFuel ->
  exists ext, w_trace w' = ext ++ w_trace w /\ TRun l0 a0 ∈ ext.
Proof.
  destruct n as [|n]; simpl; intros E Hr; [inversion E; subst; contradiction|].
  unfold mbind, M_bind at 1 in E.
  destruct (call body n (FUser l0) a0 w) as [[x|e|] w1] eqn:Ec.
  - destruct (call_user_runs body n l0 a0 w _ w1 Ec ltac:(discriminate)) as (e1 & H1 & Hin1).
    assert (Hrest : exists e2, w_trace w' = e2 ++ w_trace w1).
    { unfold get, mbind, M_bind in E. destruct (w_wraps w1 !! u0) as [h0|].
      - destruct (inv_fd_dispose EmptyString h0 w1 r w' E) as [(_ & _ & X) _]. exact X.
      - inversion E; subst. exists []. reflexivity. }
    destruct Hrest as [e2 H2]. exists (e2 ++ e1). rewrite H2, H1, app_assoc.
    split; [reflexivity|]. rewrite elem_of_app. right. exact Hin1.
  - inversion E; subst. eapply call_user_runs; [exact Ec|discriminate].
  - inversion E; subst. contradiction.
Qed.

Lemma caught_trace k o w :
  w_trace (caught k o w) = match o with None => [] | Some e => [TErr k e] end ++ w_trace w.
Proof. destruct o; reflexivity. Qed.

(** A dispatch run calls every [wrapper] of its snapshot, and so runs its
    listener. *)
Lemma dispatch_run_wrap body n k a snap w1 os w2 l0 u0 :
  dispatch_run (call body n) k a snap w1 os w2 -> FWrap l0 u0 ∈ snap ->
  exists ext, w_trace w2 = ext ++ w_trace w1 /\
    TCall k (FWrap l0 u0) a ∈ ext /\ TRun l0 a ∈ ext.
Proof.
  induction 1 as [w|f fs w o wc os w' Hc Hrun IH]; intros Hin; [apply elem_of_nil in Hin; contradiction|].
  assert (Hr : exists e2, w_trace w' = e2 ++ w_trace (caught k o wc)).
  { clear IH Hin. induction Hrun as [w0|f1 fs1 w0 o1 wc1 os1 w1' Hc1 Hrun1 IH1]; [exists []; reflexivity|].
    destruct IH1 as [e3 H3]. destruct (call_ext _ _ _ _ _ _ _ Hc1) as [e4 H4].
    exists (e3 ++ match o1 with None => [] | Some e => [TErr k e] end ++ e4 ++ [TCall k f1 a]).
    rewrite H3, caught_trace, H4. simpl. rewrite <- !app_assoc. reflexivity. }
  destruct Hr as [e2 H2]. rewrite caught_trace in H2.
  destruct (call_ext _ _ _ _ _ _ _ Hc) as [e1 H1]. simpl in H1.
  apply elem_of_cons in Hin as [Heq|Hin].
  - subst f. destruct (call_wrap_runs _ _ _ _ _ _ _ _ Hc ltac:(destruct o; discriminate))
      as (e5 & H5 & Hin5).
    simpl in H5. rewrite H1 in H5. assert (e5 = e1) as -> by (eapply app_inv_tail; symmetry; exact H5).
    exists (e2 ++ match o with None => [] | Some e => [TErr k e] end ++ e1 ++ [TCall k (FWrap l0 u0) a]).
    rewrite H2, H1. simpl. rewrite <- !app_assoc. split; [reflexivity|].
    rewrite !elem_of_app, list_elem_of_singleton. tauto.
  - destruct (IH Hin) as (e3 & H3 & Ha & Hb).
    assert (e3 = e2) as -> by (rewrite H2, caught_trace in H3; eapply app_inv_tail; symmetry; exact H3).
    exists (e2 ++ match o with None => [] | Some e => [TErr k e] end ++ e1 ++ [TCall k f a]).
    rewrite H2, H1. simpl. rewrite <- !app_assoc. split; [reflexivity|].
    rewrite !elem_of_app. tauto.
Qed.

Lemma invoke_wrap_runs body n k snap a w r w' l0 u0 :
  invoke (call body n) k snap a w = (r, w') -> r <> OutOfFuel -> FWrap l0 u0 ∈ snap ->
  r = Ok tt /\ exists ext, w_trace w' = ext ++ w_trace w /\
    TCall k (FWrap l0 u0) a ∈ ext /\ TRun l0 a ∈ ext.
Proof.
  intros E Hr Hin. destruct (invoke_run _ _ _ _ _ _ _ E Hr) as (-> & os & wl & Hrun & ->).
  split; [reflexivity|]. exact (dispatch_run_wrap body n k a snap _ os wl l0 u0 Hrun Hin).
Qed.

(** ** Freshness of the identities [once] hands out *)

Definition WFU (w w' : world) : Prop := wraps_fresh w -> wraps_fresh w'.

#[global] Instance WFU_preorder : PreOrder WFU.
Proof. split; [intros w H; exact H|intros ??? H1 H2 H; auto]. Qed.

Lemma WFU_frame w w' :
  w_wraps w' = w_wraps w -> w_handles w' = w_handles w -> w_next w <= w_next w' -> WFU w w'.
Proof.
  intros Wr Hh N [F1 F2]. unfold wraps_fresh. rewrite Wr, Hh. split.
  - intros u' h' Hw. destruct (F1 u' h' Hw). lia.
  - intros h' hd r' l' u' Hl Hf. pose proof (F2 h' hd r' l' u' Hl Hf). lia.
Qed.

Ltac frame_wfu := intros ?; apply WFU_frame; simpl; auto.

Lemma wfu_handle w h hd :
  (forall r l' u', h_fn hd = CDelete r (FWrap l' u') -> u' < w_next w) ->
  WFU w (set_handles (<[h := hd]>) w).
Proof.
  intros Hd [F1 F2]. split; simpl; [exact F1|].
  intros h' hd' r' l' u' Hl Hf. apply lookup_insert_Some in Hl as [(<- & <-)|(_ & Hl)].
  - eapply Hd. exact Hf.
  - eapply F2; eauto.
Qed.

Lemma wfu_tell e : pres WFU (tell e).
Proof. apply pres_modify. frame_wfu. Qed.

Lemma wfu_checkDisposed : pres WFU checkDisposed.
Proof.
  unfold checkDisposed. apply pres_get_bind. intros w.
  destruct (w_disposed w); [apply pres_throw|apply pres_ret].
Qed.

Lemma run_cleanup_frame c w r w1 :
  run_cleanup c w = (r, w1) -> w_handles w1 = w_handles w /\ w_wraps w1 = w_wraps w /\ w_next w1 = w_next w.
Proof.
  destruct c as [r0 f|t []]; simpl; unfold mbind, M_bind, tell, modify, throw, mret, M_ret;
    intros E; inversion E; subst; auto.
Qed.

Lemma wfu_fd_dispose h : pres WFU (fd_dispose h).
Proof.
  unfold fd_dispose. apply pres_get_bind. intros w.
  destruct (w_handles w !! h) as [hd|] eqn:Eh; [|apply pres_ret].
  destruct (h_disposed hd); [apply wfu_tell|].
  apply pres_from_bind.
  - intros r w1 E. destruct (run_cleanup_frame _ _ _ _ E) as (H1 & H2 & H3).
    apply WFU_frame; auto; lia.
  - intros [] w1 E r w' E' Hf. unfold modify in E'. inversion E'; subst.
    destruct (run_cleanup_frame _ _ _ _ E) as (H1 & _ & _).
    apply wfu_handle; [|exact Hf]. intros r0 l' u' Hfn. simpl in Hfn.
    destruct Hf as [_ F2]. eapply F2; [rewrite H1; exact Eh|exact Hfn].
Qed.

Lemma wfu_on_from k f w :
  (forall l' u', f = FWrap l' u' -> u' < w_next w) -> pres_from WFU w (on k f).
Proof.
  intros Hf r w' E HF. destruct (w_disposed w) eqn:Hd.
  { rewrite on_disposed in E by exact Hd. inversion E; subst. exact HF. }
  rewrite on_step in E by exact Hd. destruct HF as [F1 F2].
  destruct (w_events w !! k); inversion E; subst; clear E; split; simpl.
  1, 3: intros u' h' Hw; destruct (F1 _ _ Hw); lia.
  all: intros h' hd r' l' u' Hh Hfn; apply lookup_insert_Some in Hh as [(<- & <-)|(_ & Hh)];
    [simpl in Hfn; inversion Hfn; subst; pose proof (Hf l' u' eq_refl); lia
    |pose proof (F2 _ _ _ _ _ Hh Hfn); lia].
Qed.

Lemma wfu_once k l : pres WFU (once k l).
Proof.
  intros w r w' E HF. unfold once, mbind, M_bind, fresh in E.
  assert (HF1 : wraps_fresh (bump_next w)) by (revert HF; apply WFU_frame; simpl; auto).
  destruct (on k (FWrap l (w_next w)) (bump_next w)) as [[x|e|] w2] eqn:Eo.
  - assert (HF2 : wraps_fresh w2).
    { eapply (wfu_on_from k (FWrap l (w_next w)) (bump_next w)); [|exact Eo|exact HF1].
      intros l' u' Heq. inversion Heq; subst. simpl. lia. }
    pose proof (on_ok_fresh _ _ _ _ _ Eo) as [Hx1 Hx2]. simpl in Hx1.
    unfold modify, mret, M_ret in E. inversion E; subst; clear E.
    destruct HF2 as [F1 F2]. split; simpl; [|exact F2].
    intros u' h' Hw. apply lookup_insert_Some in Hw as [(<- & <-)|(_ & Hw)]; [lia|eauto].
  - inversion E; subst. eapply (wfu_on_from k (FWrap l (w_next w)) (bump_next w)); [|exact Eo|exact HF1].
    intros l' u' Heq. inversion Heq; subst. simpl. lia.
  - inversion E; subst. eapply (wfu_on_from k (FWrap l (w_next w)) (bump_next w)); [|exact Eo|exact HF1].
    intros l' u' Heq. inversion Heq; subst. simpl. lia.
Qed.

Lemma wfu_dispose ok : pres WFU (dispose ok).
Proof.
  unfold dispose. apply pres_bind; [apply wfu_checkDisposed|intros _].
  destruct (js_truthy_key ok).
  - apply pres_modify. frame_wfu.
  - apply pres_bind; [apply pres_modify; frame_wfu|intros _]. apply pres_modify. frame_wfu.
Qed.

Section WfuDispatch.

Variable callf : fnv -> args -> M unit.
Hypothesis callf_wfu : forall f a, pres WFU (callf f a).

Lemma wfu_invoke k snap a : pres WFU (invoke callf k snap a).
Proof.
  unfold invoke. apply pres_bind; [apply pres_modify; frame_wfu|intros _].
  apply pres_try_finally; [|apply pres_modify; frame_wfu].
  induction snap as [|f fs IH]; simpl; [apply pres_ret|].
  apply pres_bind; [apply wfu_tell|intros _].
  apply pres_bind; [|intros _; exact IH].
  apply pres_catch; [apply callf_wfu|intros e; apply wfu_tell].
Qed.

Lemma wfu_emit k a : pres WFU (emit callf k a).
Proof.
  unfold emit. apply pres_bind; [apply wfu_checkDisposed|intros _].
  apply pres_get_bind. intros w.
  destruct (decide (k ∈ w_firing w)); [apply wfu_tell|].
  destruct (w_events w !! k) as [r|]; [|apply pres_ret].
  destruct (default [] (w_sets w !! r)) as [|f fs]; [apply pres_ret|].
  destruct (w_sync w); [apply wfu_invoke|apply pres_modify; frame_wfu].
Qed.

Lemma wfu_exec_cmds cs : pres WFU (exec_cmds callf cs).
Proof.
  induction cs as [|c cs IH]; simpl; [apply pres_ret|].
  apply pres_bind; [|intros _; apply IH].
  destruct c; simpl.
  - apply wfu_emit.
  - intros w. apply pres_from_bind; [apply wfu_on_from; discriminate|].
    intros; apply pres_ret.
  - apply pres_bind; [apply wfu_once|intros _; apply pres_ret].
  - apply wfu_fd_dispose.
  - apply wfu_dispose.
  - apply pres_throw.
Qed.

End WfuDispatch.

Lemma wfu_call body n : forall f a, pres WFU (call body n f a).
Proof.
  induction n as [|n IH]; intros f a; simpl; [apply pres_fuel|].
  destruct f as [l|l u].
  - apply pres_bind; [apply wfu_tell|intros _]. apply wfu_exec_cmds. exact IH.
  - apply pres_bind; [apply IH|intros _].
    apply pres_get_bind. intros w.
    destruct (w_wraps w !! u); [apply wfu_fd_dispose|apply pres_ret].
Qed.

Lemma wfu_drain body m n : pres WFU (drain body m n).
Proof.
  induction m as [|m IH]; simpl; [apply pres_fuel|].
  apply pres_get_bind. intros w.
  destruct (w_queue w) as [|t q]; [apply pres_ret|].
  apply pres_bind; [apply pres_modify; frame_wfu|intros _].
  apply pres_bind; [apply wfu_invoke; apply wfu_call|intros _]. apply IH.
Qed.

Lemma wfu_run_top body n cs : pres WFU (run_top body n cs).
Proof.
  unfold run_top. apply pres_bind; [apply wfu_exec_cmds, wfu_call|intros _; apply wfu_drain].
Qed.

Lemma wfu_new_bus sync : wraps_fresh (new_bus sync).
Proof.
  split; simpl.
  - intros u' h' H. rewrite lookup_empty in H. discriminate.
  - intros h' hd r' l' u' H. rewrite lookup_empty in H. discriminate.
Qed.

Section OnceThrow3.

Variable body : nat -> args -> list cmd.
Variables (k : key) (l u h : nat).
Hypothesis keep : forall l' b, Forall (keeps_reg k h) (body l' b).

(** An emission of [k] whose arguments make [l] throw, from the top level. *)
Lemma reg_emit_top n a w r w' :
  registered k l u h w -> k ∉ w_firing w -> throws_on body l a ->
  emit (call body n) k a w = (r, w') -> r <> OutOfFuel ->
  r = Ok tt /\ registered k l u h w' /\
  (w_sync w = true -> exists ext, w_trace w' = ext ++ w_trace w /\
     TCall k (FWrap l u) a ∈ ext /\ TRun l a ∈ ext) /\
  (w_sync w = false -> w' = set_queue (fun q => q ++ [mkT k (collection w k) a]) w).
Proof.
  intros Hreg Hk Ht E Hr.
  pose proof (registered_collection _ _ _ _ _ Hreg) as Hin.
  assert (Hd : w_disposed w = false) by (destruct Hreg as (_ & _ & _ & _ & _ & _ & _ & Hd); exact Hd).
  rewrite emit_live in E by assumption.
  assert (Hcall : Forall (fun f => callable body u f a) (collection w k)).
  { apply Forall_forall. intros g Hg l' ->.
    destruct (registered_only _ _ _ _ _ _ _ Hreg Hg) as [_ ->]. exact Ht. }
  destruct (collection w k) as [|f fs] eqn:Ec; [apply elem_of_nil in Hin; contradiction|].
  destruct (w_sync w) eqn:Hsy.
  - destruct (invoke_wrap_runs body n k (f :: fs) a w r w' l u E Hr Hin) as [-> Hext].
    split_and!; [reflexivity| |intros _; exact Hext|discriminate].
    eapply (reg_invoke_top body k l u h keep); [exact Hreg|intros _; reflexivity|exact Hcall|exact E].
  - unfold modify in E. inversion E; subst.
    split_and!; [reflexivity|exact Hreg|discriminate|intros _; reflexivity].
Qed.

(** The queued unit of such an emission, run whenever the checkpoint comes. *)
Lemma reg_task_top n snap a w r w' :
  registered k l u h w -> FWrap l u ∈ snap ->
  (forall l', FWrap l' u ∈ snap -> throws_on body l' a) ->
  invoke (call body n) k snap a w = (r, w') -> r <> OutOfFuel ->
  r = Ok tt /\ registered k l u h w' /\
  exists ext, w_trace w' = ext ++ w_trace w /\ TCall k (FWrap l u) a ∈ ext /\ TRun l a ∈ ext.
Proof.
  intros Hreg Hin Ht E Hr.
  destruct (invoke_wrap_runs body n k snap a w r w' l u E Hr Hin) as [-> Hext].
  split_and!; [reflexivity| |exact Hext].
  eapply (reg_invoke_top body k l u h keep); [exact Hreg|intros _; reflexivity| |exact E].
  apply Forall_forall. intros g Hg l' ->. apply Ht. exact Hg.
Qed.

(** On a deferred bus, any queued unit whose snapshot does not reach the
    self-dispose keeps the registration. *)
Lemma reg_task_deferred n k0 snap a w r w' :
  registered k l u h w -> w_sync w = false ->
  (forall l', FWrap l' u ∈ snap -> throws_on body l' a) ->
  invoke (call body n) k0 snap a w = (r, w') -> registered k l u h w'.
Proof.
  intros Hreg Hsy Ht E.
  eapply (reg_invoke_top body k l u h keep); [exact Hreg|rewrite Hsy; discriminate| |exact E].
  apply Forall_forall. intros g Hg l' ->. apply Ht. exact Hg.
Qed.

End OnceThrow3.

(** The next emission of a key whose collection holds a [wrapper] calls it,
    and with it its listener: at once on a synchronous bus, through the
    queued unit on a deferred one. *)
Lemma emit_calls_wrap body n k l u a w r w' :
  FWrap l u ∈ collection w k -> w_disposed w = false -> k ∉ w_firing w ->
  emit (call body n) k a w = (r, w') -> r <> OutOfFuel ->
  (w_sync w = true -> r = Ok tt /\ exists ext, w_trace w' = ext ++ w_trace w /\
     TCall k (FWrap l u) a ∈ ext /\ TRun l a ∈ ext) /\
  (w_sync w = false -> exists snap, w' = set_queue (fun q => q ++ [mkT k snap a]) w /\
     FWrap l u ∈ snap).
Proof.
  intros Hin Hd Hk E Hr. rewrite emit_live in E by assumption.
  destruct (collection w k) as [|f fs] eqn:Ec; [apply elem_of_nil in Hin; contradiction|].
  destruct (w_sync w) eqn:Hsy.
  - split; [intros _|discriminate]. eapply invoke_wrap_runs; eauto.
  - split; [discriminate|intros _]. unfold modify in E. inversion E; subst.
    exists (f :: fs). split; [reflexivity|exact Hin].
Qed.

Lemma wf_new_bus sync : wf (new_bus sync).
Proof.
  unfold wf, new_bus; simpl. split_and!.
  - intros k r H. rewrite lookup_empty in H. discriminate.
  - intros k1 k2 r H. rewrite lookup_empty in H. discriminate.
  - intros h hd r f H. rewrite lookup_empty in H. discriminate.
  - intros h hd H. rewrite lookup_empty in H. discriminate.
  - intros r fs l u H. rewrite lookup_empty in H. discriminate.
Qed.

Lemma call_wrap_ok body n l u a w w1 h :
  call body n (FUser l) a w = (Ok tt, w1) -> w_wraps w1 !! u = Some h ->
  call body (S n) (FWrap l u) a w = fd_dispose h w1.
Proof.
  intros E Hu. cbn [call]. unfold mbind at 1, M_bind at 1. rewrite E.
  unfold mbind, M_bind, get. rewrite Hu. reflexivity.
Qed.

Lemma call_wrap_err body n l u a w e w' :
  call body n (FUser l) a w = (Err e, w') -> call body (S n) (FWrap l u) a w = (Err e, w').
Proof. intros E. cbn [call]. unfold mbind at 1, M_bind at 1. rewrite E. reflexivity. Qed.

(** ** C10
    A listener registered with [once] that throws is not released.  The
    [wrapper] reaches [disposable.dispose()] only after the listener returns
    normally: when the listener throws, the wrapper throws the same error
    and leaves the world as the listener left it; a listener whose body
    throws at any point never returns normally.  On any well-formed bus,
    synchronous or deferred, and for any key, with or without listeners,
    [once] registers its wrapper (the next identity [w_next w]) in the key's
    collection with its handle live ([registered]).  As long as no listener
    body disposes that handle, the key or the bus, an emission of the key
    from the top level with arguments on which the listener throws returns
    normally, the throw being caught by [emit], and leaves the registration
    in place: on a synchronous bus after calling the wrapper and so the
    listener, on a deferred bus by queuing a unit whose snapshot holds the
    wrapper; running that unit calls the listener and keeps the
    registration, and so does any other unit run on a deferred bus.  The
    next emission of the key, with any arguments, calls the wrapper and the
    listener again: at once on a synchronous bus, through the queued unit on
    a deferred one.  The freshness of identities [once] relies on holds on a
    new bus and is kept by every top-level script with its microtasks. *)
Theorem once_throw_keeps_registration body :
  (forall n l u a w e w',
     call body n (FUser l) a w = (Err e, w') ->
     call body (S n) (FWrap l u) a w = (Err e, w')) /\
  (forall n l u a w w1 h,
     call body n (FUser l) a w = (Ok tt, w1) -> w_wraps w1 !! u = Some h ->
     call body (S n) (FWrap l u) a w = fd_dispose h w1) /\
  (forall l a, CThrow ∈ body l a -> throws_on body l a) /\
  (forall sync, wraps_fresh (new_bus sync)) /\
  (forall n cs, pres WFU (run_top body n cs)) /\
  (forall k l w h w1,
     wf w -> wraps_fresh w -> w_disposed w = false -> once k l w = (Ok h, w1) ->
     registered k l (w_next w) h w1 /\ FWrap l (w_next w) ∈ collection w1 k) /\
  (forall k l u h, (forall l' b, Forall (keeps_reg k h) (body l' b)) ->
     (forall n a w r w',
        registered k l u h w -> k ∉ w_firing w -> throws_on body l a ->
        emit (call body n) k a w = (r, w') -> r <> OutOfFuel ->
        r = Ok tt /\ registered k l u h w' /\ FWrap l u ∈ collection w' k /\
        (w_sync w = true -> exists ext, w_trace w' = ext ++ w_trace w /\
           TCall k (FWrap l u) a ∈ ext /\ TRun l a ∈ ext) /\
        (w_sync w = false -> w' = set_queue (fun q => q ++ [mkT k (collection w k) a]) w)) /\
     (forall n snap a w r w',
        registered k l u h w -> FWrap l u ∈ snap ->
        (forall l', FWrap l' u ∈ snap -> throws_on body l' a) ->
        invoke (call body n) k snap a w = (r, w') -> r <> OutOfFuel ->
        r = Ok tt /\ registered k l u h w' /\ FWrap l u ∈ collection w' k /\
        exists ext, w_trace w' = ext ++ w_trace w /\
          TCall k (FWrap l u) a ∈ ext /\ TRun l a ∈ ext) /\
     (forall n k0 snap a w r w',
        registered k l u h w -> w_sync w = false ->
        (forall l', FWrap l' u ∈ snap -> throws_on body l' a) ->
        invoke (call body n) k0 snap a w = (r, w') -> registered k l u h w')) /\
  (forall n k l u a w r w',
     FWrap l u ∈ collection w k -> w_disposed w = false -> k ∉ w_firing w ->
     emit (call body n) k a w = (r, w') -> r <> OutOfFuel ->
     (w_sync w = true -> r = Ok tt /\ exists ext, w_trace w' = ext ++ w_trace w /\
        TCall k (FWrap l u) a ∈ ext /\ TRun l a ∈ ext) /\
     (w_sync w = false -> exists snap, w' = set_queue (fun q => q ++ [mkT k snap a]) w /\
        FWrap l u ∈ snap)) /\
  (forall n k snap a w r w' l u,
     invoke (call body n) k snap a w = (r, w') -> r <> OutOfFuel -> FWrap l u ∈ snap ->
     r = Ok tt /\ exists ext, w_trace w' = ext ++ w_trace w /\
       TCall k (FWrap l u) a ∈ ext /\ TRun l a ∈ ext).
Proof.
  split_and!.
  - intros n l u a w e w'. apply call_wrap_err.
  - intros n l u a w w1 h. apply call_wrap_ok.
  - apply throws_on_of_throw.
  - apply wfu_new_bus.
  - apply wfu_run_top.
  - intros k l w h w1 Hwf Hfr Hd Ho.
    destruct (once_registered k l w h w1 Hwf Hfr Hd Ho) as (Hreg & _ & _).
    split; [exact Hreg|apply registered_collection with (h := h); exact Hreg].
  - intros k l u h Hk. split_and!.
    + intros n a w r w' Hreg Hf Ht E Hr.
      destruct (reg_emit_top body k l u h Hk n a w r w' Hreg Hf Ht E Hr) as (-> & Hreg' & Hs & Hq).
      split_and!; [reflexivity|exact Hreg'|apply registered_collection with (h := h); exact Hreg'|exact Hs|exact Hq].
    + intros n snap a w r w' Hreg Hin Ht E Hr.
      destruct (reg_task_top body k l u h Hk n snap a w r w' Hreg Hin Ht E Hr) as (-> & Hreg' & Hext).
      split_and!; [reflexivity|exact Hreg'|apply registered_collection with (h := h); exact Hreg'|exact Hext].
    + intros n k0 snap a w r w'. apply (reg_task_deferred body k l u h Hk).
  - intros n k l u a w r w'. apply emit_calls_wrap.
  - intros n k snap a w r w' l u E Hr Hin. eapply invoke_wrap_runs; eauto.
Qed.

(** A listener [0] that registers another listener and then throws. *)
Definition wit_once_body : nat -> args -> list cmd :=
  fun l _ => if Nat.eqb l 0 then [COn "bar"%string 1; CThrow] else [].

Definition wit_once_sync : world := snd (once "foo"%string 0 (new_bus true)).
Definition wit_once_emit1 : res unit * world :=
  emit (call wit_once_body 10) "foo"%string [5%Z] wit_once_sync.
Definition wit_once_emit2 : res unit * world :=
  emit (call wit_once_body 10) "foo"%string [6%Z] wit_once_emit1.2.
Definition wit_once_deferred : world := snd (once "foo"%string 0 (new_bus false)).
Definition wit_once_queued : res unit * world :=
  emit (call wit_once_body 10) "foo"%string [5%Z] wit_once_deferred.
Definition wit_once_task : res unit * world :=
  invoke (call wit_once_body 10) "foo"%string (collection wit_once_deferred "foo"%string) [5%Z]
    wit_once_queued.2.

(** Witness of C10: on a synchronous bus, the one-shot listener [0] throws
    on the first emission, stays registered, and is called again by the next
    emission with other arguments; on a deferred bus, the queued unit calls
    it and leaves it registered. *)
Lemma once_throw_keeps_registration_witness :
  fst wit_once_emit1 = Ok tt /\ FWrap 0 0 ∈ collection wit_once_emit1.2 "foo"%string /\
  (exists ext, w_trace wit_once_emit2.2 = ext ++ w_trace wit_once_emit1.2 /\
     TCall "foo"%string (FWrap 0 0) [6%Z] ∈ ext /\ TRun 0 [6%Z] ∈ ext) /\
  fst wit_once_task = Ok tt /\ FWrap 0 0 ∈ collection wit_once_task.2 "foo"%string.
Proof.
  destruct (once_throw_keeps_registration wit_once_body)
    as (_ & _ & T3 & _ & _ & T6 & T7 & T8 & _).
  assert (Hk : forall l' b, Forall (keeps_reg "foo"%string 2) (wit_once_body l' b)).
  { intros l' b. unfold wit_once_body. destruct (Nat.eqb l' 0); repeat constructor. }
  assert (Ht : throws_on wit_once_body 0 [5%Z]).
  { apply T3. vm_compute. set_solver. }
  destruct (T6 "foo"%string 0 (new_bus true) 2 wit_once_sync) as [Hreg1 _];
    [apply wf_new_bus|apply wfu_new_bus|reflexivity|reflexivity|].
  destruct (T6 "foo"%string 0 (new_bus false) 2 wit_once_deferred) as [Hregd _];
    [apply wf_new_bus|apply wfu_new_bus|reflexivity|reflexivity|].
  destruct (T7 "foo"%string 0 0 2 Hk) as (E1 & E2 & _).
  destruct (E1 10 [5%Z] wit_once_sync (fst wit_once_emit1) (snd wit_once_emit1) Hreg1)
    as (Hr2 & _ & Hin2 & _ & _);
    [vm_compute; set_solver|exact Ht|apply surjective_pairing|vm_compute; discriminate|].
  destruct (E1 10 [5%Z] wit_once_deferred (fst wit_once_queued) (snd wit_once_queued) Hregd)
    as (_ & Hregq & _ & _ & _);
    [vm_compute; set_solver|exact Ht|apply surjective_pairing|vm_compute; discriminate|].
  destruct (E2 10 (collection wit_once_deferred "foo"%string) [5%Z] wit_once_queued.2
              (fst wit_once_task) (snd wit_once_task) Hregq)
    as (Hr3 & _ & Hin3 & _);
    [vm_compute; set_solver
    |intros l' Hl'; vm_compute in Hl'; apply list_elem_of_singleton in Hl';
       inversion Hl'; subst; exact Ht
    |apply surjective_pairing|vm_compute; discriminate|].
  split_and!; [exact Hr2|exact Hin2| |exact Hr3|exact Hin3].
  apply (proj1 (T8 10 "foo"%string 0 0 [6%Z] wit_once_emit1.2 (fst wit_once_emit2) (snd wit_once_emit2)
                  Hin2 ltac:(vm_compute; reflexivity) ltac:(vm_compute; set_solver)
                  (surjective_pairing _) ltac:(vm_compute; discriminate))).
  vm_compute. reflexivity.
Defined.
